(** * Lattice dynamics with the adiabatic bond-charge model

    A shallow embedding of [abcm.py]: the force-constant builder
    [ConstructFC], the dynamical-matrix assembler [DynBuild] and the
    methods of class [ABCM] that set neighbours, force constants and
    k-points and that drive the fit.

    Conventions of the embedding.
    - A numpy [float64] is a real number of the Standard Library: the
      development describes the arithmetic the program performs, free of
      rounding.  A comparison against a tolerance ([< 1e-4]) is the
      comparison of reals.
    - A numpy array of shape [(3,)] is a [vec3], one of shape [(3,3)] a
      [mat3]; a stack of shape [(N,3,3)] is a list of [mat3]; the complex
      [(3N,3N)] matrix is its index function.
    - A Python exception is a value of [exn]; code that can raise returns
      a [result].
    - Line 61 of the source reads [nnlab[n2] = 'BC'] inside an expression;
      it is embedded as the comparison [nnlab[n2] == 'BC'].
    - [ConstructFC] has six positional parameters and no default; the
      methods [set_bulk_fc] and [set_sl_fc] call it with four arguments.
      Such a call raises [TypeError] once its arguments are evaluated, and
      it is embedded so. *)

From Stdlib Require Import Reals Lra Lia.
From stdpp Require Import base option list sorting strings gmap.

#[local] Open Scope R_scope.

(** ** Exceptions *)

Inductive exn : Type :=
  | AssertionError
  | IndexError
  | NameError (var : string)
  | KeyError (key : string)
  | ValueError (msg : string)
  | TypeError (msg : string).

Inductive result (A : Type) : Type :=
  | Ok (a : A)
  | Raise (e : exn).

Arguments Ok {A} a.
Arguments Raise {A} e.

#[global] Instance result_ret : MRet result := fun A a => Ok a.
#[global] Instance result_bind : MBind result := fun A B f m =>
  match m with
  | Ok a => f a
  | Raise e => Raise e
  end.

Definition from_opt {A : Type} (e : exn) (o : option A) : result A :=
  match o with
  | Some a => Ok a
  | None => Raise e
  end.

(** A [for] loop whose body can raise: the first exception ends it. *)
Fixpoint for_each {S A : Type} (body : A -> S -> result S) (l : list A) (s : S)
  : result S :=
  match l with
  | [] => Ok s
  | x :: l' => s' ← body x s; for_each body l' s'
  end.

(** ** Vectors and 3x3 tensors *)

Record vec3 : Type := V3 { vx : R; vy : R; vz : R }.

Definition vget (v : vec3) (a : nat) : R :=
  match a with
  | O => vx v
  | 1%nat => vy v
  | _ => vz v
  end.

Definition vec3_of (f : nat -> R) : vec3 := V3 (f 0%nat) (f 1%nat) (f 2%nat).

Definition vsub (u v : vec3) : vec3 := vec3_of (fun a => vget u a - vget v a).
Definition vadd (u v : vec3) : vec3 := vec3_of (fun a => vget u a + vget v a).
Definition vopp (u : vec3) : vec3 := vec3_of (fun a => - vget u a).
Definition vscale (u : vec3) (c : R) : vec3 := vec3_of (fun a => vget u a * c).
Definition vdot (u v : vec3) : R := vx u * vx v + vy u * vy v + vz u * vz v.
Definition cross (u v : vec3) : vec3 :=
  V3 (vy u * vz v - vz u * vy v)
     (vz u * vx v - vx u * vz v)
     (vx u * vy v - vy u * vx v).

(** [numpy.linalg.norm] of a vector. *)
Definition norm (v : vec3) : R := sqrt (vdot v v).

Record mat3 : Type := M3 { row0 : vec3; row1 : vec3; row2 : vec3 }.

Definition mrow (m : mat3) (a : nat) : vec3 :=
  match a with
  | O => row0 m
  | 1%nat => row1 m
  | _ => row2 m
  end.

Definition mget (m : mat3) (a b : nat) : R := vget (mrow m a) b.

Definition mat3_of (f : nat -> nat -> R) : mat3 :=
  M3 (vec3_of (f 0%nat)) (vec3_of (f 1%nat)) (vec3_of (f 2%nat)).

Definition mzero : mat3 := mat3_of (fun _ _ => 0).
Definition madd (m p : mat3) : mat3 := mat3_of (fun a b => mget m a b + mget p a b).
Definition mscale (m : mat3) (c : R) : mat3 := mat3_of (fun a b => mget m a b * c).
Definition mdiv (m : mat3) (c : R) : mat3 := mat3_of (fun a b => mget m a b / c).
Definition mtranspose (m : mat3) : mat3 := mat3_of (fun a b => mget m b a).
Definition mat_vec (m : mat3) (v : vec3) : vec3 := vec3_of (fun a => vdot (mrow m a) v).

(** The outer product [u (x) v]. *)
Definition outer (u v : vec3) : mat3 := mat3_of (fun a b => vget u a * vget v b).

(** [x < y] on floats, as a boolean. *)
Definition Rltb (x y : R) : bool := if Rlt_dec x y then true else false.
Definition Rleb (x y : R) : bool := if Rle_dec x y then true else false.

Definition is_bc (l : string) : bool := bool_decide (l = "BC"%string).

(** ** ConstructFC (abcm.py, lines 23-81) *)

Module FC.

(** The arrays [Alpha] and [Beta] and the local [d1], which is bound the
    first time the stretching branch runs and keeps its value afterwards. *)
Record loop_state : Type := LoopState {
  Alpha : list mat3;
  Beta : list mat3;
  d1 : option R
}.

Section Loop.
Variables (alpha : list R) (beta : list (list R)) (nn : list vec3)
            (atom : vec3) (nnlab : list string) (isBC : bool).

Definition lab (n : nat) : result string := from_opt IndexError (nnlab !! n).
Definition nn_at (n : nat) : result vec3 := from_opt IndexError (nn !! n).
Definition alpha_at (n : nat) : result R := from_opt IndexError (alpha !! n).

  (** [beta[n1,n2]] on [np.array(beta)]: a ragged [beta] is not a
      two-dimensional array and cannot be indexed by a pair. *)
Definition beta_at (n1 n2 : nat) : result R :=
    if forallb (fun r => length r =? length nn)%nat beta
    then from_opt IndexError (beta !! n1 ≫= (.!! n2))
    else Raise IndexError.

  (** Line 52: [not (isBC) or (isBC and nnlab[n1] != 'BC')]. *)
Definition stretches (n1 : nat) : result bool :=
    if negb isBC then Ok true
    else l ← lab n1; Ok (negb (is_bc l)).

  (** Lines 53-56. *)
Definition alpha_entries (p : vec3) : mat3 :=
    mat3_of (fun a b =>
      if (a =? b)%nat then - (vget atom a - vget p a) ^ 2
      else - (vget atom a - vget p a) * (vget atom b - vget p b)).

  (** Lines 52-58. *)
Definition stretch_step (n1 : nat) (s : loop_state) : result loop_state :=
    g ← stretches n1;
    if g : bool then
      p ← nn_at n1;
      a ← alpha_at n1;
      let d := norm (vsub atom p) in
      Ok (LoopState (<[n1 := mscale (alpha_entries p) (a / d / d)]> (Alpha s))
                    (Beta s) (Some d))
    else Ok s.

  (** Lines 68-73. *)
Definition tmp_entries (p1 p2 : vec3) : mat3 :=
    mat3_of (fun a b =>
      if (a =? b)%nat
      then (- vget atom a + vget p2 a) * (2 * vget atom a - vget p1 a - vget p2 a)
      else (- vget atom b + vget p2 b) * (2 * vget atom a - vget p1 a - vget p2 a)).

  (** Line 61. *)
Definition tf1 (n1 n2 : nat) : result bool :=
    if negb isBC then
      l1 ← lab n1;
      if is_bc l1 then l2 ← lab n2; Ok (is_bc l2) else Ok false
    else Ok false.

  (** Lines 62-64: [tf0] is only computed at a bond-charge site, and
      reads [d1]. *)
Definition tf0 (s : loop_state) (p1 p2 : vec3) : result bool :=
    if isBC then
      d ← from_opt (NameError "d1") (d1 s);
      Ok (Rltb (d - norm (vsub p1 p2)) 1e-4)
    else Ok false.

  (** Line 65. *)
Definition tf2 (n1 n2 : nat) (t0 : bool) : result bool :=
    if isBC then
      l1 ← lab n1;
      if is_bc l1 then l2 ← lab n2; Ok (negb (is_bc l2) && t0) else Ok false
    else Ok false.

  (** Line 66. *)
Definition tf3 (n1 n2 : nat) (t0 : bool) : result bool :=
    if isBC then
      l1 ← lab n1;
      if negb (is_bc l1) then l2 ← lab n2; Ok (is_bc l2 && t0) else Ok false
    else Ok false.

  (** Lines 60-76, one turn of the loop over [n2].  [d2] is the distance
      between the two neighbours at a bond-charge site (line 63) and is
      rebound to the length of the bond to [n2] when [tf1] holds
      (line 75); it is always bound before line 76 reads it. *)
Definition bend_step (n1 n2 : nat) (s : loop_state) : result loop_state :=
    if (n1 =? n2)%nat then Ok s
    else
      t1 ← tf1 n1 n2;
      p1 ← nn_at n1;
      p2 ← nn_at n2;
      t0 ← tf0 s p1 p2;
      t2 ← tf2 n1 n2 t0;
      t3 ← tf3 n1 n2 t0;
      if (t1 : bool) || t2 || t3 then
        let d2 := if t1 then norm (vsub atom p2) else norm (vsub p1 p2) in
        d ← from_opt (NameError "d1") (d1 s);
        b ← beta_at n1 n2;
        B ← from_opt IndexError (Beta s !! n1);
        Ok (LoopState (Alpha s)
                      (<[n1 := madd B (mdiv (mdiv (mscale (tmp_entries p1 p2) b) d) d2)]> (Beta s))
                      (d1 s))
      else Ok s.

  (** Lines 51-76, one turn of the loop over [n1]. *)
Definition outer_step (n1 : nat) (s : loop_state) : result loop_state :=
    s' ← stretch_step n1 s;
    for_each (bend_step n1) (seq 0 (length nn)) s'.

Definition init_state : loop_state :=
    LoopState (replicate (length nn) mzero) (replicate (length nn) mzero) None.

Definition ConstructFC : result (list mat3) :=
    let N := length nn in
    if negb (length alpha =? N)%nat then Raise AssertionError
    else if negb (length beta =? N)%nat then Raise AssertionError
    else
      b0 ← from_opt IndexError (beta !! 0%nat);
      if negb (length b0 =? N)%nat then Raise AssertionError
      else
        s ← for_each outer_step (seq 0 N) init_state;
        Ok (zip_with madd ((fun m => mscale m 8) <$> Alpha s)
                          ((fun m => mscale m 2) <$> Beta s)).

End Loop.

End FC.

(** ** ConstructFC in closed form

    The tensor of neighbour [n], written without the loop: the guarded
    stretching term and the sum of the bending contributions of the pairs
    the three flags let through. *)

#[global] Instance R_inhabited : Inhabited R := populate 0.
#[global] Instance vec3_inhabited : Inhabited vec3 := populate (V3 0 0 0).
#[global] Instance mat3_inhabited : Inhabited mat3 := populate mzero.

Definition msum (l : list mat3) : mat3 := foldr madd mzero l.

Module FCSpec.

Section Closed.
Variables (alpha : list R) (beta : list (list R)) (nn : list vec3)
            (atom : vec3) (nnlab : list string) (isBC : bool).

  (** The bond vector [atom - nn[n]] and the bond length [d_n]. *)
Definition bond (n : nat) : vec3 := vsub atom (nn !!! n).
Definition bond_length (n : nat) : R := norm (bond n).

  (** The central site is a bond charge and so is neighbour [n]. *)
Definition bc_to_bc (n : nat) : bool := isBC && is_bc (nnlab !!! n).

  (** The outer product of the bond vector with itself, scaled by
      [- alpha_n / d_n^2]. *)
Definition stretching_term (n : nat) : mat3 :=
    mscale (outer (bond n) (bond n)) (- (alpha !!! n) / (bond_length n) ^ 2).

  (** The value of [d1] once the stretching branches of the neighbours
      before [k] have run. *)
Fixpoint d1_before (k : nat) : option R :=
    match k with
    | O => None
    | S k' => if bc_to_bc k' then d1_before k' else Some (bond_length k')
    end.

Definition d1_in (n1 : nat) : R := default 0 (d1_before (S n1)).

  (** The three flags [tf1], [tf2], [tf3] of the source, as one test on
      the pair. *)
Definition pair_included (n1 n2 : nat) : bool :=
    negb (n1 =? n2)%nat &&
    (if isBC
     then xorb (is_bc (nnlab !!! n1)) (is_bc (nnlab !!! n2)) &&
          Rltb (d1_in n1 - norm (vsub (nn !!! n1) (nn !!! n2))) 1e-4
     else is_bc (nnlab !!! n1) && is_bc (nnlab !!! n2)).

Definition d2_of (n1 n2 : nat) : R :=
    if isBC then norm (vsub (nn !!! n1) (nn !!! n2)) else bond_length n2.

Definition beta_of (n1 n2 : nat) : R := (beta !!! n1) !!! n2.

  (** The combination [(pos(n2) - atom) . (2 atom - pos(n1) - pos(n2))]
      scaled by [beta_{n1,n2} / (d1 d2)]. *)
Definition pair_term (n1 n2 : nat) : mat3 :=
    mscale (outer (vsub (vsub (vscale atom 2) (nn !!! n1)) (nn !!! n2))
                  (vsub (nn !!! n2) atom))
           (beta_of n1 n2 / (d1_in n1 * d2_of n1 n2)).

(** The contribution of the pair [(n1,n2)] to [Beta[n1]]. *)
Definition contribution (n1 n2 : nat) : mat3 :=
  if pair_included n1 n2 then pair_term n1 n2 else mzero.

Definition bending_term (n1 : nat) : mat3 :=
  msum (contribution n1 <$> seq 0 (length nn)).

(** The arrays [Alpha] and [Beta] after the turns [n1 < k] of the outer
    loop. *)
Definition Alpha_after (k : nat) : list mat3 :=
  (fun n => if (n <? k)%nat
            then (if bc_to_bc n then mzero else stretching_term n)
            else mzero) <$> seq 0 (length nn).

Definition Beta_after (k : nat) : list mat3 :=
  (fun n => if (n <? k)%nat then bending_term n else mzero) <$> seq 0 (length nn).

Definition tensor (n : nat) : mat3 :=
    madd (mscale (if bc_to_bc n then mzero else stretching_term n) 8)
         (mscale (bending_term n) 2).

  (** The gate of the bending term in the words of the specification:
      "(i) both are real-ion neighbors of a shared bond-charge site and the
      bond-charge's position is equidistant (within 1e-4) from both ions".
      The shared bond-charge site is the central atom. *)
Definition claimed_case_i (n1 n2 : nat) : Prop :=
    isBC = true /\
    is_bc (nnlab !!! n1) = false /\ is_bc (nnlab !!! n2) = false /\
    Rabs (bond_length n1 - bond_length n2) < 1e-4.

  (** "(ii) one of n1/n2 is itself a bond-charge linked through the first
      case", in its weakest reading: one of the two is labelled a bond
      charge and some pair of the shell is in the first case. *)
Definition claimed_case_ii (n1 n2 : nat) : Prop :=
    (is_bc (nnlab !!! n1) = true \/ is_bc (nnlab !!! n2) = true) /\
    exists m1 m2, (m1 < length nn)%nat /\ (m2 < length nn)%nat /\ m1 <> m2 /\
                  claimed_case_i m1 m2.

Definition claimed_gate (n1 n2 : nat) : Prop :=
    claimed_case_i n1 n2 \/ claimed_case_ii n1 n2.

  (** What the call needs in order to return: arrays of matching sizes,
      at least one neighbour, and a value for [d1] before it is read. *)
Definition well_formed : Prop :=
    (1 <= length nn)%nat /\
    length alpha = length nn /\
    length beta = length nn /\
    Forall (fun r => length r = length nn) beta /\
    length nnlab = length nn /\
    (isBC = true -> (2 <= length nn)%nat -> is_bc (nnlab !!! 0%nat) = false).

End Closed.

End FCSpec.

(** ** Complex numbers and the dynamical matrix *)

Record C : Type := mkC { re : R; im : R }.

Definition C0 : C := mkC 0 0.
Definition Cadd (z w : C) : C := mkC (re z + re w) (im z + im w).
Definition Cmul (z w : C) : C :=
  mkC (re z * re w - im z * im w) (re z * im w + im z * re w).
Definition Cconj (z : C) : C := mkC (re z) (- im z).
(** A complex number times, or minus, a float. *)
Definition Cscale (z : C) (c : R) : C := mkC (re z * c) (im z * c).
Definition Csub_real (z : C) (c : R) : C := mkC (re z - c) (im z).
(** [np.exp] of a complex number. *)
Definition cexp (z : C) : C := mkC (exp (re z) * cos (im z)) (exp (re z) * sin (im z)).
(** The literal [-1j]. *)
Definition minus_j : C := mkC (- 0) (- 1).

(** A complex array of shape [(n,n)], by its index function. *)
Definition cmat : Type := nat -> nat -> C.

Definition czeros : cmat := fun _ _ => C0.

(** The slice [r0:r0+3, c0:c0+3]. *)
Definition in_block (r0 c0 r c : nat) : bool :=
  (r0 <=? r)%nat && (r <? r0 + 3)%nat && (c0 <=? c)%nat && (c <? c0 + 3)%nat.

(** [D[r0:r0+3, c0:c0+3] -= T] for a real tensor [T]. *)
Definition block_sub (D : cmat) (r0 c0 : nat) (T : mat3) : cmat :=
  fun r c =>
    if in_block r0 c0 r c then Csub_real (D r c) (mget T (r - r0) (c - c0))
    else D r c.

(** [D[r0:r0+3, c0:c0+3] += T * z] for a real tensor [T] and a complex [z]. *)
Definition block_add (D : cmat) (r0 c0 : nat) (T : mat3) (z : C) : cmat :=
  fun r c =>
    if in_block r0 c0 r c then Cadd (D r c) (Cscale z (mget T (r - r0) (c - c0)))
    else D r c.

(** The argument [kpts]: one k-point of shape [(3,)], or an array of them. *)
Inductive kpts_arg : Type :=
  | OneK (k : vec3)
  | ManyK (ks : list vec3).

Definition kpts_array (k : kpts_arg) : list vec3 :=
  match k with
  | OneK k => [k]
  | ManyK ks => ks
  end.

(** ** DynBuild (abcm.py, lines 83-120) *)

Section DynBuild.
(** The constant [M_THZ] is imported from the module [constants], which
    is not part of the sources. *)
Variable M_THZ : R.
Variables (basis : list vec3) (mass : list R) (bvec : mat3)
          (fc : list (list mat3)) (nn : list (list vec3))
          (label : list (list nat)).

(** Lines 113-118, for the k-point [kq] in Cartesian coordinates. *)
Definition bond_step (kq : vec3) (i j : nat) (D : cmat) : result cmat :=
  bi ← from_opt IndexError (basis !! i);
  p ← from_opt IndexError (nn !! i ≫= (.!! j));
  ka ← from_opt IndexError (label !! i ≫= (.!! j));
  mi ← from_opt IndexError (mass !! i);
  mka ← from_opt IndexError (mass !! ka);
  T ← from_opt IndexError (fc !! i ≫= (.!! j));
  let x := vsub bi p in
  let mass_root := sqrt (mi * mka) in
  let D1 := block_sub D (i * 3) (i * 3) (mdiv T mi) in
  Ok (block_add D1 (i * 3) (ka * 3) (mdiv T mass_root)
                (cexp (Cscale minus_j (vdot kq x)))).

(** Lines 111-118. *)
Definition atom_step (kq : vec3) (i : nat) (D : cmat) : result cmat :=
  nni ← from_opt IndexError (nn !! i);
  for_each (bond_step kq i) (seq 0 (length nni)) D.

(** Lines 110-118 for one k-point. *)
Definition dyn_at (kq : vec3) : result cmat :=
  for_each (atom_step kq) (seq 0 (length mass)) czeros.

(** Line 108. *)
Definition to_cartesian (crys : bool) (k : vec3) : vec3 :=
  if crys then vscale (vscale (mat_vec bvec k) 2) PI
  else vscale (vscale k 2) PI.

Definition DynBuild (kpts : kpts_arg) (crys : bool) : result (list cmat) :=
  let kpts := kpts_array kpts in
  if negb (length basis =? length mass)%nat then Raise AssertionError
  else
    dyn ← mapM (fun k => dyn_at (to_cartesian crys k)) kpts;
    Ok ((fun (D : cmat) r c => Cscale (D r c) M_THZ) <$> dyn).

End DynBuild.

(** ** DynBuild in closed form *)

Definition Csum (l : list C) : C := foldr Cadd C0 l.

Module DynSpec.

Section Closed.
Variables (basis : list vec3) (mass : list R)
          (fc : list (list mat3)) (nn : list (list vec3))
          (label : list (list nat)).

Definition pos (i j : nat) : vec3 := (nn !!! i) !!! j.
Definition owner (i j : nat) : nat := (label !!! i) !!! j.
Definition tensor (i j : nat) : mat3 := (fc !!! i) !!! j.
(** The bond vector [x = pos(i) - pos(neighbour)]. *)
Definition bond (i j : nat) : vec3 := vsub (basis !!! i) (pos i j).
Definition shell (i : nat) : list nat := seq 0 (length (nn !!! i)).

(** The phase [exp(-i k.x)]. *)
Definition phase (kq x : vec3) : C := mkC (cos (vdot kq x)) (- sin (vdot kq x)).

(** What the bond [(i,j)] puts at row [r], column [c]: minus the bare
    tensor over [mass(i)] in the diagonal block [(i,i)], and the tensor
    over [sqrt(mass(i) mass(ka))] times the phase in the block [(i,ka)]. *)
Definition bond_contribution (kq : vec3) (i j r c : nat) : C :=
  let T := tensor i j in
  let ka := owner i j in
  Cadd
    (if in_block (i * 3) (i * 3) r c
     then mkC (- (mget T (r - i * 3) (c - i * 3) / mass !!! i)) 0
     else C0)
    (if in_block (i * 3) (ka * 3) r c
     then Cscale (phase kq (bond i j))
                 (mget T (r - i * 3) (c - ka * 3) / sqrt (mass !!! i * mass !!! ka))
     else C0).

(** The entry before the final scaling: the sum over all bonds. *)
Definition dyn_entry (kq : vec3) (r c : nat) : C :=
  Csum ((fun i => Csum ((fun j => bond_contribution kq i j r c) <$> shell i))
          <$> seq 0 (length mass)).

(** The entry in block coordinates: row [3 i + a], column [3 k + b]. *)
Definition block_entry (kq : vec3) (i k a b : nat) : C :=
  Cadd
    (if (i =? k)%nat
     then mkC (- fold_right Rplus 0
                   ((fun j => mget (tensor i j) a b / mass !!! i) <$> shell i)) 0
     else C0)
    (Csum ((fun j =>
              if (owner i j =? k)%nat
              then Cscale (phase kq (bond i j))
                          (mget (tensor i j) a b / sqrt (mass !!! i * mass !!! k))
              else C0) <$> shell i)).

(** The bonds from atom [i] to images of atom [k]: bond vector and tensor. *)
Definition bonds_to (i k : nat) : list (vec3 * mat3) :=
  omap (fun j => if (owner i j =? k)%nat then Some (bond i j, tensor i j) else None)
       (shell i).

(** The same bond seen from its other end. *)
Definition reversed (xt : vec3 * mat3) : vec3 * mat3 :=
  (vopp (fst xt), mtranspose (snd xt)).

(** Every bond from [i] to [k] is matched by a bond from [k] to [i] with
    the opposite bond vector and the transposed tensor. *)
Definition bond_symmetric : Prop :=
  forall i k, (i < length mass)%nat -> (k < length mass)%nat ->
    Permutation (bonds_to i k) (reversed <$> bonds_to k i).

(** The sum of the tensors of the bonds of each atom is symmetric. *)
Definition onsite_symmetric : Prop :=
  forall i a b, (i < length mass)%nat -> (a < 3)%nat -> (b < 3)%nat ->
    fold_right Rplus 0 ((fun j => mget (tensor i j) a b) <$> shell i) =
    fold_right Rplus 0 ((fun j => mget (tensor i j) b a) <$> shell i).

(** The arrays have the shapes the loops index. *)
Definition well_formed : Prop :=
  length basis = length mass /\
  forall i, (i < length mass)%nat ->
    exists nni li fi,
      nn !! i = Some nni /\ label !! i = Some li /\ fc !! i = Some fi /\
      forall j, (j < length nni)%nat ->
        exists ka T, li !! j = Some ka /\ fi !! j = Some T /\ (ka < length mass)%nat.

End Closed.

End DynSpec.

(** A square complex matrix of size [n] is Hermitian. *)
Definition hermitian (n : nat) (D : cmat) : Prop :=
  forall r c, (r < n)%nat -> (c < n)%nat -> D r c = Cconj (D c r).

(** A real vector of size [n], by its index function, and the product of a
    complex matrix with it. *)
Definition rvec : Type := nat -> R.

Definition cmat_vec (n : nat) (D : cmat) (v : rvec) (r : nat) : C :=
  Csum ((fun c => Cscale (D r c) (v c)) <$> seq 0 n).

(** [v] is in the null space of [D]: an eigenvector of eigenvalue zero,
    when it is not the zero vector. *)
Definition in_kernel (n : nat) (D : cmat) (v : rvec) : Prop :=
  forall r, (r < n)%nat -> cmat_vec n D v r = C0.

(** The linear combination of the vectors [vs] with coefficients [cs]. *)
Definition lin_comb (cs : list R) (vs : list rvec) : rvec :=
  fun r => fold_right Rplus 0 (zip_with (fun c (v : rvec) => c * v r) cs vs).

Definition lin_indep (n : nat) (vs : list rvec) : Prop :=
  forall cs, length cs = length vs ->
    (forall r, (r < n)%nat -> lin_comb cs vs r = 0) -> Forall (fun c => c = 0) cs.

(** The rigid translation along axis [b], weighted by the square roots of
    the masses. *)
Definition translation (mass : list R) (b : nat) : rvec :=
  fun r => if (r mod 3 =? b)%nat then sqrt (mass !!! (r / 3)%nat) else 0.

(** ** Sorting floats *)

Fixpoint insert_sorted (x : R) (l : list R) : list R :=
  match l with
  | [] => [x]
  | y :: l' => if Rle_dec x y then x :: l else y :: insert_sorted x l'
  end.

(** [np.sort] of a one-dimensional array: the values in ascending order. *)
Definition sort (l : list R) : list R := foldr insert_sorted [] l.

(** What [argsort] promises: the indices of the array, each once, in an
    order that makes the values ascend.  The order among equal values is
    not specified (the default sort of numpy is not stable). *)
Definition argsort_spec (argsort : list R -> list nat) : Prop :=
  forall dist : list R,
    Permutation (argsort dist) (seq 0 (length dist)) /\
    forall p q, (p <= q)%nat -> (q < length dist)%nat ->
      dist !!! (argsort dist !!! p) <= dist !!! (argsort dist !!! q).

(** One argsort: insertion of the indices, in order, before the first
    index that holds a larger value. *)
Fixpoint insert_index (dist : list R) (i : nat) (l : list nat) : list nat :=
  match l with
  | [] => [i]
  | j :: l' =>
      if Rlt_dec (dist !!! i) (dist !!! j) then i :: l
      else j :: insert_index dist i l'
  end.

(** The order of two indices by the values they hold. *)
Definition key_le (dist : list R) (a b : nat) : Prop := dist !!! a <= dist !!! b.

Definition stable_argsort (dist : list R) : list nat :=
  foldl (fun l i => insert_index dist i l) [] (seq 0 (length dist)).

(** ** The class ABCM (abcm.py, lines 122-811) *)

Module ABCM.

(** The bound method [ecalc.get_dyn(mass, kpts, crys)] of the Ewald
    object, a class of the module [ewald], which is not part of the
    sources. *)
Definition ewald_get_dyn : Type := list R -> list vec3 -> bool -> list cmat.

(** The attributes of an instance.  [kpts = []] and [fc = []] are the
    empty Python lists of [__init__], "not set yet".  The attribute
    [evec], which [get_ph_disp] writes and no method modelled here reads,
    is not part of the record. *)
Record state : Type := State {
  lvec : mat3;
  bas : list vec3;
  mass : list R;
  symbol : list string;
  fc : list (list mat3);
  kpts : list vec3;
  iskcrys : bool;
  nkpt : nat;
  dyn : list cmat;
  bvec : mat3;
  nn : list (list vec3);
  label : list (list nat);
  nndist : list (list R);
  nnsymb : list (list string);
  n1 : list nat;
  n2 : option (list Z);
  ecalc : option ewald_get_dyn;
  eps : R;
  src_freq : list (list R);
  freq : list (list R)
}.

Definition with_fc (st : state) (v : list (list mat3)) : state :=
  State (lvec st) (bas st) (mass st) (symbol st) v (kpts st) (iskcrys st)
        (nkpt st) (dyn st) (bvec st) (nn st) (label st) (nndist st) (nnsymb st)
        (n1 st) (n2 st) (ecalc st) (eps st) (src_freq st) (freq st).

Definition with_kpts (st : state) (ks : list vec3) (crys : bool) (n : nat) : state :=
  State (lvec st) (bas st) (mass st) (symbol st) (fc st) ks crys
        n (dyn st) (bvec st) (nn st) (label st) (nndist st) (nnsymb st)
        (n1 st) (n2 st) (ecalc st) (eps st) (src_freq st) (freq st).

Definition with_dyn (st : state) (d : list cmat) : state :=
  State (lvec st) (bas st) (mass st) (symbol st) (fc st) (kpts st) (iskcrys st)
        (nkpt st) d (bvec st) (nn st) (label st) (nndist st) (nnsymb st)
        (n1 st) (n2 st) (ecalc st) (eps st) (src_freq st) (freq st).

Definition with_freq (st : state) (f : list (list R)) : state :=
  State (lvec st) (bas st) (mass st) (symbol st) (fc st) (kpts st) (iskcrys st)
        (nkpt st) (dyn st) (bvec st) (nn st) (label st) (nndist st) (nnsymb st)
        (n1 st) (n2 st) (ecalc st) (eps st) (src_freq st) f.

Definition with_src_freq (st : state) (f : list (list R)) : state :=
  State (lvec st) (bas st) (mass st) (symbol st) (fc st) (kpts st) (iskcrys st)
        (nkpt st) (dyn st) (bvec st) (nn st) (label st) (nndist st) (nnsymb st)
        (n1 st) (n2 st) (ecalc st) (eps st) f (freq st).

Definition with_nn (st : state) (nn' : list (list vec3)) (label' : list (list nat))
    (nndist' : list (list R)) (nnsymb' : list (list string))
    (n2' : option (list Z)) : state :=
  State (lvec st) (bas st) (mass st) (symbol st) (fc st) (kpts st) (iskcrys st)
        (nkpt st) (dyn st) (bvec st) nn' label' nndist' nnsymb'
        (n1 st) n2' (ecalc st) (eps st) (src_freq st) (freq st).

(** *** set_nn (lines 185-235) *)

(** [range(-X, X+1)], as floats. *)
Definition irange (X : nat) : list R :=
  (fun t => IZR (Z.of_nat t - Z.of_nat X)) <$> seq 0 (2 * X + 1).

(** [np.mgrid[-X:X+1, -Y:Y+1, -Z:Z+1]], flattened: the last axis runs
    fastest. *)
Definition mgrid (X Y Z : nat) : list vec3 :=
  x ← irange X; y ← irange Y; z ← irange Z; [V3 x y z].

Definition rgrid (st : state) (scope : nat * nat * nat) : list vec3 :=
  let '(X, Y, Z) := scope in mat_vec (lvec st) <$> mgrid X Y Z.

(** Lines 208-211: the images of every basis atom, atom after atom. *)
Definition allatoms (st : state) (scope : nat * nat * nat) : list vec3 :=
  item ← bas st; (fun r => vadd item r) <$> rgrid st scope.

Section Neighbours.
(** [ndarray.argsort]. *)
Variable argsort : list R -> list nat.

(** Lines 214-226 for the basis atom at [b]: the indices of its shell. *)
Definition first_nn_ind (all : list vec3) (b : vec3) (nmax : nat)
    (dist2 : option R) : list R * list nat :=
  let dist := (fun item => norm (vsub b item)) <$> all in
  let nn_ind := take (nmax - 1) (drop 1 (argsort dist)) in
  let first :=
    match dist2 with
    | None =>
        filter (fun item =>
                  Rltb (Rabs (dist !!! item - dist !!! (nn_ind !!! 0%nat))) 1e-4 = true)
               nn_ind
    | Some d2 => filter (fun item => Rleb (dist !!! item) d2 = true) nn_ind
    end in
  (dist, first).

Definition set_nn (st : state) (scope : nat * nat * nat) (nmax : nat)
    (dist2 : option R) : result state :=
  let rg := rgrid st scope in
  let all := allatoms st scope in
  let shells := (fun b => first_nn_ind all b nmax dist2) <$> bas st in
  let label' := (fun s => (fun ind => ind / length rg)%nat <$> snd s) <$> shells in
  let nn' := (fun s => (fun ind => all !!! ind) <$> snd s) <$> shells in
  let nndist' := (fun s => (fun ind => fst s !!! ind) <$> snd s) <$> shells in
  nnsymb' ← mapM (fun l => mapM (fun k => from_opt IndexError (symbol st !! k)) l) label';
  n2' ← match dist2 with
        | Some d2 =>
            if Rltb 0 d2 || Rltb d2 0 then
              v ← mapM (fun i =>
                     nni ← from_opt IndexError (nn' !! i);
                     k ← from_opt IndexError (n1 st !! i);
                     Ok (Z.of_nat (length nni) - Z.of_nat k)%Z)
                   (seq 0 (length (bas st)));
              Ok (Some v)
            else Ok (n2 st)
        | None => Ok (n2 st)
        end;
  Ok (with_nn st nn' label' nndist' nnsymb' n2').

End Neighbours.

(** *** Setting the force constants (lines 237-357) *)

Section ForceConstants.

(** The call [ConstructFC(alpha, beta, nn, atom)] of lines 249 and 341.
    [ConstructFC] has six positional parameters, [alpha, beta, nn, atom,
    nnlab, isBC], none with a default: the call raises [TypeError] whatever
    the four arguments are, after they have been evaluated. *)
Definition ConstructFC_four_arguments (alpha : list R) (beta : list (list R))
    (nn : list vec3) (atom : vec3) : result (list mat3) :=
  Raise (TypeError "ConstructFC() takes exactly 6 arguments (4 given)").

(** Lines 245-250. *)
Definition set_bulk_fc (st : state) (alpha beta : R) : result state :=
  fc' ← mapM (fun i =>
            nni ← from_opt IndexError (nn st !! i);
            let N := length nni in
            let b := replicate N beta in
            let bb := replicate N b in
            bi ← from_opt IndexError (bas st !! i);
            ConstructFC_four_arguments (replicate N alpha) bb nni bi)
         (seq 0 (length (bas st)));
  Ok (with_fc st fc').

(** Lines 303-308, and again 319-330: the key under which a bond is
    found, or the exception. *)
Definition has_key (d : gmap string R) (key : string) : bool :=
  bool_decide (is_Some (d !! key)).

Definition resolve (d : gmap string R) (key1 key2 : string) : result string :=
  if has_key d key1 then Ok key1
  else if has_key d key2 then Ok key2
  else Raise (ValueError ("Missing interaction: " +:+ key1)).

Definition dict_get (d : gmap string R) (key : string) : result R :=
  from_opt (KeyError key) (d !! key).

(** The key [a-b], with the mark of the second shell when [j >= n1[i]]. *)
Definition bond_key (a b : string) (j nfirst : nat) : string :=
  let key := a +:+ "-" +:+ b in
  if (nfirst <=? j)%nat then key +:+ "2" else key.

(** Lines 310-337: the row [bet[j]]. *)
Definition bending_row (b_dict : gmap string R) (onsite : string)
    (offsite : list string) (nfirst j : nat) (key1 key2 : string) : result (list R) :=
  mapM (fun k =>
          if negb (k =? j)%nat then
            off_k ← from_opt IndexError (offsite !! k);
            let key3 := bond_key onsite off_k j nfirst in
            let key4 := bond_key off_k onsite j nfirst in
            key_b ← resolve b_dict key3 key4;
            key_a ← resolve b_dict key1 key2;
            if ((j <? nfirst)%nat && (j <? nfirst)%nat)
               || ((nfirst <=? j)%nat && (nfirst <=? j)%nat)
            then
              vb ← dict_get b_dict key_b;
              va ← dict_get b_dict key_a;
              Ok ((vb + va) * 0.5)
            else Ok 0
          else Ok 0)
       (seq 0 (length offsite)).

(** Lines 297-339 for one neighbour [j]: [alp[j]] and [bet[j]]. *)
Definition bond_coefficients (st : state) (a_dict b_dict : gmap string R)
    (i : nat) (onsite : string) (offsite : list string) (j : nat)
  : result (R * list R) :=
  off_j ← from_opt IndexError (offsite !! j);
  nfirst ← from_opt IndexError (n1 st !! i);
  let key1 := bond_key onsite off_j j nfirst in
  let key2 := bond_key off_j onsite j nfirst in
  key ← resolve a_dict key1 key2;
  a ← dict_get a_dict key;
  row ← bending_row b_dict onsite offsite nfirst j key1 key2;
  Ok (a, row).

(** Lines 292-342 for one basis atom. *)
Definition sl_tensors (st : state) (a_dict b_dict : gmap string R) (i : nat)
  : result (list mat3) :=
  onsite ← from_opt IndexError (symbol st !! i);
  offsite ← from_opt IndexError (nnsymb st !! i);
  coeffs ← mapM (bond_coefficients st a_dict b_dict i onsite offsite)
                (seq 0 (length offsite));
  nni ← from_opt IndexError (nn st !! i);
  bi ← from_opt IndexError (bas st !! i);
  ConstructFC_four_arguments (fst <$> coeffs) (snd <$> coeffs) nni bi.

(** [fc[i][j] = v]. *)
Definition set_tensor (i j : nat) (v : mat3) (fc : list (list mat3))
  : list (list mat3) :=
  alter (fun row => <[j := v]> row) i fc.

(** Lines 352-357. *)
Definition average_step (st : state) (i j o : nat) (bond0 : vec3) (k : nat)
    (fc : list (list mat3)) : result (list (list mat3)) :=
  bo ← from_opt IndexError (bas st !! o);
  q ← from_opt IndexError (nn st !! o ≫= (.!! k));
  let bond1 := vsub bo q in
  if Rltb (norm (cross bond0 bond1)) 1e-3 then
    Tij ← from_opt IndexError (fc !! i ≫= (.!! j));
    Tok ← from_opt IndexError (fc !! o ≫= (.!! k));
    let tmp := mscale (madd Tij (mtranspose Tok)) 0.5 in
    Ok (set_tensor o k (mtranspose tmp) (set_tensor i j tmp fc))
  else Ok fc.

(** Lines 349-357. *)
Definition bond_fix (st : state) (i j : nat) (fc : list (list mat3))
  : result (list (list mat3)) :=
  bi ← from_opt IndexError (bas st !! i);
  p ← from_opt IndexError (nn st !! i ≫= (.!! j));
  let bond0 := vsub bi p in
  offsiteLabel ← from_opt IndexError (label st !! i ≫= (.!! j));
  nno ← from_opt IndexError (nn st !! offsiteLabel);
  for_each (average_step st i j offsiteLabel bond0) (seq 0 (length nno)) fc.

(** Lines 345-357. *)
Definition fix_interface (st : state) : result state :=
  fc' ← for_each (fun i fc =>
                    nni ← from_opt IndexError (nn st !! i);
                    for_each (bond_fix st i) (seq 0 (length nni)) fc)
                 (seq 0 (length (bas st))) (fc st);
  Ok (with_fc st fc').

(** Lines 288-343.  [fc_dict] maps ["alpha"] and ["beta"] to the two
    dictionaries. *)
Definition set_sl_fc (st : state) (fc_dict : gmap string (gmap string R))
  : result state :=
  a_dict ← from_opt (KeyError "alpha") (fc_dict !! "alpha"%string);
  b_dict ← from_opt (KeyError "beta") (fc_dict !! "beta"%string);
  fc' ← mapM (sl_tensors st a_dict b_dict) (seq 0 (length (bas st)));
  fix_interface (with_fc st fc').

End ForceConstants.

(** *** k-points (lines 359-399) *)

Definition set_kpts (st : state) (k : kpts_arg) (crys : bool) : result state :=
  match k with
  | OneK k => Ok (with_kpts st [k] crys 1)
  | ManyK [] => Raise (ValueError "Wrong kpts dimension!")
  | ManyK ks => Ok (with_kpts st ks crys (length ks))
  end.

Definition k_conv (st : state) (towhat : option string) : result state :=
  match kpts st with
  | [] => Raise (ValueError "You have not set kpoints yet!")
  | _ =>
      conv ← (if bool_decide (towhat = Some "crys"%string)
                 || bool_decide (towhat = Some "CRYS"%string)
              then Ok (true, lvec st)
              else if bool_decide (towhat = Some "cart"%string)
                      || bool_decide (towhat = Some "CART"%string)
              then Ok (false, bvec st)
              else Raise (NameError "convec"));
      let '(iskcrys', convec) := conv in
      Ok (with_kpts st (mat_vec convec <$> kpts st) iskcrys' (nkpt st))
  end.

(** *** Dispersion and the objective of the fit (lines 401-432, 678-726) *)

Section Dispersion.
Variable M_THZ : R.
(** [EigenSolver(dyn, fldata=None)] of the module [commonfunc], which is
    not part of the sources: the frequencies of every k-point, from the
    stack of matrices of shape [(nkpt, n, n)].  The eigenvectors it also
    returns are not read by the code modelled here. *)
Variable EigenSolver : nat -> list cmat -> list (list R).

(** [__set_dyn], lines 405-410. *)
Definition set_dyn (st : state) : result state :=
  match fc st, kpts st with
  | [], _ => Raise (ValueError "Force constants not set yet!")
  | _, [] => Raise (ValueError "Kpts not set yet!")
  | _, _ =>
      d ← DynBuild M_THZ (bas st) (mass st) (bvec st) (fc st) (nn st) (label st)
             (ManyK (kpts st)) (iskcrys st);
      Ok (with_dyn st d)
  end.

(** Lines 428-432. *)
Definition get_ph_disp (st : state) : result (state * list (list R)) :=
  st1 ← set_dyn st;
  let st2 :=
    match ecalc st1 with
    | Some get_dyn =>
        with_dyn st1
          (zip_with (fun (D E : cmat) r c => Cadd (D r c) (Cscale (E r c) (eps st1)))
                    (dyn st1) (get_dyn (mass st1) (kpts st1) (iskcrys st1)))
    | None => st1
    end in
  let f := EigenSolver (3 * length (mass st2)) (dyn st2) in
  Ok (with_freq st2 f, f).

(** [(x ** 2).sum()] over a two-dimensional array. *)
Definition sum_sq (d : list (list R)) : R :=
  fold_right Rplus 0 ((fun row => fold_right Rplus 0 ((fun x => x ^ 2) <$> row)) <$> d).

Definition same_shape (f s : list (list R)) : bool :=
  (length f =? length s)%nat &&
  forallb (fun p => (length (fst p) =? length (snd p))%nat) (zip f s).

(** Line 726: [((freq-self.src_freq)**2).sum()/len(freq)], for two arrays
    of one shape. *)
Definition objective (f s : list (list R)) : result R :=
  if same_shape f s then
    Ok (sum_sq (zip_with (zip_with Rminus) f s) / INR (length f))
  else Raise (ValueError "operands could not be broadcast together").

(** [__fit_no_ewald], lines 721-726. *)
Definition fit_no_ewald (st : state) (ab0 : list R) : result (state * R) :=
  match Rabs <$> ab0 with
  | [a0; b0] =>
      st1 ← set_bulk_fc st a0 b0;
      r ← get_ph_disp st1;
      let '(st2, f) := r in
      let f := sort <$> f in
      v ← objective f (src_freq st2);
      Ok (st2, v)
  | _ => Raise (ValueError "need 2 values to unpack")
  end.

(** [fit_freq], lines 697-699: what is set before the minimizer is
    called. *)
Definition fit_freq_setup (st : state) (src : list (list R)) (k : kpts_arg)
    (crys : bool) : result state :=
  st1 ← set_kpts st k crys;
  let st2 := with_src_freq st1 (sort <$> src) in
  if (length (src_freq st2) =? nkpt st2)%nat then Ok st2
  else Raise AssertionError.

End Dispersion.

End ABCM.

(** ** The lookups of set_sl_fc *)

Module Lookups.

(** A lookup: the dictionary it reads ([true] for the stretching
    dictionary, [false] for the bending one), the key and the reversed
    key. *)
Definition lookup : Type := bool * (string * string).

(** Neither ordering of the key is in the dictionary. *)
Definition unresolved (d : gmap string R) (keys : string * string) : Prop :=
  d !! keys.1 = None /\ d !! keys.2 = None.

Definition missing (a_dict b_dict : gmap string R) (l : lookup) : Prop :=
  unresolved (if l.1 then a_dict else b_dict) l.2.

(** The message of the exception for the key [key]. *)
Definition MissingInteraction (key : string) : exn :=
  ValueError ("Missing interaction: " +:+ key).

(** The lookups in the bending dictionary for the row of neighbour [j]:
    for every other neighbour [k], the key of [k] and the key of [j]. *)
Definition row_lookups (onsite : string) (offsite : list string)
    (nfirst j : nat) (ks : list nat) : list (string * string) :=
  k ← ks;
  if (k =? j)%nat then []
  else [(ABCM.bond_key onsite (offsite !!! k) j nfirst,
         ABCM.bond_key (offsite !!! k) onsite j nfirst);
        (ABCM.bond_key onsite (offsite !!! j) j nfirst,
         ABCM.bond_key (offsite !!! j) onsite j nfirst)].

(** The lookups for neighbour [j]: its key in the stretching dictionary,
    then the lookups of its row. *)
Definition bond_lookups (onsite : string) (offsite : list string)
    (nfirst j : nat) : list lookup :=
  (true, (ABCM.bond_key onsite (offsite !!! j) j nfirst,
          ABCM.bond_key (offsite !!! j) onsite j nfirst))
  :: ((fun keys => (false, keys))
        <$> row_lookups onsite offsite nfirst j (seq 0 (length offsite))).

(** The lookups the scan of basis atom [i] requires, in order. *)
Definition atom_lookups (st : ABCM.state) (i : nat) : list lookup :=
  let onsite := ABCM.symbol st !!! i in
  let offsite := ABCM.nnsymb st !!! i in
  let nfirst := ABCM.n1 st !!! i in
  j ← seq 0 (length offsite); bond_lookups onsite offsite nfirst j.

(** What a scan that can raise returns: either it went through and every
    lookup in [ls] was resolved, or it raised the exception that names an
    unresolved lookup of [ls]. *)
Definition scanned {A : Type} (a_dict b_dict : gmap string R) (ls : list lookup)
    (r : result A) : Prop :=
  match r with
  | Ok _ => Forall (fun l => ~ missing a_dict b_dict l) ls
  | Raise e => exists l, l ∈ ls /\ missing a_dict b_dict l /\
                         e = MissingInteraction l.2.1
  end.

End Lookups.

(** ** Inputs of the examples *)

Module Examples.

(** A site with one neighbour at distance one along the first axis. *)
Definition origin : vec3 := V3 0 0 0.
Definition unit_x : vec3 := V3 1 0 0.
(** A second neighbour, at distance one from [unit_x]. *)
Definition corner : vec3 := V3 1 1 0.


(** A single atom with one neighbour, an image of itself. *)
Definition self_bonded_nn : list (list vec3) := [[unit_x]].
Definition self_bonded_label : list (list nat) := [[0%nat]].

(** The identity matrix. *)
Definition identity : mat3 := mat3_of (fun a b => if (a =? b)%nat then 1 else 0).

(** A chain of two atoms along the first axis, at [0] and [1/2] in a cubic
    cell of side one: each atom has two neighbours, the two images of the
    other atom at distance [1/2]. *)
Definition chain_basis : list vec3 := [V3 0 0 0; V3 (1/2) 0 0].
Definition chain_nn : list (list vec3) :=
  [[V3 (1/2) 0 0; V3 (-1/2) 0 0]; [V3 0 0 0; V3 1 0 0]].
Definition chain_label : list (list nat) := [[1; 1]; [0; 0]]%nat.

(** The tensor [c e_x e_x^T]. *)
Definition along_x (c : R) : mat3 :=
  mat3_of (fun a b => if (a =? 0)%nat && (b =? 0)%nat then c else 0).

(** The same tensor on every bond of the chain. *)
Definition uniform_fc (c : R) : list (list mat3) :=
  [[along_x c; along_x c]; [along_x c; along_x c]].

(** A tensor stack that gives the bond between the two atoms of the chain
    one tensor at one end and another at the other end. *)
Definition lopsided_fc : list (list mat3) :=
  [[along_x (-8); along_x (-8)]; [along_x (-16); along_x (-16)]].


(** The chain as a model: two species, no force constants or k-points set
    yet, no long-range term. *)
Definition chain : ABCM.state :=
  ABCM.State identity chain_basis [1; 1] ["A"; "B"]%string [] [] true 0 []
    identity chain_nn chain_label [[1/2; 1/2]; [1/2; 1/2]]
    [["B"; "B"]; ["A"; "A"]]%string [2; 2]%nat None None 0 [] [].

(** A model whose lattice vectors have length two, with one k-point set,
    in crystal coordinates. *)
Definition doubled : ABCM.state :=
  ABCM.State (mat3_of (fun a b => if (a =? b)%nat then 2 else 0))
    [origin] [1] ["X"]%string [] [unit_x] true 1 []
    (mat3_of (fun a b => if (a =? b)%nat then 1/2 else 0))
    [] [] [] [] [] None None 0 [] [].

(** The model [doubled] with its atom bonded to one image of itself and
    a tensor on the bond. *)
Definition doubled_bonded : ABCM.state :=
  ABCM.State (mat3_of (fun a b => if (a =? b)%nat then 2 else 0))
    [origin] [1] ["X"]%string [[identity]] [unit_x] true 1 []
    (mat3_of (fun a b => if (a =? b)%nat then 1/2 else 0))
    self_bonded_nn self_bonded_label [[1]] [["X"]]%string [1%nat]
    None None 0 [] [].

(** The simple cubic lattice with one atom and lattice constant one, as
    [__init__] leaves it before it calls [set_nn]. *)
Definition cubic : ABCM.state :=
  ABCM.State identity [origin] [1] ["X"]%string [] [] true 0 []
    identity [] [] [] [] [] None None 0 [] [].

(** The squared distances from the atom to its 27 images in the search
    lattice of scope [1,1,1], in the order of [allatoms]. *)
Definition sq_dists : list nat :=
  [3; 2; 3; 2; 1; 2; 3; 2; 3;
   2; 1; 2; 1; 0; 1; 2; 1; 2;
   3; 2; 3; 2; 1; 2; 3; 2; 3]%nat.

Definition shell_len (c : nat) : R := sqrt (INR c).

(** Two dictionaries without any interaction. *)
Definition no_interaction : gmap string (gmap string R) :=
  <["alpha"%string := ∅]> (<["beta"%string := ∅]> ∅).

(** A single atom bonded to one image of itself, with the k-point
    [(0,0,0)] set, the target frequencies [1, 1, 1] and no long-range
    term. *)
Definition lone : ABCM.state :=
  ABCM.State identity [origin] [1] ["X"]%string [] [origin] true 1 []
    identity self_bonded_nn self_bonded_label [[1]] [["X"]]%string [1%nat]
    None None 0 [[1; 1; 1]] [].

(** An eigen-solver that reports zero for every frequency; that is the
    spectrum of the zero matrix. *)
Definition zero_solver (n : nat) (dyn : list cmat) : list (list R) :=
  (fun _ => replicate n 0) <$> dyn.

(** A chain of three species along the first axis, at [0], [1/3] and
    [2/3] in a cubic cell of side one.  Each atom has two neighbours at
    distance [1/3]: atom A the atom B at [1/3] and the image of C at
    [-1/3], atom B the atoms A and C, atom C the atom B and the image of A
    at [1]. *)
Definition abc : ABCM.state :=
  ABCM.State identity [V3 0 0 0; V3 (1/3) 0 0; V3 (2/3) 0 0] [1; 1; 1]
    ["A"; "B"; "C"]%string [] [] true 0 [] identity
    [[V3 (1/3) 0 0; V3 (-1/3) 0 0]; [V3 0 0 0; V3 (2/3) 0 0]; [V3 (1/3) 0 0; V3 1 0 0]]
    [[1; 2]; [0; 2]; [1; 0]]%nat
    [[1/3; 1/3]; [1/3; 1/3]; [1/3; 1/3]]
    [["B"; "C"]; ["A"; "C"]; ["B"; "A"]]%string [2; 2; 2]%nat
    None None 0 [] [].

(** The force constants of the three bonds of the chain, by symbol pair. *)
Definition abc_dict (ab ac bc : R) : gmap string R :=
  <["A-B"%string := ab]> (<["A-C"%string := ac]> (<["B-C"%string := bc]> ∅)).

Definition abc_fc_dict (ab ac bc : R) : gmap string (gmap string R) :=
  <["alpha"%string := abc_dict ab ac bc]> (<["beta"%string := abc_dict 0 0 0]> ∅).

(** Dictionaries for the chain of three species that hold the bonds A-B
    and A-C and lack the bond B-C: every key of atom A is found, the bond
    of atom B to atom C is found under neither ordering. *)
Definition partial_dict : gmap string R :=
  <["A-B"%string := 1]> (<["A-C"%string := 2]> ∅).

Definition partial_fc_dict : gmap string (gmap string R) :=
  <["alpha"%string := partial_dict]> (<["beta"%string := partial_dict]> ∅).

(** The tensors of the chain when the bonds A-B, A-C and B-C carry
    [u e_x e_x^T], [v e_x e_x^T] and [w e_x e_x^T]: the same tensor at
    both ends of every bond. *)
Definition abc_fc (u v w : R) : list (list mat3) :=
  [[along_x u; along_x v]; [along_x u; along_x w]; [along_x w; along_x v]].

(** The unit vector of index [c0]. *)
Definition unit_vec (c0 : nat) : rvec := fun r => if (r =? c0)%nat then 1 else 0.

End Examples.

(** ** Consistent neighbour arrays *)

Module Shapes.

(** The arrays [nn] and [label] have one row for every basis atom, the
    two rows of an atom have one length, and every label names a basis
    atom. *)
Definition neighbours_consistent (st : ABCM.state) : Prop :=
  length (ABCM.nn st) = length (ABCM.bas st) /\
  length (ABCM.label st) = length (ABCM.bas st) /\
  forall i nni li, ABCM.nn st !! i = Some nni -> ABCM.label st !! i = Some li ->
    length li = length nni /\
    Forall (fun ka => ka < length (ABCM.bas st))%nat li.

End Shapes.

Module Interface.

(** The stack of tensors has the shape of the neighbour arrays. *)
Definition tensors_consistent (st : ABCM.state) : Prop :=
  length (ABCM.fc st) = length (ABCM.bas st) /\
  forall i nni fi, ABCM.nn st !! i = Some nni -> ABCM.fc st !! i = Some fi ->
    length fi = length nni.

(** The test of [__fix_interface] (line 354): neighbour [k] of the
    atom [o] that owns neighbour [j] of atom [i] lies on a bond parallel
    to the bond [(i,j)]. *)
Definition matched (st : ABCM.state) (i j o k : nat) : Prop :=
  exists bi p bo q,
    ABCM.bas st !! i = Some bi /\ ABCM.nn st !! i ≫= (.!! j) = Some p /\
    ABCM.label st !! i ≫= (.!! j) = Some o /\
    ABCM.bas st !! o = Some bo /\ ABCM.nn st !! o ≫= (.!! k) = Some q /\
    norm (cross (vsub bi p) (vsub bo q)) < 1e-3.

(** Every pair of bonds the test matches carries mutually transposed
    tensors. *)
Definition matched_symmetric (st : ABCM.state) : Prop :=
  forall i j o k Tij Tok, matched st i j o k ->
    ABCM.fc st !! i ≫= (.!! j) = Some Tij ->
    ABCM.fc st !! o ≫= (.!! k) = Some Tok ->
    Tij = mtranspose Tok.

End Interface.

(** ** get_group_v (abcm.py, lines 598-632) *)

Module GroupVelocity.

(** Lines 611-619: the offset [dk] along the axis [direction] names. *)
Definition direction_dk (direction : string) : result vec3 :=
  if bool_decide (direction = "x"%string) || bool_decide (direction = "X"%string)
  then Ok (V3 1e-2 0 0)
  else if bool_decide (direction = "y"%string) || bool_decide (direction = "Y"%string)
  then Ok (V3 0 1e-2 0)
  else if bool_decide (direction = "z"%string) || bool_decide (direction = "Z"%string)
  then Ok (V3 0 0 1e-2)
  else Raise (ValueError "Wrong direction!").

(** Lines 611-622: the offset the caller gave, a list of three floats,
    or the one of the direction. *)
Definition offset (direction : string) (dk : option (list R)) : result vec3 :=
  match dk with
  | None => direction_dk direction
  | Some [a; b; c] => Ok (V3 a b c)
  | Some _ => Raise AssertionError
  end.

Section GroupVelocity.
Variable M_THZ : R.
Variable EigenSolver : nat -> list cmat -> list (list R).

(** Lines 611-632.  The difference [freq1 - freq0] is taken between two
    arrays of one shape. *)
Definition get_group_v (st : ABCM.state) (kpts : kpts_arg) (direction : string)
    (crys : bool) (dk : option (list R))
  : result (ABCM.state * list (list R)) :=
  dk ← offset direction dk;
  st1 ← ABCM.set_kpts st kpts crys;
  st2 ← ABCM.k_conv st1 (Some "cart"%string);
  let ks := ABCM.kpts st2 in
  st3 ← ABCM.set_kpts st2 (ManyK ((fun k => vadd k dk) <$> ks)) false;
  r1 ← ABCM.get_ph_disp M_THZ EigenSolver st3;
  let '(st4, f1) := r1 in
  let freq1 := sort <$> f1 in
  st5 ← ABCM.set_kpts st4 (ManyK ks) false;
  r0 ← ABCM.get_ph_disp M_THZ EigenSolver st5;
  let '(st6, f0) := r0 in
  let freq0 := sort <$> f0 in
  if ABCM.same_shape freq1 freq0 then
    Ok (st6, (fun row : list R => (fun x => x / norm dk) <$> row)
               <$> zip_with (zip_with Rminus) freq1 freq0)
  else Raise (ValueError "operands could not be broadcast together").

End GroupVelocity.

End GroupVelocity.
(* ================================================================== *)
(** * Theorems *)

(** ** Algebra of tensors *)

Lemma mat3_eta (m : mat3) : mat3_of (mget m) = m.
Proof. by destruct m as [[] [] []]. Qed.

Lemma mat3_ext (m p : mat3) :
  (forall a b, (a < 3)%nat -> (b < 3)%nat -> mget m a b = mget p a b) -> m = p.
Proof.
  intros H. transitivity (mat3_of (mget m)); [symmetry; apply mat3_eta|].
  transitivity (mat3_of (mget p)); [|apply mat3_eta].
  unfold mat3_of, vec3_of. f_equal; f_equal; apply H; lia.
Qed.

Lemma mget_mat3_of (f : nat -> nat -> R) (a b : nat) :
  (a < 3)%nat -> (b < 3)%nat -> mget (mat3_of f) a b = f a b.
Proof.
  intros Ha Hb.
  destruct a as [|[|[|a]]]; try lia; destruct b as [|[|[|b]]]; try lia; reflexivity.
Qed.

Ltac mat3_entries :=
  apply mat3_ext; intros ?a ?b ?Ha ?Hb;
  unfold madd, mscale, mdiv, mtranspose, mzero, outer;
  rewrite ?mget_mat3_of by assumption.

Lemma madd_zero_r (m : mat3) : madd m mzero = m.
Proof. mat3_entries. rewrite ?mget_mat3_of by assumption. ring. Qed.

Lemma madd_zero_l (m : mat3) : madd mzero m = m.
Proof. mat3_entries. rewrite ?mget_mat3_of by assumption. ring. Qed.

Lemma madd_assoc (m p q : mat3) : madd m (madd p q) = madd (madd m p) q.
Proof. mat3_entries. rewrite ?mget_mat3_of by assumption. ring. Qed.

Lemma madd_comm (m p : mat3) : madd m p = madd p m.
Proof. mat3_entries. ring. Qed.

Lemma msum_cons (m : mat3) (l : list mat3) : msum (m :: l) = madd m (msum l).
Proof. reflexivity. Qed.

(** ** Arrays given by their index function *)

Lemma lookup_tab {A : Type} (f : nat -> A) (N n : nat) :
  (n < N)%nat -> (f <$> seq 0 N) !! n = Some (f n).
Proof. intros H. rewrite list_lookup_fmap, lookup_seq_lt by done. done. Qed.

Lemma tab_ext {A : Type} (f g : nat -> A) (N : nat) :
  (forall n, (n < N)%nat -> f n = g n) -> f <$> seq 0 N = g <$> seq 0 N.
Proof.
  intros H. apply list_eq. intros i. rewrite !list_lookup_fmap.
  destruct (decide (i < N)%nat) as [Hi|Hi].
  - rewrite lookup_seq_lt by done. simpl. f_equal. by apply H.
  - rewrite lookup_seq_ge by lia. done.
Qed.

Lemma insert_tab {A : Type} (f : nat -> A) (N k : nat) (v : A) :
  <[k := v]> (f <$> seq 0 N) = (fun n => if (n =? k)%nat then v else f n) <$> seq 0 N.
Proof.
  apply list_eq. intros i.
  destruct (decide (i < N)%nat) as [Hi|Hi].
  - rewrite lookup_tab by done.
    destruct (decide (i = k)) as [->|Hne].
    + rewrite list_lookup_insert_eq, Nat.eqb_refl; [done|].
      by rewrite length_fmap, length_seq.
    + rewrite list_lookup_insert_ne by done. rewrite lookup_tab by done.
      by destruct (Nat.eqb_spec i k).
  - rewrite !(proj2 (lookup_ge_None _ _)); [done| |].
    + rewrite length_fmap, length_seq. lia.
    + rewrite length_insert, length_fmap, length_seq. lia.
Qed.

Lemma replicate_tab {A : Type} (x : A) (N : nat) :
  replicate N x = (fun _ => x) <$> seq 0 N.
Proof.
  apply list_eq. intros i.
  destruct (decide (i < N)%nat) as [Hi|Hi].
  - rewrite lookup_tab by done. by apply lookup_replicate_2.
  - rewrite !(proj2 (lookup_ge_None _ _)); [done| |].
    + rewrite length_fmap, length_seq. lia.
    + rewrite length_replicate. lia.
Qed.

Lemma tab_lookup_total {A : Type} `{Inhabited A} (l : list A) :
  l = (fun n => l !!! n) <$> seq 0 (length l).
Proof.
  apply list_eq. intros i.
  destruct (decide (i < length l)%nat) as [Hi|Hi].
  - rewrite lookup_tab by done. destruct (lookup_lt_is_Some_2 l i Hi) as [x Hx].
    rewrite Hx. f_equal. symmetry. by apply list_lookup_total_correct.
  - rewrite !(proj2 (lookup_ge_None _ _)); [done| |lia].
    rewrite length_fmap, length_seq. lia.
Qed.

(** ** The loops of ConstructFC *)

Section ConstructFC_loops.
Variables (alpha : list R) (beta : list (list R)) (nn : list vec3)
            (atom : vec3) (nnlab : list string) (isBC : bool).
Hypothesis WF : FCSpec.well_formed alpha beta nn nnlab isBC.

Abbreviation N := (length nn).
Abbreviation bc_to_bc := (FCSpec.bc_to_bc nnlab isBC).
Abbreviation d1_before := (FCSpec.d1_before nn atom nnlab isBC).
Abbreviation stretching_term := (FCSpec.stretching_term alpha nn atom).
Abbreviation pair_included := (FCSpec.pair_included nn atom nnlab isBC).
Abbreviation pair_term := (FCSpec.pair_term beta nn atom nnlab isBC).
Abbreviation bending_term := (FCSpec.bending_term beta nn atom nnlab isBC).
Abbreviation contribution := (FCSpec.contribution beta nn atom nnlab isBC).
Abbreviation Alpha_after := (FCSpec.Alpha_after alpha nn atom nnlab isBC).
Abbreviation Beta_after := (FCSpec.Beta_after beta nn atom nnlab isBC).

Lemma lab_ok (n : nat) :
    (n < N)%nat -> FC.lab nnlab n = Ok (nnlab !!! n).
Proof.
    intros Hn. unfold FC.lab.
    pose proof WF as (_ & _ & _ & _ & Hl & _).
    destruct (lookup_lt_is_Some_2 nnlab n) as [x Hx]; [lia|].
    rewrite Hx. simpl. f_equal. symmetry. by apply list_lookup_total_correct.
Qed.

Lemma nn_ok (n : nat) :
    (n < N)%nat -> FC.nn_at nn n = Ok (nn !!! n).
Proof.
    intros Hn. unfold FC.nn_at.
    destruct (lookup_lt_is_Some_2 nn n Hn) as [x Hx].
    rewrite Hx. simpl. f_equal. symmetry. by apply list_lookup_total_correct.
Qed.

Lemma alpha_ok (n : nat) :
    (n < N)%nat -> FC.alpha_at alpha n = Ok (alpha !!! n).
Proof.
    intros Hn. unfold FC.alpha_at.
    pose proof WF as (_ & Ha & _).
    destruct (lookup_lt_is_Some_2 alpha n) as [x Hx]; [lia|].
    rewrite Hx. simpl. f_equal. symmetry. by apply list_lookup_total_correct.
Qed.

Lemma beta_ok (n1 n2 : nat) :
    (n1 < N)%nat -> (n2 < N)%nat ->
    FC.beta_at beta nn n1 n2 = Ok (FCSpec.beta_of beta n1 n2).
Proof.
    intros H1 H2. unfold FC.beta_at, FCSpec.beta_of.
    pose proof WF as (_ & _ & Hb & Hrows & _).
    assert (forallb (fun r => length r =? N)%nat beta = true) as ->.
    { apply forallb_forall. intros r Hr. apply Nat.eqb_eq.
      rewrite Forall_forall in Hrows. apply Hrows. by apply list_elem_of_In. }
    destruct (lookup_lt_is_Some_2 beta n1) as [r Hr]; [lia|].
    rewrite Hr. simpl.
    assert (length r = N) as Hlr.
    { rewrite Forall_forall in Hrows. apply Hrows. by eapply list_elem_of_lookup_2. }
    destruct (lookup_lt_is_Some_2 r n2) as [x Hx]; [lia|].
    rewrite Hx. simpl. f_equal.
    rewrite (list_lookup_total_correct _ _ _ Hr).
    symmetry. by apply list_lookup_total_correct.
Qed.

Lemma stretches_ok (n : nat) :
    (n < N)%nat -> FC.stretches nnlab isBC n = Ok (negb (bc_to_bc n)).
Proof.
    intros Hn. unfold FC.stretches, FCSpec.bc_to_bc.
    pose proof (lab_ok n Hn) as Hl.
    destruct isBC; simpl; [|done]. by rewrite Hl.
Qed.

Lemma stretch_entries (n : nat) :
    mscale (FC.alpha_entries atom (nn !!! n))
           (alpha !!! n / norm (vsub atom (nn !!! n)) / norm (vsub atom (nn !!! n)))
    = stretching_term n.
Proof.
    unfold FCSpec.stretching_term, FCSpec.bond_length, FCSpec.bond, FC.alpha_entries.
    mat3_entries. rewrite ?mget_mat3_of by assumption.
    set (d := norm _). replace (d ^ 2) with (d * d) by ring.
    unfold Rdiv. rewrite Rinv_mult.
    destruct (a =? b)%nat eqn:E.
    - apply Nat.eqb_eq in E. subst b. unfold vsub.
      destruct a as [|[|[|a]]]; try lia; simpl; ring.
    - unfold vsub.
      destruct a as [|[|[|a]]]; try lia; destruct b as [|[|[|b]]]; try lia; simpl; ring.
Qed.

Lemma stretch_step_closed (n : nat) (s : FC.loop_state) :
    (n < N)%nat ->
    FC.d1 s = d1_before n ->
    FC.stretch_step alpha nn atom nnlab isBC n s =
    Ok (FC.LoopState
          (if bc_to_bc n then FC.Alpha s else <[n := stretching_term n]> (FC.Alpha s))
          (FC.Beta s) (d1_before (S n))).
Proof.
    intros Hn Hd. unfold FC.stretch_step.
    rewrite stretches_ok by done.
    change (d1_before (S n))
      with (if bc_to_bc n then d1_before n else Some (FCSpec.bond_length nn atom n)).
    destruct (bc_to_bc n) eqn:E; cbn [mbind result_bind negb].
    - rewrite <- Hd. by destruct s.
    - rewrite nn_ok, alpha_ok by done. cbn [mbind result_bind].
      by rewrite stretch_entries.
Qed.

Lemma pair_entries (p1 p2 : vec3) (b d d2 : R) :
  mdiv (mdiv (mscale (FC.tmp_entries atom p1 p2) b) d) d2 =
  mscale (outer (vsub (vsub (vscale atom 2) p1) p2) (vsub p2 atom)) (b / (d * d2)).
Proof.
  unfold FC.tmp_entries. mat3_entries. rewrite ?mget_mat3_of by assumption.
  unfold Rdiv. rewrite Rinv_mult.
  destruct (a =? b0)%nat eqn:E.
  - apply Nat.eqb_eq in E. subst b0. unfold vsub, vscale.
    destruct a as [|[|[|a]]]; try lia; simpl; ring.
  - unfold vsub, vscale.
    destruct a as [|[|[|a]]]; try lia; destruct b0 as [|[|[|b0]]]; try lia; simpl; ring.
Qed.

Lemma d1_defined (n : nat) :
  (n < N)%nat -> (2 <= N)%nat -> is_Some (d1_before (S n)).
Proof.
  intros Hn H2. pose proof WF as (_ & _ & _ & _ & _ & Hfirst).
  induction n as [|n IH].
  - simpl. unfold FCSpec.bc_to_bc.
    pose proof (fun Hb => Hfirst Hb H2) as Hf. clear Hfirst.
    destruct isBC; simpl; [|by eexists]. rewrite Hf by done. by eexists.
  - change (d1_before (S (S n)))
      with (if bc_to_bc (S n) then d1_before (S n)
            else Some (FCSpec.bond_length nn atom (S n))).
    destruct (bc_to_bc (S n)); [apply IH; lia | by eexists].
Qed.

Lemma bend_step_closed (n1 n2 : nat) (s : FC.loop_state) :
  (n1 < N)%nat -> (n2 < N)%nat ->
  length (FC.Beta s) = N ->
  FC.d1 s = d1_before (S n1) ->
  FC.bend_step beta nn atom nnlab isBC n1 n2 s =
  Ok (FC.LoopState (FC.Alpha s)
        (<[n1 := madd (FC.Beta s !!! n1) (contribution n1 n2)]> (FC.Beta s))
        (FC.d1 s)).
Proof.
  intros H1 H2 HB Hd. unfold FC.bend_step, FCSpec.contribution.
  destruct (Nat.eqb_spec n1 n2) as [->|Hne].
  { unfold FCSpec.pair_included. rewrite Nat.eqb_refl. simpl.
    rewrite madd_zero_r, list_insert_id; [by destruct s|].
    apply list_lookup_lookup_total_lt. lia. }
  assert (2 <= N)%nat as HN by lia.
  destruct (d1_defined n1 H1 HN) as [d Hd1].
  pose proof (lab_ok n1 H1) as Hl1. pose proof (lab_ok n2 H2) as Hl2.
  pose proof (nn_ok n1 H1) as Hp1. pose proof (nn_ok n2 H2) as Hp2.
  pose proof (beta_ok n1 n2 H1 H2) as Hb.
  destruct s as [A B dd]. cbn [FC.Alpha FC.Beta FC.d1] in *.
  rewrite Hd1 in Hd. subst dd.
  assert (B !! n1 = Some (B !!! n1)) as HB1
    by (apply list_lookup_lookup_total_lt; lia).
  unfold FC.tf1, FC.tf0, FC.tf2, FC.tf3.
  unfold FCSpec.pair_included, FCSpec.pair_term, FCSpec.d2_of, FCSpec.d1_in.
  cbn [FC.Alpha FC.Beta FC.d1].
  rewrite Hl1, Hl2, Hp1, Hp2, Hb, HB1, Hd1.
  destruct (Nat.eqb_spec n1 n2) as [|_]; [done|].
  set (l1 := nnlab !!! n1). set (l2 := nnlab !!! n2).
  assert (isBC = false -> d = FCSpec.bond_length nn atom n1) as Hnb.
  { intros Hf. change (d1_before (S n1))
      with (if bc_to_bc n1 then d1_before n1
            else Some (FCSpec.bond_length nn atom n1)) in Hd1.
    unfold FCSpec.bc_to_bc in Hd1. rewrite Hf in Hd1. simpl in Hd1. congruence. }
  clear Hl1 Hl2 Hp1 Hp2 Hb Hd1.
  unfold default, id.
  destruct isBC; cbn [mbind result_bind from_opt negb andb].
  - destruct (is_bc l1), (is_bc l2), (Rltb _ _);
      cbn [mbind result_bind negb andb orb xorb from_opt];
      rewrite ?pair_entries, ?madd_zero_r, ?list_insert_id by done; done.
  - rewrite Hnb by done.
    destruct (is_bc l1), (is_bc l2);
      cbn [mbind result_bind negb andb orb from_opt];
      rewrite ?pair_entries, ?madd_zero_r, ?list_insert_id by done; done.
Qed.

Lemma bend_loop_closed (n1 len : nat) : forall (m : nat) (s : FC.loop_state),
  (n1 < N)%nat -> (m + len <= N)%nat ->
  length (FC.Beta s) = N ->
  FC.d1 s = d1_before (S n1) ->
  for_each (FC.bend_step beta nn atom nnlab isBC n1) (seq m len) s =
  Ok (FC.LoopState (FC.Alpha s)
        (<[n1 := madd (FC.Beta s !!! n1) (msum (contribution n1 <$> seq m len))]>
           (FC.Beta s))
        (FC.d1 s)).
Proof.
  induction len as [|len IH]; intros m s H1 Hm HB Hd.
  - simpl. rewrite madd_zero_r, list_insert_id; [by destruct s|].
    apply list_lookup_lookup_total_lt. lia.
  - cbn [seq for_each]. rewrite bend_step_closed by (done || lia).
    cbn [mbind result_bind].
    rewrite IH; cbn [FC.Alpha FC.Beta FC.d1];
      [|done|lia|by rewrite length_insert|done].
    rewrite list_lookup_total_insert_eq by lia.
    rewrite list_insert_insert_eq, fmap_cons, msum_cons.
    by rewrite madd_assoc.
Qed.

Lemma outer_step_closed (k : nat) (s : FC.loop_state) :
  (k < N)%nat ->
  FC.Alpha s = Alpha_after k -> FC.Beta s = Beta_after k ->
  FC.d1 s = d1_before k ->
  FC.outer_step alpha beta nn atom nnlab isBC k s =
  Ok (FC.LoopState (Alpha_after (S k)) (Beta_after (S k)) (d1_before (S k))).
Proof.
  intros Hk HA HB Hd. unfold FC.outer_step.
  rewrite stretch_step_closed by done. cbn [mbind result_bind].
  rewrite bend_loop_closed; cbn [FC.Alpha FC.Beta FC.d1];
    [|done|lia|by rewrite HB; unfold FCSpec.Beta_after; rewrite length_fmap, length_seq|done].
  f_equal. f_equal.
  - rewrite HA. unfold FCSpec.Alpha_after.
    destruct (bc_to_bc k) eqn:E; [|rewrite insert_tab]; apply tab_ext; intros n Hn.
    + destruct (Nat.ltb_spec n k), (Nat.ltb_spec n (S k)); try lia; try done.
      assert (n = k) as -> by lia. by rewrite E.
    + destruct (Nat.eqb_spec n k) as [->|Hne].
      * rewrite (proj2 (Nat.ltb_lt k (S k))) by lia. by rewrite E.
      * destruct (Nat.ltb_spec n k), (Nat.ltb_spec n (S k)); try lia; done.
  - rewrite HB. unfold FCSpec.Beta_after at 2 3. rewrite insert_tab.
    apply tab_ext; intros n Hn.
    destruct (Nat.eqb_spec n k) as [->|Hne].
    + rewrite (proj2 (Nat.ltb_lt k (S k))) by lia.
      unfold FCSpec.Beta_after.
      rewrite (list_lookup_total_correct _ _ _ (lookup_tab _ _ _ Hk)).
      rewrite Nat.ltb_irrefl. by rewrite madd_zero_l.
    + destruct (Nat.ltb_spec n k), (Nat.ltb_spec n (S k)); try lia; done.
Qed.

Lemma outer_loop_closed (len : nat) : forall (k : nat) (s : FC.loop_state),
  (k + len = N)%nat ->
  FC.Alpha s = Alpha_after k -> FC.Beta s = Beta_after k ->
  FC.d1 s = d1_before k ->
  for_each (FC.outer_step alpha beta nn atom nnlab isBC) (seq k len) s =
  Ok (FC.LoopState (Alpha_after N) (Beta_after N) (d1_before N)).
Proof.
  induction len as [|len IH]; intros k s Hk HA HB Hd.
  - simpl. assert (k = N) as <- by lia. destruct s; simpl in *. by subst.
  - cbn [seq for_each]. rewrite outer_step_closed by (done || lia).
    cbn [mbind result_bind]. apply IH; [lia|done..].
Qed.

(** The call returns, and returns the tensors of the closed form. *)
Lemma ConstructFC_closed :
  FC.ConstructFC alpha beta nn atom nnlab isBC =
  Ok (FCSpec.tensor alpha beta nn atom nnlab isBC <$> seq 0 N).
Proof.
  pose proof WF as (HN & Ha & Hb & Hrows & Hl & _).
  unfold FC.ConstructFC. cbv zeta.
  rewrite Ha, Hb, Nat.eqb_refl. cbn [negb].
  destruct (lookup_lt_is_Some_2 beta 0) as [b0 Hb0]; [lia|].
  rewrite Hb0. cbn [from_opt mbind result_bind].
  assert (length b0 = N) as ->.
  { rewrite Forall_forall in Hrows. apply Hrows. by eapply list_elem_of_lookup_2. }
  rewrite Nat.eqb_refl. cbn [negb].
  rewrite (outer_loop_closed N 0); [| lia | | | done].
  - cbn [mbind result_bind FC.Alpha FC.Beta]. f_equal.
    apply list_eq. intros i. rewrite lookup_zip_with, !list_lookup_fmap.
    unfold FCSpec.Alpha_after, Beta_after. rewrite !list_lookup_fmap.
    destruct (decide (i < N)%nat) as [Hi|Hi].
    + rewrite lookup_seq_lt by done. simpl.
      rewrite (proj2 (Nat.ltb_lt i N)) by done. done.
    + rewrite lookup_seq_ge by lia. done.
  - unfold FC.init_state, FCSpec.Alpha_after. cbn [FC.Alpha].
    rewrite replicate_tab. by apply tab_ext.
  - unfold FC.init_state, FCSpec.Beta_after. cbn [FC.Beta].
    rewrite replicate_tab. by apply tab_ext.
Qed.

End ConstructFC_loops.

(** ** Complex arithmetic *)

Lemma C_eq (z w : C) : re z = re w -> im z = im w -> z = w.
Proof. destruct z, w. simpl. by intros -> ->. Qed.

Lemma Cadd_0_r (z : C) : Cadd z C0 = z.
Proof. apply C_eq; simpl; ring. Qed.

Lemma Cadd_0_l (z : C) : Cadd C0 z = z.
Proof. apply C_eq; simpl; ring. Qed.

Lemma Cadd_assoc (z w u : C) : Cadd z (Cadd w u) = Cadd (Cadd z w) u.
Proof. apply C_eq; simpl; ring. Qed.

Lemma Cadd_comm (z w : C) : Cadd z w = Cadd w z.
Proof. apply C_eq; simpl; ring. Qed.

Lemma Cscale_0_l (c : R) : Cscale C0 c = C0.
Proof. apply C_eq; simpl; ring. Qed.

Lemma Cscale_0_r (z : C) : Cscale z 0 = C0.
Proof. apply C_eq; simpl; ring. Qed.

Lemma Cscale_add (z w : C) (c : R) : Cscale (Cadd z w) c = Cadd (Cscale z c) (Cscale w c).
Proof. apply C_eq; simpl; ring. Qed.

Lemma Cconj_add (z w : C) : Cconj (Cadd z w) = Cadd (Cconj z) (Cconj w).
Proof. apply C_eq; simpl; ring. Qed.

Lemma Cconj_scale (z : C) (c : R) : Cconj (Cscale z c) = Cscale (Cconj z) c.
Proof. apply C_eq; simpl; ring. Qed.

Lemma Csum_cons (z : C) (l : list C) : Csum (z :: l) = Cadd z (Csum l).
Proof. reflexivity. Qed.

Lemma Csum_app (l1 l2 : list C) : Csum (l1 ++ l2) = Cadd (Csum l1) (Csum l2).
Proof.
  induction l1 as [|z l1 IH]; simpl.
  - by rewrite Cadd_0_l.
  - fold (Csum (l1 ++ l2)) (Csum l1). by rewrite IH, Cadd_assoc.
Qed.

Lemma Csum_zero {A : Type} (f : A -> C) (l : list A) :
  (forall x, x ∈ l -> f x = C0) -> Csum (f <$> l) = C0.
Proof.
  induction l as [|x l IH]; intros H; [done|].
  rewrite fmap_cons, Csum_cons, H, IH, Cadd_0_l; [done| |by left].
  intros y Hy. apply H. by right.
Qed.

Lemma Csum_ext {A : Type} (f g : A -> C) (l : list A) :
  (forall x, x ∈ l -> f x = g x) -> Csum (f <$> l) = Csum (g <$> l).
Proof.
  induction l as [|x l IH]; intros H; [done|].
  rewrite !fmap_cons, !Csum_cons, H, IH; [done| |by left].
  intros y Hy. apply H. by right.
Qed.

Lemma Csum_add {A : Type} (f g : A -> C) (l : list A) :
  Csum ((fun x => Cadd (f x) (g x)) <$> l) = Cadd (Csum (f <$> l)) (Csum (g <$> l)).
Proof.
  induction l as [|x l IH]; [by rewrite Cadd_0_l|].
  rewrite !fmap_cons, !Csum_cons, IH. apply C_eq; simpl; ring.
Qed.

Lemma Csum_scale {A : Type} (f : A -> C) (c : R) (l : list A) :
  Csum ((fun x => Cscale (f x) c) <$> l) = Cscale (Csum (f <$> l)) c.
Proof.
  induction l as [|x l IH]; [by rewrite Cscale_0_l|].
  by rewrite !fmap_cons, !Csum_cons, IH, Cscale_add.
Qed.

Lemma Csum_conj {A : Type} (f : A -> C) (l : list A) :
  Csum ((fun x => Cconj (f x)) <$> l) = Cconj (Csum (f <$> l)).
Proof.
  induction l as [|x l IH]; [apply C_eq; simpl; ring|].
  by rewrite !fmap_cons, !Csum_cons, IH, Cconj_add.
Qed.

(** Two nested sums can be exchanged. *)
Lemma Csum_exchange {A B : Type} (f : A -> B -> C) (la : list A) (lb : list B) :
  Csum ((fun x => Csum (f x <$> lb)) <$> la) =
  Csum ((fun y => Csum ((fun x => f x y) <$> la)) <$> lb).
Proof.
  induction la as [|x la IH].
  - simpl. symmetry. by apply Csum_zero.
  - rewrite fmap_cons, Csum_cons, IH, <- Csum_add. done.
Qed.

Lemma Csum_perm (l1 l2 : list C) : Permutation l1 l2 -> Csum l1 = Csum l2.
Proof.
  induction 1 as [|x l1 l2 _ IH|x y l|l1 l2 l3 _ IH1 _ IH2].
  - done.
  - by rewrite !Csum_cons, IH.
  - rewrite !Csum_cons, !Cadd_assoc. f_equal. apply Cadd_comm.
  - congruence.
Qed.

(** The phase the source computes, [exp(-1j * t)]. *)
Lemma cexp_minus_j (t : R) : cexp (Cscale minus_j t) = mkC (cos t) (- sin t).
Proof.
  unfold cexp, Cscale, minus_j. cbn [re im].
  match goal with |- context [exp ?x] => replace x with 0 by ring end.
  match goal with |- context [cos ?x] => replace x with (- t) by ring end.
  rewrite exp_0, cos_neg, sin_neg. apply C_eq; simpl; ring.
Qed.

(** ** The loops of DynBuild *)

(** A loop whose every turn adds a term to every entry adds their sum. *)
Lemma for_each_accum {A : Type} (body : A -> cmat -> result cmat)
    (g : A -> nat -> nat -> C) (l : list A) :
  (forall x D, x ∈ l ->
     exists D', body x D = Ok D' /\ forall r c, D' r c = Cadd (D r c) (g x r c)) ->
  forall D, exists D', for_each body l D = Ok D' /\
    forall r c, D' r c = Cadd (D r c) (Csum ((fun x => g x r c) <$> l)).
Proof.
  induction l as [|x l IH]; intros Hbody D.
  - exists D. split; [done|]. intros. simpl. by rewrite Cadd_0_r.
  - destruct (Hbody x D) as (D1 & HD1 & E1); [by left|].
    destruct (IH (fun y D Hy => Hbody y D (list_elem_of_further _ _ _ Hy)) D1) as (D2 & HD2 & E2).
    exists D2. split.
    + cbn [for_each]. rewrite HD1. done.
    + intros r c. rewrite E2, E1, fmap_cons, Csum_cons. by rewrite Cadd_assoc.
Qed.

Section DynBuild_loops.
Variable M_THZ : R.
Variables (basis : list vec3) (mass : list R) (bvec : mat3)
          (fc : list (list mat3)) (nn : list (list vec3))
          (label : list (list nat)).
Hypothesis WF : DynSpec.well_formed basis mass fc nn label.

Abbreviation shell := (DynSpec.shell nn).
Abbreviation bond_contribution := (DynSpec.bond_contribution basis mass fc nn label).
Abbreviation dyn_entry := (DynSpec.dyn_entry basis mass fc nn label).

Lemma bond_step_closed (kq : vec3) (i j : nat) (D : cmat) :
  (i < length mass)%nat -> j ∈ shell i ->
  exists D', bond_step basis mass fc nn label kq i j D = Ok D' /\
    forall r c, D' r c = Cadd (D r c) (bond_contribution kq i j r c).
Proof.
  intros Hi Hj. pose proof WF as (Hlen & Hrows).
  destruct (Hrows i Hi) as (nni & li & fi & Hnn & Hlab & Hfc & Hcols).
  unfold DynSpec.shell in Hj. rewrite (list_lookup_total_correct _ _ _ Hnn) in Hj.
  apply elem_of_seq in Hj. destruct (Hcols j) as (ka & T & Hka & HT & Hlt); [lia|].
  destruct (lookup_lt_is_Some_2 basis i) as [bi Hbi]; [lia|].
  destruct (lookup_lt_is_Some_2 mass i Hi) as [mi Hmi].
  destruct (lookup_lt_is_Some_2 mass ka Hlt) as [mka Hmka].
  destruct (lookup_lt_is_Some_2 nni j) as [p Hp]; [lia|].
  unfold bond_step. rewrite Hbi, Hnn, Hlab, Hfc, Hmi. cbn [mbind option_bind from_opt result_bind].
  rewrite Hp, Hka, HT. cbn [from_opt mbind result_bind]. rewrite Hmka.
  cbn [from_opt mbind result_bind].
  eexists. split; [reflexivity|]. intros r c.
  unfold block_add, block_sub, DynSpec.bond_contribution,
    DynSpec.tensor, DynSpec.owner, DynSpec.bond, DynSpec.pos, DynSpec.phase.
  rewrite (list_lookup_total_correct _ _ _ Hnn), (list_lookup_total_correct _ _ _ Hlab),
    (list_lookup_total_correct _ _ _ Hfc), (list_lookup_total_correct _ _ _ Hp),
    (list_lookup_total_correct _ _ _ Hka), (list_lookup_total_correct _ _ _ HT),
    (list_lookup_total_correct _ _ _ Hbi), (list_lookup_total_correct _ _ _ Hmi),
    (list_lookup_total_correct _ _ _ Hmka).
  rewrite cexp_minus_j.
  assert (forall r0 c0 (m : R), in_block r0 c0 r c = true ->
            mget (mdiv T m) (r - r0) (c - c0) = mget T (r - r0) (c - c0) / m) as Hget.
  { intros r0 c0 m Hb. unfold in_block in Hb.
    apply andb_prop in Hb as [Hb H4]. apply andb_prop in Hb as [Hb H3].
    apply andb_prop in Hb as [H1 H2].
    apply Nat.leb_le in H1, H3. apply Nat.ltb_lt in H2, H4.
    unfold mdiv. rewrite mget_mat3_of by lia. done. }
  destruct (in_block (i * 3) (i * 3) r c) eqn:E1;
    destruct (in_block (i * 3) (ka * 3) r c) eqn:E2;
    rewrite ?Hget by done; apply C_eq; simpl; ring.
Qed.

Lemma atom_step_closed (kq : vec3) (i : nat) (D : cmat) :
  (i < length mass)%nat ->
  exists D', atom_step basis mass fc nn label kq i D = Ok D' /\
    forall r c, D' r c =
      Cadd (D r c) (Csum ((fun j => bond_contribution kq i j r c) <$> shell i)).
Proof.
  intros Hi. pose proof WF as (_ & Hrows).
  destruct (Hrows i Hi) as (nni & li & fi & Hnn & _).
  unfold atom_step. rewrite Hnn. cbn [from_opt mbind result_bind].
  replace (seq 0 (length nni)) with (shell i)
    by (unfold DynSpec.shell; by rewrite (list_lookup_total_correct _ _ _ Hnn)).
  apply (for_each_accum _ (fun j r c => bond_contribution kq i j r c)).
  intros j D0 Hj. by apply bond_step_closed.
Qed.

Lemma dyn_at_closed (kq : vec3) :
  exists D, dyn_at basis mass fc nn label kq = Ok D /\
    forall r c, D r c = dyn_entry kq r c.
Proof.
  unfold dyn_at.
  destruct (for_each_accum (atom_step basis mass fc nn label kq)
              (fun i r c => Csum ((fun j => bond_contribution kq i j r c) <$> shell i))
              (seq 0 (length mass))) with (D := czeros) as (D & HD & E).
  { intros i D Hi. apply atom_step_closed. by apply elem_of_seq in Hi as [_ Hi]. }
  exists D. split; [done|]. intros r c. rewrite E. unfold czeros.
  by rewrite Cadd_0_l.
Qed.

(** DynBuild returns one matrix per k-point, and each entry is the sum of
    the contributions of all bonds, scaled by [M_THZ]. *)
Lemma DynBuild_closed (kpts : kpts_arg) (crys : bool) :
  exists dyn, DynBuild M_THZ basis mass bvec fc nn label kpts crys = Ok dyn /\
    Forall2 (fun k (D : cmat) =>
               forall r c, D r c = Cscale (dyn_entry (to_cartesian bvec crys k) r c) M_THZ)
            (kpts_array kpts) dyn.
Proof.
  pose proof WF as (Hlen & _).
  unfold DynBuild. cbv zeta. rewrite Hlen, Nat.eqb_refl. cbn [negb].
  generalize (kpts_array kpts) as ks. intros ks.
  assert (exists dyn0,
            mapM (fun k => dyn_at basis mass fc nn label (to_cartesian bvec crys k)) ks
            = Ok dyn0 /\
            Forall2 (fun k (D : cmat) =>
               forall r c, D r c = dyn_entry (to_cartesian bvec crys k) r c) ks dyn0)
    as (dyn0 & -> & HF).
  { induction ks as [|k ks (dyn0 & IH & HF)].
    - exists []. split; [done|constructor].
    - destruct (dyn_at_closed (to_cartesian bvec crys k)) as (D & HD & E).
      exists (D :: dyn0). split.
      + cbn [mapM]. rewrite HD. cbn [mbind result_bind]. rewrite IH. done.
      + by constructor. }
  cbn [mbind result_bind]. eexists. split; [reflexivity|].
  apply Forall2_fmap_r. eapply Forall2_impl; [exact HF|].
  simpl. intros k D E r c. by rewrite E.
Qed.

End DynBuild_loops.

(** ** The dynamical matrix by blocks *)

Lemma in_block_blocks (i k i' k' a b : nat) :
  (a < 3)%nat -> (b < 3)%nat ->
  in_block (i * 3) (k * 3) (i' * 3 + a) (k' * 3 + b) = (i =? i')%nat && (k =? k')%nat.
Proof.
  intros Ha Hb. unfold in_block.
  destruct (Nat.eqb_spec i i') as [->|Hi]; destruct (Nat.eqb_spec k k') as [->|Hk];
    repeat match goal with
           | |- context [(?x <=? ?y)%nat] => destruct (Nat.leb_spec x y)
           | |- context [(?x <? ?y)%nat] => destruct (Nat.ltb_spec x y)
           end; simpl; try reflexivity; lia.
Qed.

Lemma Csum_single (f : nat -> C) (N i : nat) :
  (i < N)%nat -> (forall i', (i' < N)%nat -> i' <> i -> f i' = C0) ->
  Csum (f <$> seq 0 N) = f i.
Proof.
  intros Hi Hz.
  replace (seq 0 N) with (seq 0 i ++ [i] ++ seq (S i) (N - S i)).
  - rewrite !fmap_app, !Csum_app.
    rewrite (Csum_zero f (seq 0 i)), (Csum_zero f (seq (S i) _)).
    + simpl. rewrite Cadd_0_l, !Cadd_0_r. done.
    + intros x Hx. apply elem_of_seq in Hx. apply Hz; lia.
    + intros x Hx. apply elem_of_seq in Hx. apply Hz; lia.
  - change ([i] ++ seq (S i) (N - S i)) with (seq i (S (N - S i))).
    rewrite <- seq_app. f_equal. lia.
Qed.

Lemma Csum_real {A : Type} (f : A -> R) (l : list A) :
  Csum ((fun x => mkC (f x) 0) <$> l) = mkC (fold_right Rplus 0 (f <$> l)) 0.
Proof.
  induction l as [|x l IH]; [done|].
  rewrite !fmap_cons, Csum_cons, IH. apply C_eq; simpl; ring.
Qed.

Lemma Rsum_opp {A : Type} (f : A -> R) (l : list A) :
  fold_right Rplus 0 ((fun x => - f x) <$> l) = - fold_right Rplus 0 (f <$> l).
Proof.
  induction l as [|x l IH]; [simpl; ring|].
  rewrite !fmap_cons. cbn [fold_right]. rewrite IH. ring.
Qed.

Lemma Rsum_div {A : Type} (f : A -> R) (m : R) (l : list A) :
  fold_right Rplus 0 ((fun x => f x / m) <$> l) = fold_right Rplus 0 (f <$> l) / m.
Proof.
  induction l as [|x l IH]; [simpl; unfold Rdiv; ring|].
  rewrite !fmap_cons. cbn [fold_right]. rewrite IH. unfold Rdiv. ring.
Qed.

Section DynBuild_blocks.
Variables (basis : list vec3) (mass : list R)
          (fc : list (list mat3)) (nn : list (list vec3))
          (label : list (list nat)).

Abbreviation block_entry := (DynSpec.block_entry basis mass fc nn label).

Lemma dyn_entry_block (kq : vec3) (i k a b : nat) :
  (i < length mass)%nat -> (a < 3)%nat -> (b < 3)%nat ->
  DynSpec.dyn_entry basis mass fc nn label kq (i * 3 + a) (k * 3 + b) =
  block_entry kq i k a b.
Proof.
  intros Hi Ha Hb. unfold DynSpec.dyn_entry.
  rewrite (Csum_single _ _ i Hi).
  - unfold DynSpec.block_entry.
    rewrite (Csum_ext _ (fun j =>
      Cadd (if (i =? k)%nat
            then mkC (- (mget (DynSpec.tensor fc i j) a b / mass !!! i)) 0 else C0)
           (if (DynSpec.owner label i j =? k)%nat
            then Cscale (DynSpec.phase kq (DynSpec.bond basis nn i j))
                   (mget (DynSpec.tensor fc i j) a b / sqrt (mass !!! i * mass !!! k))
            else C0))).
    + rewrite Csum_add. f_equal.
      destruct (i =? k)%nat.
      * rewrite Csum_real, Rsum_opp. done.
      * by apply Csum_zero.
    + intros j _. unfold DynSpec.bond_contribution. cbv zeta.
      rewrite !in_block_blocks by done. rewrite Nat.eqb_refl. cbn [andb].
      f_equal.
      * destruct (Nat.eqb_spec i k) as [->|]; [|done].
        by replace (k * 3 + a - k * 3)%nat with a by lia;
           replace (k * 3 + b - k * 3)%nat with b by lia.
      * destruct (Nat.eqb_spec (DynSpec.owner label i j) k) as [->|]; [|done].
        by replace (i * 3 + a - i * 3)%nat with a by lia;
           replace (k * 3 + b - k * 3)%nat with b by lia.
  - intros i' Hi' Hne. apply Csum_zero. intros j _.
    unfold DynSpec.bond_contribution. cbv zeta.
    rewrite !in_block_blocks by done.
    destruct (Nat.eqb_spec i' i) as [|_]; [done|]. cbn [andb]. apply Cadd_0_l.
Qed.

End DynBuild_blocks.

(** ** ConstructFC: stretching and bending *)

Lemma Rltb_true (x y : R) : Rltb x y = true <-> x < y.
Proof. unfold Rltb. destruct (Rlt_dec x y); split; intros; (done || lra). Qed.

Lemma Rleb_true (x y : R) : Rleb x y = true <-> x <= y.
Proof. unfold Rleb. destruct (Rle_dec x y); split; intros; (done || lra). Qed.

Lemma pair_shell_well_formed (a1 a2 b11 b12 b21 b22 : R) (p q : vec3)
    (l1 l2 : string) (isBC : bool) :
  (isBC = true -> is_bc l1 = false) ->
  FCSpec.well_formed [a1; a2] [[b11; b12]; [b21; b22]] [p; q] [l1; l2] isBC.
Proof.
  intros Hl. repeat split; simpl; try lia; try done.
  - by repeat constructor.
  - intros H _. by apply Hl.
Qed.

(** C2 (as amended).  On a shell of at least one neighbour, with [alpha]
    of its length, [beta] square of its size and one label for every
    neighbour, and whose first neighbour is not labelled a bond charge
    when the central site is one and has two neighbours or more,
    [ConstructFC] returns one tensor for every neighbour: 8 times the
    stretching term plus 2 times the bending term.  The stretching term is
    the outer product of the bond vector [atom - nn[n]] with itself scaled
    by [- alpha_n / d_n^2], except that it is zero for a neighbour
    labelled a bond charge when the central site is a bond charge. *)
Theorem ConstructFC_stretching_plus_bending
    (alpha : list R) (beta : list (list R)) (nn : list vec3) (atom : vec3)
    (nnlab : list string) (isBC : bool) :
  FCSpec.well_formed alpha beta nn nnlab isBC ->
  exists T, FC.ConstructFC alpha beta nn atom nnlab isBC = Ok T /\
    length T = length nn /\
    forall n, (n < length nn)%nat ->
      T !! n = Some (madd (mscale (if isBC && is_bc (nnlab !!! n) then mzero
                                   else FCSpec.stretching_term alpha nn atom n) 8)
                          (mscale (FCSpec.bending_term beta nn atom nnlab isBC n) 2)).
Proof.
  intros WF. eexists. split; [by apply ConstructFC_closed|].
  split; [by rewrite length_fmap, length_seq|].
  intros n Hn. by rewrite lookup_tab.
Qed.

Lemma single_neighbour_well_formed (a b : R) (p : vec3) (l : string) (isBC : bool) :
  FCSpec.well_formed [a] [[b]] [p] [l] isBC.
Proof.
  repeat split; simpl; try lia.
  by repeat constructor.
Qed.

(** A bond-charge site with a real ion and a bond charge as neighbours:
    the ion keeps its stretching term, the bond charge does not, and both
    pairs pass the gate of the bending term. *)
Lemma ConstructFC_stretching_plus_bending_witness :
  exists T,
    FC.ConstructFC [2; 3] [[0; 5]; [5; 0]] [Examples.unit_x; Examples.corner]
      Examples.origin ["Si"; "BC"]%string true = Ok T /\
    length T = length [Examples.unit_x; Examples.corner] /\
    forall n, (n < length [Examples.unit_x; Examples.corner])%nat ->
      T !! n =
      Some (madd (mscale (if true && is_bc (["Si"; "BC"]%string !!! n) then mzero
                          else FCSpec.stretching_term [2; 3]
                                 [Examples.unit_x; Examples.corner] Examples.origin n) 8)
                 (mscale (FCSpec.bending_term [[0; 5]; [5; 0]]
                            [Examples.unit_x; Examples.corner] Examples.origin
                            ["Si"; "BC"]%string true n) 2)).
Proof.
  apply (ConstructFC_stretching_plus_bending [2; 3] [[0; 5]; [5; 0]]
           [Examples.unit_x; Examples.corner] Examples.origin ["Si"; "BC"]%string true).
  by apply pair_shell_well_formed.
Defined.

Lemma norm_unit_bond : norm (vsub Examples.origin Examples.unit_x) = 1.
Proof.
  unfold norm, vdot, vsub, Examples.origin, Examples.unit_x. simpl.
  replace ((0 - 1) * (0 - 1) + (0 - 0) * (0 - 0) + (0 - 0) * (0 - 0)) with 1 by ring.
  apply sqrt_1.
Qed.

Lemma unit_stretching_entry (a : R) :
  mget (FCSpec.stretching_term [a] [Examples.unit_x] Examples.origin 0) 0 0 = - a.
Proof.
  unfold FCSpec.stretching_term, FCSpec.bond_length, FCSpec.bond.
  change ([Examples.unit_x] !!! 0%nat) with Examples.unit_x.
  change ([a] !!! 0%nat) with a.
  rewrite norm_unit_bond. unfold mscale, outer. rewrite !mget_mat3_of by lia.
  unfold vsub, Examples.origin, Examples.unit_x. simpl. field.
Qed.

Lemma single_bending_zero (b : R) (p atom : vec3) (l : string) (isBC : bool) :
  FCSpec.bending_term [[b]] [p] atom [l] isBC 0 = mzero.
Proof.
  unfold FCSpec.bending_term, FCSpec.contribution, FCSpec.pair_included.
  simpl. apply madd_zero_r.
Qed.

(** C2, as stated, fails at a bond-charge site with a bond-charge
    neighbour: the tensor returned is zero, the claimed one is not. *)
Lemma ConstructFC_stretching_counterexample :
  exists T,
    FC.ConstructFC [1] [[0]] [Examples.unit_x] Examples.origin ["BC"%string] true
    = Ok [T] /\
    T <> madd (mscale (FCSpec.stretching_term [1] [Examples.unit_x] Examples.origin 0) 8)
              (mscale (FCSpec.bending_term [[0]] [Examples.unit_x] Examples.origin
                         ["BC"%string] true 0) 2).
Proof.
  eexists. split.
  - rewrite ConstructFC_closed by apply single_neighbour_well_formed. reflexivity.
  - intros H. apply (f_equal (fun m => mget m 0 0)) in H.
    unfold FCSpec.tensor in H. rewrite single_bending_zero in H.
    change (FCSpec.bc_to_bc ["BC"%string] true 0) with true in H.
    unfold madd, mscale in H. rewrite !mget_mat3_of in H by lia.
    rewrite unit_stretching_entry in H.
    unfold mzero in H. rewrite !mget_mat3_of in H by lia. lra.
Qed.

(** When the pair [(n1,n2)] contributes to the bending term, read off the
    three flags of the source. *)
Lemma pair_included_iff (nn : list vec3) (atom : vec3) (nnlab : list string)
    (isBC : bool) (n1 n2 : nat) :
  FCSpec.pair_included nn atom nnlab isBC n1 n2 = true <->
  n1 <> n2 /\
  (if isBC
   then is_bc (nnlab !!! n1) <> is_bc (nnlab !!! n2) /\
        FCSpec.d1_in nn atom nnlab isBC n1 - norm (vsub (nn !!! n1) (nn !!! n2)) < 1e-4
   else is_bc (nnlab !!! n1) = true /\ is_bc (nnlab !!! n2) = true).
Proof.
  unfold FCSpec.pair_included.
  destruct (Nat.eqb_spec n1 n2) as [->|Hne]; cbn [negb andb].
  { split; [done|]. by intros [[] _]. }
  destruct isBC.
  - rewrite andb_true_iff, Rltb_true.
    destruct (is_bc (nnlab !!! n1)), (is_bc (nnlab !!! n2)); simpl; intuition congruence.
  - rewrite andb_true_iff. intuition.
Qed.

(** C3 (as amended).  On a shell as in C2, the tensor of neighbour [n1]
    is 8 times its stretching term plus 2 times the sum of the
    contributions of the pairs [(n1,n2)].  The stretching term is left
    out for the neighbours labelled a bond charge of a bond-charge site,
    and for no other: the bonds from a bond-charge site to real ions keep
    it.  A pair contributes to the bending term only when [n1 <> n2] and
    one of the two neighbours is itself labelled a bond charge; at a
    bond-charge site exactly one of the two is, the other being a real
    ion. *)
Theorem ConstructFC_gating
    (alpha : list R) (beta : list (list R)) (nn : list vec3) (atom : vec3)
    (nnlab : list string) (isBC : bool) :
  FCSpec.well_formed alpha beta nn nnlab isBC ->
  exists T, FC.ConstructFC alpha beta nn atom nnlab isBC = Ok T /\
    (forall n1, (n1 < length nn)%nat ->
       T !! n1 =
       Some (madd
               (mscale (if isBC && is_bc (nnlab !!! n1) then mzero
                        else FCSpec.stretching_term alpha nn atom n1) 8)
               (mscale (msum (FCSpec.contribution beta nn atom nnlab isBC n1
                                <$> seq 0 (length nn))) 2))) /\
    (forall n1 n2,
       FCSpec.contribution beta nn atom nnlab isBC n1 n2 <> mzero ->
       n1 <> n2 /\
       (is_bc (nnlab !!! n1) = true \/ is_bc (nnlab !!! n2) = true) /\
       (isBC = true -> is_bc (nnlab !!! n1) <> is_bc (nnlab !!! n2))).
Proof.
  intros WF. eexists. split; [by apply ConstructFC_closed|]. split.
  - intros n1 Hn. by rewrite lookup_tab.
  - intros n1 n2 Hc. unfold FCSpec.contribution in Hc.
    destruct (FCSpec.pair_included nn atom nnlab isBC n1 n2) eqn:Hp; [|done].
    apply pair_included_iff in Hp as [Hne Hg]. split; [done|].
    destruct isBC.
    + destruct Hg as [Hx _]. split; [|done].
      destruct (is_bc (nnlab !!! n1)), (is_bc (nnlab !!! n2)); auto.
    + destruct Hg as [H1 _]. split; [by left|done].
Qed.

Lemma norm_corner_bond : norm (vsub Examples.unit_x Examples.corner) = 1.
Proof.
  unfold norm, vdot, vsub, Examples.unit_x, Examples.corner. simpl.
  replace ((1 - 1) * (1 - 1) + (0 - 1) * (0 - 1) + (0 - 0) * (0 - 0)) with 1 by ring.
  apply sqrt_1.
Qed.

(** At a bond-charge site with a real ion and a bond charge as neighbours,
    both at distance one of each other and of the site: the first entry of
    the tensor of the ion. *)
Lemma bc_site_entry (b b' : R) :
  mget (FCSpec.tensor [1; 1] [[0; b]; [b'; 0]] [Examples.unit_x; Examples.corner]
          Examples.origin ["Si"; "BC"]%string true 0) 0 0 = - 8 - 4 * b.
Proof.
  unfold FCSpec.tensor, FCSpec.bending_term, FCSpec.contribution,
    FCSpec.pair_included, FCSpec.pair_term, FCSpec.d1_in, FCSpec.d2_of,
    FCSpec.beta_of, FCSpec.stretching_term, FCSpec.bond_length, FCSpec.bond,
    FCSpec.bc_to_bc.
  cbn [length seq fmap list_fmap lookup_total list_lookup_total FCSpec.d1_before
       Nat.eqb negb andb].
  unfold FCSpec.bc_to_bc, FCSpec.bond_length, FCSpec.bond.
  cbn [lookup_total list_lookup_total].
  change (is_bc "Si") with false. change (is_bc "BC") with true.
  cbn [andb xorb negb default]. rewrite norm_unit_bond, norm_corner_bond.
  unfold Datatypes.id.
  rewrite (proj2 (Rltb_true (1 - 1) 1e-4)) by lra.
  unfold msum, madd, mscale, outer, mzero. cbn [foldr].
  unfold madd, mzero. rewrite !mget_mat3_of by lia.
  unfold vsub, vscale, Examples.origin, Examples.unit_x, Examples.corner.
  cbn [vget vec3_of vx vy vz]. field.
Qed.

Lemma ConstructFC_gating_witness :
  exists T,
    FC.ConstructFC [1; 1] [[0; 1]; [1; 0]] [Examples.unit_x; Examples.corner]
      Examples.origin ["Si"; "BC"]%string true = Ok T /\
    (forall n1, (n1 < length [Examples.unit_x; Examples.corner])%nat ->
       T !! n1 =
       Some (madd
               (mscale (if true && is_bc (["Si"; "BC"]%string !!! n1) then mzero
                        else FCSpec.stretching_term [1; 1]
                               [Examples.unit_x; Examples.corner] Examples.origin n1) 8)
               (mscale (msum (FCSpec.contribution [[0; 1]; [1; 0]]
                                [Examples.unit_x; Examples.corner] Examples.origin
                                ["Si"; "BC"]%string true n1
                                <$> seq 0 (length [Examples.unit_x; Examples.corner])))
                       2))) /\
    (forall n1 n2,
       FCSpec.contribution [[0; 1]; [1; 0]] [Examples.unit_x; Examples.corner]
         Examples.origin ["Si"; "BC"]%string true n1 n2 <> mzero ->
       n1 <> n2 /\
       (is_bc (["Si"; "BC"]%string !!! n1) = true \/
        is_bc (["Si"; "BC"]%string !!! n2) = true) /\
       (true = true ->
        is_bc (["Si"; "BC"]%string !!! n1) <> is_bc (["Si"; "BC"]%string !!! n2))).
Proof.
  apply (ConstructFC_gating [1; 1] [[0; 1]; [1; 0]] [Examples.unit_x; Examples.corner]
           Examples.origin ["Si"; "BC"]%string true).
  by apply pair_shell_well_formed.
Defined.

(** C3, as stated, fails at a bond-charge site whose neighbours are one
    real ion and one bond charge.  The bond to the ion keeps its
    stretching term: without bending constant its tensor has the entry
    [-8].  And the pair of the ion and the bond charge contributes to the
    bending term, since the entry moves to [-12] when the bending constant
    of the pair is set to one, although the shell has no two real ions:
    the pair is in neither case of the claim. *)
Lemma ConstructFC_gating_counterexample :
  exists T0 T1 U0 U1,
    FC.ConstructFC [1; 1] [[0; 0]; [1; 0]] [Examples.unit_x; Examples.corner]
      Examples.origin ["Si"; "BC"]%string true = Ok [T0; T1] /\
    FC.ConstructFC [1; 1] [[0; 1]; [1; 0]] [Examples.unit_x; Examples.corner]
      Examples.origin ["Si"; "BC"]%string true = Ok [U0; U1] /\
    mget T0 0 0 = -8 /\
    mget U0 0 0 = -12 /\
    ~ FCSpec.claimed_gate [Examples.unit_x; Examples.corner] Examples.origin
        ["Si"; "BC"]%string true 0 1.
Proof.
  eexists _, _, _, _. split; [|split; [|split; [|split]]].
  - rewrite ConstructFC_closed by by apply pair_shell_well_formed. reflexivity.
  - rewrite ConstructFC_closed by by apply pair_shell_well_formed. reflexivity.
  - rewrite bc_site_entry. lra.
  - rewrite bc_site_entry. lra.
  - intros [(_ & _ & H & _)|(_ & m1 & m2 & H1 & H2 & Hne & _ & Hm1 & Hm2 & _)].
    + done.
    + simpl in H1, H2.
      destruct m1 as [|[|m1]], m2 as [|[|m2]]; try lia; done.
Qed.
(** ** DynBuild: assembly, Hermiticity, rigid translations *)


Lemma self_bonded_well_formed (T : mat3) (m : R) :
  DynSpec.well_formed [Examples.origin] [m] [[T]]
    Examples.self_bonded_nn Examples.self_bonded_label.
Proof.
  split; [done|]. intros i Hi. simpl in Hi.
  assert (i = 0%nat) as -> by lia.
  exists [Examples.unit_x], [0%nat], [T]. repeat split.
  intros j Hj. simpl in Hj. assert (j = 0%nat) as -> by lia.
  exists 0%nat, T. repeat split. simpl. lia.
Qed.


Lemma Csum_omap {A B : Type} (f : A -> option B) (G : B -> C) (l : list A) :
  Csum ((fun x => match f x with Some y => G y | None => C0 end) <$> l) =
  Csum (G <$> omap f l).
Proof.
  induction l as [|x l IH]; [done|].
  rewrite fmap_cons, Csum_cons, IH. cbn [omap list_omap].
  destruct (f x); [done|]. by rewrite Cadd_0_l.
Qed.

Lemma phase_opp (kq x : vec3) :
  DynSpec.phase kq (vopp x) = Cconj (DynSpec.phase kq x).
Proof.
  unfold DynSpec.phase, Cconj. cbn [re im].
  replace (vdot kq (vopp x)) with (- vdot kq x)
    by (unfold vdot, vopp; simpl; ring).
  rewrite cos_neg, sin_neg. done.
Qed.

Section Hermitian.
Variables (basis : list vec3) (mass : list R)
          (fc : list (list mat3)) (nn : list (list vec3))
          (label : list (list nat)).
Hypothesis SYM : DynSpec.bond_symmetric basis mass fc nn label.
Hypothesis ONSITE : DynSpec.onsite_symmetric mass fc nn.

Lemma offsite_sum (kq : vec3) (i k a b : nat) :
  Csum ((fun j =>
           if (DynSpec.owner label i j =? k)%nat
           then Cscale (DynSpec.phase kq (DynSpec.bond basis nn i j))
                  (mget (DynSpec.tensor fc i j) a b / sqrt (mass !!! i * mass !!! k))
           else C0) <$> DynSpec.shell nn i) =
  Csum ((fun xt => Cscale (DynSpec.phase kq (fst xt))
                     (mget (snd xt) a b / sqrt (mass !!! i * mass !!! k)))
          <$> DynSpec.bonds_to basis fc nn label i k).
Proof.
  unfold DynSpec.bonds_to. rewrite <- Csum_omap. apply Csum_ext.
  intros j _. by destruct (DynSpec.owner label i j =? k)%nat.
Qed.

Lemma block_entry_conj (kq : vec3) (i k a b : nat) :
  (i < length mass)%nat -> (k < length mass)%nat -> (a < 3)%nat -> (b < 3)%nat ->
  DynSpec.block_entry basis mass fc nn label kq i k a b =
  Cconj (DynSpec.block_entry basis mass fc nn label kq k i b a).
Proof.
  intros Hi Hk Ha Hb. unfold DynSpec.block_entry. rewrite Cconj_add. f_equal.
  - destruct (Nat.eqb_spec i k) as [->|Hne].
    + rewrite Nat.eqb_refl. rewrite !Rsum_div, (ONSITE k a b) by done.
      apply C_eq; simpl; ring.
    + destruct (Nat.eqb_spec k i) as [|_]; [congruence|]. apply C_eq; simpl; ring.
  - rewrite !offsite_sum, <- Csum_conj.
    rewrite (Csum_perm _ _ (fmap_Permutation _ _ _ (SYM i k Hi Hk))).
    rewrite <- list_fmap_compose. apply Csum_ext. intros [x T] _.
    unfold compose, DynSpec.reversed. cbn [fst snd].
    rewrite phase_opp, Cconj_scale. unfold mtranspose.
    rewrite mget_mat3_of by done. by rewrite (Rmult_comm (mass !!! i)).
Qed.

End Hermitian.

(** C1 (as amended).  When the tensor stack is bond-symmetric (every bond
    from [i] to an image of [k] is matched by a bond from [k] to an image
    of [i] with the opposite bond vector and the transposed tensor) and
    the tensors of the bonds of each atom add up to a symmetric tensor,
    every matrix DynBuild returns equals its own conjugate transpose. *)
Theorem DynBuild_hermitian (M_THZ : R)
    (basis : list vec3) (mass : list R) (bvec : mat3) (fc : list (list mat3))
    (nn : list (list vec3)) (label : list (list nat))
    (kpts : kpts_arg) (crys : bool) :
  DynSpec.well_formed basis mass fc nn label ->
  DynSpec.bond_symmetric basis mass fc nn label ->
  DynSpec.onsite_symmetric mass fc nn ->
  exists dyn, DynBuild M_THZ basis mass bvec fc nn label kpts crys = Ok dyn /\
    length dyn = length (kpts_array kpts) /\
    Forall (hermitian (3 * length mass)) dyn.
Proof.
  intros WF SYM ONSITE.
  destruct (DynBuild_closed M_THZ basis mass bvec fc nn label WF kpts crys)
    as (dyn & Hdyn & HF).
  exists dyn. split; [done|]. split; [symmetry; by eapply Forall2_length|].
  apply Forall_forall. intros D HD.
  apply list_elem_of_lookup in HD as [q HD].
  destruct (Forall2_lookup_r _ _ _ _ _ HF HD) as (k & _ & E).
  intros r c Hr Hc. rewrite !E, Cconj_scale. f_equal.
  assert (forall n, (n < 3 * length mass)%nat ->
            exists i a, n = (i * 3 + a)%nat /\ (a < 3)%nat /\ (i < length mass)%nat)
    as Hsplit.
  { intros n Hn. exists (n / 3)%nat, (n mod 3)%nat.
    pose proof (Nat.div_mod_eq n 3). pose proof (Nat.mod_upper_bound n 3).
    repeat split; [lia|lia|]. apply Nat.Div0.div_lt_upper_bound. lia. }
  destruct (Hsplit r Hr) as (i & a & -> & Ha & Hi).
  destruct (Hsplit c Hc) as (i' & b & -> & Hb & Hi').
  rewrite !dyn_entry_block by done.
  apply block_entry_conj; (done || lia).
Qed.

Lemma vec3_eq (u v : vec3) : vx u = vx v -> vy u = vy v -> vz u = vz v -> u = v.
Proof. destruct u, v. simpl. by intros -> -> ->. Qed.

Lemma chain_well_formed (T00 T01 T10 T11 : mat3) (m0 m1 : R) :
  DynSpec.well_formed Examples.chain_basis [m0; m1] [[T00; T01]; [T10; T11]]
    Examples.chain_nn Examples.chain_label.
Proof.
  split; [done|]. intros i Hi. simpl in Hi.
  destruct i as [|[|i]]; [| |lia].
  - exists [V3 (1/2) 0 0; V3 (-1/2) 0 0], [1; 1]%nat, [T00; T01].
    repeat split. intros j Hj. simpl in Hj.
    destruct j as [|[|j]]; [| |lia].
    + exists 1%nat, T00. repeat split. simpl. lia.
    + exists 1%nat, T01. repeat split. simpl. lia.
  - exists [V3 0 0 0; V3 1 0 0], [0; 0]%nat, [T10; T11].
    repeat split. intros j Hj. simpl in Hj.
    destruct j as [|[|j]]; [| |lia].
    + exists 0%nat, T10. repeat split. simpl. lia.
    + exists 0%nat, T11. repeat split. simpl. lia.
Qed.

Lemma chain_uniform_bond_symmetric (c m0 m1 : R) :
  DynSpec.bond_symmetric Examples.chain_basis [m0; m1] (Examples.uniform_fc c)
    Examples.chain_nn Examples.chain_label.
Proof.
  intros i k Hi Hk. simpl in Hi, Hk.
  assert (forall l1 l2 : list (vec3 * mat3), l1 = l2 -> Permutation l1 l2)
    as Heq by (by intros ? ? ->).
  destruct i as [|[|i]]; [| |lia]; destruct k as [|[|k]]; try lia;
    try (apply Heq; reflexivity).
  - apply Heq. unfold DynSpec.bonds_to, DynSpec.reversed. simpl.
    repeat match goal with
           | |- _ :: _ = _ :: _ => f_equal
           | |- (_, _) = (_, _) => f_equal
           end; try reflexivity; apply vec3_eq; simpl; lra.
  - apply Heq. unfold DynSpec.bonds_to, DynSpec.reversed. simpl.
    repeat match goal with
           | |- _ :: _ = _ :: _ => f_equal
           | |- (_, _) = (_, _) => f_equal
           end; try reflexivity; apply vec3_eq; simpl; lra.
Qed.

Lemma chain_uniform_onsite_symmetric (c m0 m1 : R) :
  DynSpec.onsite_symmetric [m0; m1] (Examples.uniform_fc c) Examples.chain_nn.
Proof.
  intros i a b Hi Ha Hb. simpl in Hi.
  destruct i as [|[|i]]; [| |lia];
    destruct a as [|[|[|a]]]; try lia; destruct b as [|[|[|b]]]; try lia; reflexivity.
Qed.

Lemma DynBuild_hermitian_witness :
  exists dyn, DynBuild 1 Examples.chain_basis [1; 1] Examples.identity
                (Examples.uniform_fc (-8)) Examples.chain_nn Examples.chain_label
                (OneK (V3 (1/4) 0 0)) true = Ok dyn /\
    length dyn = 1%nat /\
    Forall (hermitian 6) dyn.
Proof.
  apply (DynBuild_hermitian 1 Examples.chain_basis [1; 1] Examples.identity
           (Examples.uniform_fc (-8)) Examples.chain_nn Examples.chain_label
           (OneK (V3 (1/4) 0 0)) true).
  - apply chain_well_formed.
  - apply chain_uniform_bond_symmetric.
  - apply chain_uniform_onsite_symmetric.
Defined.

(** At the centre of the Brillouin zone the phase of every bond is one. *)
Lemma vdot_gamma (bvec : mat3) (crys : bool) (x : vec3) :
  vdot (to_cartesian bvec crys Examples.origin) x = 0.
Proof.
  unfold to_cartesian, vscale, mat_vec, vdot, Examples.origin.
  destruct crys; simpl; ring.
Qed.

Lemma phase_gamma (bvec : mat3) (crys : bool) (x : vec3) :
  DynSpec.phase (to_cartesian bvec crys Examples.origin) x = mkC 1 0.
Proof.
  unfold DynSpec.phase. rewrite vdot_gamma, cos_0, sin_0. apply C_eq; simpl; ring.
Qed.

(** C1, as stated, fails: on a chain whose bond carries one tensor at one
    end and another at the other end, the matrix DynBuild returns is not
    its own conjugate transpose. *)
Lemma DynBuild_hermitian_counterexample :
  exists D, DynBuild 1 Examples.chain_basis [1; 1] Examples.identity
              Examples.lopsided_fc Examples.chain_nn Examples.chain_label
              (OneK Examples.origin) false = Ok [D] /\
    ~ hermitian 6 D.
Proof.
  destruct (DynBuild_closed 1 Examples.chain_basis [1; 1] Examples.identity
              Examples.lopsided_fc Examples.chain_nn Examples.chain_label
              (chain_well_formed _ _ _ _ 1 1) (OneK Examples.origin) false)
    as (dyn & Hdyn & HF).
  cbn [kpts_array] in HF.
  inversion HF as [|k D ks dyn' E HF' E1 E2]; subst. inversion HF'; subst.
  exists D. split; [done|].
  intros Hh. specialize (Hh 0%nat 3%nat ltac:(lia) ltac:(lia)).
  rewrite !E in Hh.
  change 0%nat with (0 * 3 + 0)%nat in Hh at 1 4.
  change 3%nat with (1 * 3 + 0)%nat in Hh.
  rewrite !dyn_entry_block in Hh by (simpl; lia).
  unfold DynSpec.block_entry in Hh. cbn [Nat.eqb] in Hh.
  unfold DynSpec.shell, DynSpec.owner, DynSpec.tensor, DynSpec.bond, DynSpec.pos in Hh.
  cbn [Examples.chain_nn Examples.chain_label Examples.lopsided_fc Examples.chain_basis
       lookup_total list_lookup_total length seq fmap list_fmap Nat.eqb] in Hh.
  rewrite !phase_gamma in Hh.
  rewrite Rmult_1_r, sqrt_1 in Hh.
  apply (f_equal re) in Hh. unfold Examples.along_x in Hh.
  rewrite !mget_mat3_of in Hh by lia.
  simpl in Hh. lra.
Qed.

Lemma Csum_block (f : nat -> C) (n c0 : nat) :
  (c0 + 3 <= n)%nat ->
  (forall c, (c < c0)%nat \/ (c0 + 3 <= c)%nat -> f c = C0) ->
  Csum (f <$> seq 0 n) =
  Cadd (f (c0 + 0)%nat) (Cadd (f (c0 + 1)%nat) (f (c0 + 2)%nat)).
Proof.
  intros Hn Hz.
  replace n with (c0 + (3 + (n - c0 - 3)))%nat by lia.
  rewrite !seq_app, !fmap_app, !Csum_app.
  rewrite (Csum_zero f (seq 0 c0)), (Csum_zero f (seq _ (n - c0 - 3))).
  - cbn [seq fmap list_fmap Csum foldr]. rewrite Cadd_0_l, !Cadd_0_r.
    by replace (0 + c0)%nat with (c0 + 0)%nat by lia;
       replace (S (c0 + 0)) with (c0 + 1)%nat by lia;
       replace (S (c0 + 1)) with (c0 + 2)%nat by lia.
  - intros x Hx. apply elem_of_seq in Hx. apply Hz. lia.
  - intros x Hx. apply elem_of_seq in Hx. apply Hz. lia.
Qed.

Lemma translation_at (mass : list R) (b i b' : nat) :
  (b' < 3)%nat ->
  translation mass b (i * 3 + b')%nat = if (b' =? b)%nat then sqrt (mass !!! i) else 0.
Proof.
  intros Hb. unfold translation.
  replace ((i * 3 + b') mod 3)%nat with b'
    by (apply (Nat.mod_unique _ _ i); lia).
  replace ((i * 3 + b') / 3)%nat with i
    by (apply (Nat.div_unique _ _ _ b'); lia).
  done.
Qed.

Lemma in_block_outside (r0 c0 r c : nat) :
  (c < c0)%nat \/ (c0 + 3 <= c)%nat -> in_block r0 c0 r c = false.
Proof.
  intros H. unfold in_block.
  destruct (Nat.leb_spec c0 c), (Nat.ltb_spec c (c0 + 3)); try lia;
    by rewrite ?andb_false_r.
Qed.

Section Translations.
Variables (basis : list vec3) (mass : list R)
          (fc : list (list mat3)) (nn : list (list vec3))
          (label : list (list nat)).
Hypothesis WF : DynSpec.well_formed basis mass fc nn label.
Hypothesis POS : forall i, (i < length mass)%nat -> 0 < mass !!! i.

Lemma owner_lt (i j : nat) :
  (i < length mass)%nat -> j ∈ DynSpec.shell nn i ->
  (DynSpec.owner label i j < length mass)%nat.
Proof.
  intros Hi Hj. pose proof WF as (_ & Hrows).
  destruct (Hrows i Hi) as (nni & li & fi & Hnn & Hlab & Hfc & Hcols).
  unfold DynSpec.shell in Hj. rewrite (list_lookup_total_correct _ _ _ Hnn) in Hj.
  apply elem_of_seq in Hj. destruct (Hcols j) as (ka & T & Hka & _ & Hlt); [lia|].
  unfold DynSpec.owner.
  by rewrite (list_lookup_total_correct _ _ _ Hlab), (list_lookup_total_correct _ _ _ Hka).
Qed.

(** One bond, at the centre of the zone, contributes nothing to the
    product of the matrix with a mass-weighted translation. *)
Lemma bond_kills_translation (kq : vec3) (i j b i' a : nat) :
  (forall x, DynSpec.phase kq x = mkC 1 0) ->
  (i < length mass)%nat -> j ∈ DynSpec.shell nn i ->
  (b < 3)%nat -> (a < 3)%nat ->
  Csum ((fun c => Cscale (DynSpec.bond_contribution basis mass fc nn label kq i j
                            (i' * 3 + a)%nat c)
                         (translation mass b c))
          <$> seq 0 (3 * length mass)) = C0.
Proof.
  intros Hph Hi Hj Hb Ha.
  pose proof (owner_lt i j Hi Hj) as Hka.
  unfold DynSpec.bond_contribution. cbv zeta. rewrite Hph.
  set (ka := DynSpec.owner label i j) in *.
  set (T := DynSpec.tensor fc i j).
  rewrite (Csum_ext _ (fun c =>
    Cadd (if in_block (i * 3) (i * 3) (i' * 3 + a) c
          then Cscale (mkC (- (mget T (i' * 3 + a - i * 3)%nat (c - i * 3)%nat
                               / mass !!! i)) 0)
                      (translation mass b c)
          else C0)
         (if in_block (i * 3) (ka * 3) (i' * 3 + a) c
          then Cscale (Cscale (mkC 1 0)
                         (mget T (i' * 3 + a - i * 3)%nat (c - ka * 3)%nat
                          / sqrt (mass !!! i * mass !!! ka)))
                      (translation mass b c)
          else C0)));
    [|intros c _; rewrite Cscale_add;
      by destruct (in_block _ _ _ c), (in_block _ _ _ c); rewrite ?Cscale_0_l].
  rewrite Csum_add.
  rewrite (Csum_block _ _ (i * 3)), (Csum_block _ _ (ka * 3));
    [|lia|by intros c Hc; rewrite in_block_outside
     |lia|by intros c Hc; rewrite in_block_outside].
  rewrite !in_block_blocks by lia. rewrite !translation_at by lia.
  rewrite !Nat.eqb_refl, !andb_true_r.
  destruct (Nat.eqb_spec i i') as [<-|Hne];
    [|apply C_eq; simpl; ring].
  replace (i * 3 + a - i * 3)%nat with a by lia.
  replace (i * 3 + 0 - i * 3)%nat with 0%nat by lia.
  replace (i * 3 + 1 - i * 3)%nat with 1%nat by lia.
  replace (i * 3 + 2 - i * 3)%nat with 2%nat by lia.
  replace (ka * 3 + 0 - ka * 3)%nat with 0%nat by lia.
  replace (ka * 3 + 1 - ka * 3)%nat with 1%nat by lia.
  replace (ka * 3 + 2 - ka * 3)%nat with 2%nat by lia.
  pose proof (POS i Hi) as Pi. pose proof (POS ka Hka) as Pka.
  rewrite sqrt_mult by lra.
  pose proof (sqrt_lt_R0 _ Pi) as Si. pose proof (sqrt_lt_R0 _ Pka) as Ska.
  assert (mass !!! i = sqrt (mass !!! i) * sqrt (mass !!! i)) as Em
    by (symmetry; apply sqrt_sqrt; lra).
  set (si := sqrt (mass !!! i)) in *. set (sk := sqrt (mass !!! ka)) in *.
  rewrite Em.
  destruct b as [|[|[|b]]]; try lia; apply C_eq; simpl; field; lra.
Qed.

Lemma dyn_kills_translation (kq : vec3) (b r : nat) :
  (forall x, DynSpec.phase kq x = mkC 1 0) ->
  (b < 3)%nat -> (r < 3 * length mass)%nat ->
  Csum ((fun c => Cscale (DynSpec.dyn_entry basis mass fc nn label kq r c)
                         (translation mass b c))
          <$> seq 0 (3 * length mass)) = C0.
Proof.
  intros Hph Hb Hr.
  assert (exists i' a, r = (i' * 3 + a)%nat /\ (a < 3)%nat) as (i' & a & -> & Ha).
  { exists (r / 3)%nat, (r mod 3)%nat.
    pose proof (Nat.div_mod_eq r 3). pose proof (Nat.mod_upper_bound r 3). lia. }
  unfold DynSpec.dyn_entry.
  rewrite (Csum_ext _ (fun c => Csum ((fun i =>
      Csum ((fun j => Cscale (DynSpec.bond_contribution basis mass fc nn label kq i j
                                (i' * 3 + a)%nat c) (translation mass b c))
              <$> DynSpec.shell nn i)) <$> seq 0 (length mass))));
    [|intros c _; rewrite <- Csum_scale; apply Csum_ext; intros i _;
      by rewrite <- Csum_scale].
  rewrite <- Csum_exchange. apply Csum_zero. intros i Hi.
  apply elem_of_seq in Hi as [_ Hi].
  rewrite <- Csum_exchange. apply Csum_zero. intros j Hj.
  apply bond_kills_translation; (done || lia).
Qed.

End Translations.

Lemma Cscale_swap (z : C) (c d : R) : Cscale (Cscale z c) d = Cscale (Cscale z d) c.
Proof. apply C_eq; simpl; ring. Qed.

(** C4 (as amended).  At [k = (0,0,0)], for positive masses and whatever
    the force constants, the short-range dynamical matrix sends the three
    mass-weighted rigid translations to zero; they are linearly
    independent, so zero is an eigenvalue of multiplicity at least
    three. *)
Theorem DynBuild_rigid_translations (M_THZ : R)
    (basis : list vec3) (mass : list R) (bvec : mat3) (fc : list (list mat3))
    (nn : list (list vec3)) (label : list (list nat)) (crys : bool) :
  DynSpec.well_formed basis mass fc nn label ->
  (1 <= length mass)%nat ->
  (forall i, (i < length mass)%nat -> 0 < mass !!! i) ->
  exists D, DynBuild M_THZ basis mass bvec fc nn label (OneK Examples.origin) crys
            = Ok [D] /\
    (forall b, (b < 3)%nat -> in_kernel (3 * length mass) D (translation mass b)) /\
    lin_indep (3 * length mass)
      [translation mass 0; translation mass 1; translation mass 2].
Proof.
  intros WF HN POS.
  destruct (DynBuild_closed M_THZ basis mass bvec fc nn label WF
              (OneK Examples.origin) crys) as (dyn & Hdyn & HF).
  cbn [kpts_array] in HF.
  inversion HF as [|k D ks dyn' E HF' E1 E2]; subst. inversion HF'; subst.
  exists D. split; [done|]. split.
  - intros b Hb r Hr. unfold cmat_vec.
    rewrite (Csum_ext _ (fun c =>
      Cscale (Cscale (DynSpec.dyn_entry basis mass fc nn label
                        (to_cartesian bvec crys Examples.origin) r c)
                     (translation mass b c)) M_THZ));
      [|intros c _; by rewrite E, Cscale_swap].
    rewrite Csum_scale, (dyn_kills_translation _ _ _ _ _ WF POS); try done.
    + apply Cscale_0_l.
    + intros x. apply phase_gamma.
  - intros cs Hlen Hz. simpl in Hlen.
    destruct cs as [|c0 [|c1 [|c2 [|c3 cs]]]]; try done.
    pose proof (POS 0%nat ltac:(lia)) as P0.
    pose proof (sqrt_lt_R0 _ P0) as S0.
    pose proof (Hz 0%nat ltac:(lia)) as H0.
    pose proof (Hz 1%nat ltac:(lia)) as H1.
    pose proof (Hz 2%nat ltac:(lia)) as H2.
    unfold lin_comb, translation in H0, H1, H2. simpl in H0, H1, H2.
    repeat constructor; nra.
Qed.

Lemma DynBuild_rigid_translations_witness :
  exists D, DynBuild 1 Examples.chain_basis [1; 1] Examples.identity
              (Examples.uniform_fc (-8)) Examples.chain_nn Examples.chain_label
              (OneK Examples.origin) true = Ok [D] /\
    (forall b, (b < 3)%nat -> in_kernel 6 D (translation [1; 1] b)) /\
    lin_indep 6 [translation [1; 1] 0; translation [1; 1] 1; translation [1; 1] 2].
Proof.
  apply (DynBuild_rigid_translations 1 Examples.chain_basis [1; 1] Examples.identity
           (Examples.uniform_fc (-8)) Examples.chain_nn Examples.chain_label true).
  - apply chain_well_formed.
  - simpl. lia.
  - intros i Hi. simpl in Hi. destruct i as [|[|i]]; [| |lia]; simpl; lra.
Defined.

(** When no tensor has an entry outside its first column, the matrix has
    no entry outside the columns of the first axis. *)
Lemma dyn_entry_column_zero (basis : list vec3) (mass : list R)
    (fc : list (list mat3)) (nn : list (list vec3)) (label : list (list nat))
    (kq : vec3) (r c : nat) :
  (forall i j a b, (a < 3)%nat -> (1 <= b < 3)%nat ->
     mget (DynSpec.tensor fc i j) a b = 0) ->
  (c mod 3 <> 0)%nat ->
  DynSpec.dyn_entry basis mass fc nn label kq r c = C0.
Proof.
  intros Hcol Hc. unfold DynSpec.dyn_entry.
  apply Csum_zero. intros i _. apply Csum_zero. intros j _.
  unfold DynSpec.bond_contribution. cbv zeta.
  assert (forall r0 k, in_block r0 (k * 3) r c = true ->
            mget (DynSpec.tensor fc i j) (r - r0) (c - k * 3) = 0) as Hz.
  { intros r0 k Hb. unfold in_block in Hb.
    apply andb_prop in Hb as [Hb H4]. apply andb_prop in Hb as [Hb H3].
    apply andb_prop in Hb as [H1 H2].
    apply Nat.leb_le in H1, H3. apply Nat.ltb_lt in H2, H4.
    apply Hcol; [lia|].
    assert (c mod 3 = c - k * 3)%nat
      by (symmetry; apply (Nat.mod_unique _ _ k); lia).
    lia. }
  destruct (in_block (i * 3) (i * 3) r c) eqn:E1;
    destruct (in_block (i * 3) (DynSpec.owner label i j * 3) r c) eqn:E2;
    rewrite ?Hz by done; apply C_eq; simpl; unfold Rdiv; ring.
Qed.

Lemma unit_vec_product (n c0 r : nat) (D : cmat) :
  (c0 < n)%nat -> cmat_vec n D (Examples.unit_vec c0) r = D r c0.
Proof.
  intros Hc. unfold cmat_vec.
  rewrite (Csum_single _ _ c0 Hc).
  - unfold Examples.unit_vec. rewrite Nat.eqb_refl. apply C_eq; simpl; ring.
  - intros c Hlt Hne. unfold Examples.unit_vec.
    destruct (Nat.eqb_spec c c0); [done|]. apply Cscale_0_r.
Qed.

(** The tensors of bulk force constants on the chain. *)
Lemma chain_bulk_well_formed (a b : R) (p q : vec3) (l1 l2 : string) :
  FCSpec.well_formed (replicate 2 a) (replicate 2 (replicate 2 b)) [p; q] [l1; l2] false.
Proof.
  repeat split; simpl; try lia; try done.
  by repeat constructor.
Qed.

Lemma on_axis_bulk_tensor (a b x1 x2 x0 : R) (l1 l2 : string) (n a' b' : nat) :
  is_bc l1 = false -> is_bc l2 = false ->
  (n < 2)%nat -> (a' < 3)%nat -> (1 <= b' < 3)%nat ->
  mget (FCSpec.tensor (replicate 2 a) (replicate 2 (replicate 2 b))
          [V3 x1 0 0; V3 x2 0 0] (V3 x0 0 0) [l1; l2] false n) a' b' = 0.
Proof.
  intros Hl1 Hl2 Hn Ha Hb.
  unfold FCSpec.tensor, FCSpec.bending_term, FCSpec.contribution,
    FCSpec.pair_included, FCSpec.bc_to_bc, FCSpec.stretching_term, FCSpec.bond.
  destruct n as [|[|n]]; [| |lia];
    cbn [andb negb length seq fmap list_fmap msum foldr
         lookup_total list_lookup_total];
    rewrite ?Hl1, ?Hl2; cbn [andb]; rewrite ?andb_false_r, ?madd_zero_r;
    unfold madd, mscale, outer, mzero; rewrite !mget_mat3_of by lia;
    destruct b' as [|[|[|b']]]; try lia;
    cbn [vsub vec3_of vget vx vy vz];
    unfold Rdiv; ring.
Qed.


(** C4, as stated, fails: with the uniform force constants
    [alpha = beta = 1] on the chain, [ConstructFC] gives every bond its
    tensor and the matrix [DynBuild] assembles from them at [k = (0,0,0)]
    sends four linearly independent vectors to zero, the displacements of
    either atom across the chain.  Zero is then an eigenvalue of
    multiplicity at least four. *)
Lemma bulk_chain_zero_modes :
  exists T0 T1 D,
    FC.ConstructFC [1; 1] [[1; 1]; [1; 1]] [V3 (1/2) 0 0; V3 (-1/2) 0 0]
      (V3 0 0 0) ["B"; "B"]%string false = Ok T0 /\
    FC.ConstructFC [1; 1] [[1; 1]; [1; 1]] [V3 0 0 0; V3 1 0 0]
      (V3 (1/2) 0 0) ["A"; "A"]%string false = Ok T1 /\
    DynBuild 1 Examples.chain_basis [1; 1] Examples.identity [T0; T1]
      Examples.chain_nn Examples.chain_label (OneK Examples.origin) true = Ok [D] /\
    lin_indep 6 [Examples.unit_vec 1; Examples.unit_vec 2;
                 Examples.unit_vec 4; Examples.unit_vec 5] /\
    Forall (in_kernel 6 D) [Examples.unit_vec 1; Examples.unit_vec 2;
                            Examples.unit_vec 4; Examples.unit_vec 5].
Proof.
  pose proof (ConstructFC_closed _ _ _ (V3 0 0 0) _ _
                (chain_bulk_well_formed 1 1 (V3 (1/2) 0 0) (V3 (-1/2) 0 0) "B" "B"))
    as H0.
  pose proof (ConstructFC_closed _ _ _ (V3 (1/2) 0 0) _ _
                (chain_bulk_well_formed 1 1 (V3 0 0 0) (V3 1 0 0) "A" "A"))
    as H1.
  cbn [replicate length seq fmap list_fmap] in H0, H1.
  eexists _, _. 
  match type of H0 with _ = Ok ?T0 =>
    match type of H1 with _ = Ok ?T1 =>
      destruct (DynBuild_closed 1 Examples.chain_basis [1; 1] Examples.identity
                  [T0; T1] Examples.chain_nn Examples.chain_label
                  (chain_well_formed _ _ _ _ 1 1) (OneK Examples.origin) true)
        as (dyn & Hdyn & HF)
    end
  end.
  cbn [kpts_array] in HF.
  inversion HF as [|k D ks dyn' E HF' E1 E2]; subst. inversion HF'; subst.
  exists D. split; [exact H0|]. split; [exact H1|]. split; [exact Hdyn|]. split.
  - intros cs Hlen Hz. simpl in Hlen.
    destruct cs as [|c0 [|c1 [|c2 [|c3 [|c4 cs]]]]]; try done.
    pose proof (Hz 1%nat ltac:(lia)) as Hz1.
    pose proof (Hz 2%nat ltac:(lia)) as Hz2.
    pose proof (Hz 4%nat ltac:(lia)) as Hz4.
    pose proof (Hz 5%nat ltac:(lia)) as Hz5.
    unfold lin_comb, Examples.unit_vec in Hz1, Hz2, Hz4, Hz5.
    simpl in Hz1, Hz2, Hz4, Hz5.
    repeat constructor; lra.
  - assert (forall r c, (c mod 3 <> 0)%nat -> D r c = C0) as Hcol.
    { intros r c Hc. rewrite E, dyn_entry_column_zero; [apply Cscale_0_l| |done].
      intros i j a b Ha Hb. unfold DynSpec.tensor.
      destruct i as [|[|i]]; [| |by destruct a as [|[|[|a]]], b as [|[|[|b]]]; try lia].
      - destruct j as [|[|j]];
          [| |by destruct a as [|[|[|a]]], b as [|[|[|b]]]; try lia];
          apply (on_axis_bulk_tensor 1 1); (done || lia).
      - destruct j as [|[|j]];
          [| |by destruct a as [|[|[|a]]], b as [|[|[|b]]]; try lia];
          apply (on_axis_bulk_tensor 1 1); (done || lia). }
    repeat constructor; intros r Hr; rewrite unit_vec_product by lia;
      apply Hcol; by compute.
Qed.

(** ** k_conv *)

(** C10.  Once k-points are set, [k_conv] to a recognised target
    multiplies every stored k-point by the conversion matrix, [lvec] for
    ["crys"] and [bvec] for ["cart"], whatever the system the k-points are
    in: the flag [iskcrys] is not consulted.  On the model [doubled],
    whose k-point is already in crystal coordinates, a call with target
    ["crys"] changes the k-point, and a second call changes it again. *)
Theorem k_conv_unconditional (st : ABCM.state) :
  ABCM.kpts st <> [] ->
  ABCM.k_conv st (Some "crys"%string) =
    Ok (ABCM.with_kpts st (mat_vec (ABCM.lvec st) <$> ABCM.kpts st) true (ABCM.nkpt st)) /\
  ABCM.k_conv st (Some "cart"%string) =
    Ok (ABCM.with_kpts st (mat_vec (ABCM.bvec st) <$> ABCM.kpts st) false (ABCM.nkpt st)) /\
  exists st1 st2,
    ABCM.iskcrys Examples.doubled = true /\
    ABCM.k_conv Examples.doubled (Some "crys"%string) = Ok st1 /\
    ABCM.k_conv st1 (Some "crys"%string) = Ok st2 /\
    ABCM.kpts st1 <> ABCM.kpts Examples.doubled /\
    ABCM.kpts st2 <> ABCM.kpts st1.
Proof.
  intros Hk. unfold ABCM.k_conv.
  destruct (ABCM.kpts st) as [|k ks] eqn:E; [done|].
  split; [done|]. split; [done|].
  eexists _, _. split; [reflexivity|]. split; [reflexivity|]. split; [reflexivity|].
  split; intros H; apply (f_equal (fun l => vx (l !!! 0%nat))) in H;
    simpl in H; unfold Examples.unit_x in H;
    repeat (unfold vdot, vec3_of in H; simpl in H); lra.
Qed.

Lemma k_conv_unconditional_witness :
  ABCM.k_conv Examples.doubled (Some "crys"%string) =
    Ok (ABCM.with_kpts Examples.doubled
          (mat_vec (ABCM.lvec Examples.doubled) <$> ABCM.kpts Examples.doubled)
          true (ABCM.nkpt Examples.doubled)) /\
  ABCM.k_conv Examples.doubled (Some "cart"%string) =
    Ok (ABCM.with_kpts Examples.doubled
          (mat_vec (ABCM.bvec Examples.doubled) <$> ABCM.kpts Examples.doubled)
          false (ABCM.nkpt Examples.doubled)) /\
  exists st1 st2,
    ABCM.iskcrys Examples.doubled = true /\
    ABCM.k_conv Examples.doubled (Some "crys"%string) = Ok st1 /\
    ABCM.k_conv st1 (Some "crys"%string) = Ok st2 /\
    ABCM.kpts st1 <> ABCM.kpts Examples.doubled /\
    ABCM.kpts st2 <> ABCM.kpts st1.
Proof.
  apply (k_conv_unconditional Examples.doubled). simpl. discriminate.
Defined.

(** ** Sorting and argsort *)

#[local] Instance Rle_transitive : Transitive Rle.
Proof. intros x y z. apply Rle_trans. Qed.

#[local] Instance Rle_antisymm : AntiSymm (=) Rle.
Proof. intros x y. apply Rle_antisym. Qed.

Lemma Sorted_from_lookup (K : list R) :
  (forall i j, (i <= j)%nat -> (j < length K)%nat -> K !!! i <= K !!! j) ->
  Sorted Rle K.
Proof.
  induction K as [|x K IH]; intros H; constructor.
  - apply IH. intros i j Hij Hj.
    apply (H (S i) (S j)); simpl; lia.
  - destruct K as [|y K]; constructor.
    apply (H 0%nat 1%nat); simpl; lia.
Qed.

Lemma lookup_total_fmap_lt {A B : Type} `{Inhabited A, Inhabited B}
    (f : A -> B) (l : list A) (i : nat) :
  (i < length l)%nat -> (f <$> l) !!! i = f (l !!! i).
Proof.
  intros Hi. apply list_lookup_total_correct.
  rewrite list_lookup_fmap, (list_lookup_lookup_total_lt l i Hi). done.
Qed.

(** The values read through an argsort are the sorted values. *)
Lemma argsort_keys (argsort : list R -> list nat) (dist : list R) :
  argsort_spec argsort ->
  length (argsort dist) = length dist /\
  Sorted Rle ((fun i => dist !!! i) <$> argsort dist) /\
  Permutation ((fun i => dist !!! i) <$> argsort dist) dist.
Proof.
  intros Hspec. destruct (Hspec dist) as [Hperm Hsort].
  assert (length (argsort dist) = length dist) as Hlen
    by (by rewrite Hperm, length_seq).
  split; [done|]. split.
  - apply Sorted_from_lookup. intros i j Hij Hj.
    rewrite length_fmap, Hlen in Hj.
    rewrite !lookup_total_fmap_lt by lia. by apply Hsort.
  - rewrite Hperm. by rewrite <- tab_lookup_total.
Qed.

(** Filtering indices on their value, read through the array. *)
Lemma filter_keys (dist : list R) (b : R -> bool) (l : list nat) :
  (fun i => dist !!! i) <$> filter (fun i => b (dist !!! i) = true) l =
  filter (fun v => b v = true) ((fun i => dist !!! i) <$> l).
Proof.
  induction l as [|i l IH]; [done|].
  rewrite fmap_cons, !filter_cons. destruct (decide (b (dist !!! i) = true)); [|done].
  by rewrite fmap_cons, IH.
Qed.

(** *** The argsort by insertion *)

Section StableArgsort.
Variable dist : list R.

Abbreviation key_le := (key_le dist).

Lemma insert_index_perm (i : nat) (l : list nat) :
  Permutation (insert_index dist i l) (i :: l).
Proof.
  induction l as [|j l IH]; [done|]. simpl.
  destruct (Rlt_dec _ _); [done|]. rewrite IH. apply perm_swap.
Qed.

Lemma insert_index_sorted (i : nat) (l : list nat) :
  Sorted key_le l -> Sorted key_le (insert_index dist i l).
Proof.
  induction l as [|j l IH]; intros Hs; simpl.
  - repeat constructor.
  - destruct (Rlt_dec _ _) as [Hlt|Hge].
    + constructor; [done|]. constructor. unfold key_le. lra.
    + apply Sorted_inv in Hs as [Hs Hhd]. constructor; [by apply IH|].
      destruct l as [|k l]; simpl.
      * constructor. unfold key_le. lra.
      * destruct (Rlt_dec _ _); constructor; unfold key_le; try lra.
        by apply HdRel_inv in Hhd.
Qed.

Lemma foldl_insert_index (l acc : list nat) :
  Permutation (foldl (fun l i => insert_index dist i l) acc l) (acc ++ l) /\
  (Sorted key_le acc -> Sorted key_le (foldl (fun l i => insert_index dist i l) acc l)).
Proof.
  revert acc. induction l as [|i l IH]; intros acc; simpl.
  - by rewrite app_nil_r.
  - destruct (IH (insert_index dist i acc)) as [Hp Hs]. split.
    + rewrite Hp, insert_index_perm. apply Permutation_middle.
    + intros Hacc. by apply Hs, insert_index_sorted.
Qed.

Lemma sorted_lookup_le (l : list nat) (p q : nat) :
  Sorted key_le l -> (p <= q)%nat -> (q < length l)%nat ->
  key_le (l !!! p) (l !!! q).
Proof.
  intros Hs. assert (Transitive key_le) by (intros x y z; unfold key_le; lra).
  apply Sorted_StronglySorted in Hs; [|done].
  revert p q. induction Hs as [|x l Hs IH Hall]; intros p q Hpq Hq; [simpl in Hq; lia|].
  destruct p as [|p], q as [|q]; try lia.
  - unfold key_le. simpl. lra.
  - simpl. rewrite Forall_forall in Hall. apply Hall.
    apply list_elem_of_lookup_total_2. simpl in Hq. lia.
  - simpl in *. apply IH; lia.
Qed.

End StableArgsort.

Lemma stable_argsort_spec : argsort_spec stable_argsort.
Proof.
  intros dist. unfold stable_argsort.
  destruct (foldl_insert_index dist (seq 0 (length dist)) []) as [Hp Hs].
  split; [done|]. intros p q Hpq Hq.
  apply (sorted_lookup_le dist); [apply Hs; constructor|done|].
  rewrite Hp. simpl. by rewrite length_seq.
Qed.

(** ** set_nn on the simple cubic lattice *)

Lemma cubic_image_dist (x y z : Z) (c : nat) :
  (x * x + y * y + z * z)%Z = Z.of_nat c ->
  norm (vsub Examples.origin
          (vadd Examples.origin
             (mat_vec Examples.identity (V3 (IZR x) (IZR y) (IZR z)))))
  = Examples.shell_len c.
Proof.
  intros H. unfold norm, Examples.shell_len. f_equal.
  rewrite INR_IZR_INZ, <- H, !plus_IZR, !mult_IZR.
  unfold vdot, vsub, vadd, mat_vec, vdot, Examples.origin, Examples.identity.
  simpl. ring.
Qed.

Lemma cubic_dists :
  (fun item => norm (vsub Examples.origin item)) <$>
    ABCM.allatoms Examples.cubic (1, 1, 1)%nat
  = Examples.shell_len <$> Examples.sq_dists.
Proof.
  unfold ABCM.allatoms, ABCM.rgrid, ABCM.mgrid, ABCM.irange, Examples.cubic,
    Examples.sq_dists.
  cbn [ABCM.bas ABCM.lvec Nat.mul Nat.add seq fmap list_fmap mbind list_bind
       mret list_ret app].
  repeat match goal with
         | |- _ :: _ = _ :: _ => f_equal; [apply cubic_image_dist; reflexivity|]
         end.
  f_equal. apply cubic_image_dist. reflexivity.
Qed.

Lemma shell_len_mono (a b : nat) :
  (a <= b)%nat -> Examples.shell_len a <= Examples.shell_len b.
Proof.
  intros H. unfold Examples.shell_len. apply sqrt_le_1_alt. by apply le_INR.
Qed.

Lemma shell_len_1 : Examples.shell_len 1 = 1.
Proof. unfold Examples.shell_len. simpl. apply sqrt_1. Qed.

Lemma shell_len_far (c : nat) : (2 <= c)%nat -> 1.4 <= Examples.shell_len c.
Proof.
  intros H. apply Rle_trans with (Examples.shell_len 2); [|by apply shell_len_mono].
  unfold Examples.shell_len. rewrite <- (sqrt_square 1.4) by lra.
  apply sqrt_le_1_alt. simpl. lra.
Qed.

(** Within [1e-4] of the first shell are the images at squared distance
    one, and no other. *)
Lemma near_first_shell (c : nat) :
  (1 <= c)%nat ->
  Rltb (Rabs (Examples.shell_len c - Examples.shell_len 1)) 1e-4 = true <-> c = 1%nat.
Proof.
  intros Hc. rewrite Rltb_true, shell_len_1. split.
  - intros H. destruct (decide (c = 1%nat)) as [|Hne]; [done|].
    pose proof (shell_len_far c ltac:(lia)).
    rewrite Rabs_pos_eq in H by lra. lra.
  - intros ->. rewrite shell_len_1.
    replace (1 - 1) with 0 by ring. rewrite Rabs_R0. lra.
Qed.

Lemma filter_near_first_shell (l : list nat) :
  Forall (fun c => 1 <= c)%nat l ->
  filter (fun v => Rltb (Rabs (v - Examples.shell_len 1)) 1e-4 = true)
         (Examples.shell_len <$> l)
  = Examples.shell_len <$> filter (fun c => c = 1%nat) l.
Proof.
  induction 1 as [|c l Hc _ IH]; [done|].
  rewrite fmap_cons, !filter_cons, IH.
  destruct (decide (c = 1%nat)) as [->|Hne].
  - rewrite decide_True; [done|]. by apply near_first_shell.
  - rewrite decide_False; [done|]. by rewrite near_first_shell.
Qed.

Lemma take_drop_lookup_total {A : Type} `{Inhabited A} (l : list A) (n m i : nat) :
  (i < n)%nat -> take n (drop m l) !!! i = l !!! (m + i)%nat.
Proof.
  intros Hi. rewrite !list_lookup_total_alt.
  by rewrite lookup_take_lt, lookup_drop.
Qed.

Section CubicShell.
Variable argsort : list R -> list nat.
Hypothesis SPEC : argsort_spec argsort.

Abbreviation cubic_all := (ABCM.allatoms Examples.cubic (1, 1, 1)%nat).
Abbreviation cubic_dist := ((fun item => norm (vsub Examples.origin item)) <$> cubic_all).

Lemma cubic_sorted_keys :
  (fun i => cubic_dist !!! i) <$> argsort cubic_dist =
  Examples.shell_len <$> merge_sort le Examples.sq_dists.
Proof.
  destruct (argsort_keys argsort cubic_dist SPEC) as (Hlen & Hsorted & Hperm).
  apply (Sorted_unique Rle); [done| |].
  - assert (Sorted le (merge_sort le Examples.sq_dists)) as Hs
      by apply (Sorted_merge_sort le).
    induction Hs as [|c l Hs IH Hhd]; [constructor|].
    rewrite fmap_cons. constructor; [done|].
    destruct Hhd; constructor. by apply shell_len_mono.
  - rewrite Hperm, cubic_dists. by rewrite (merge_sort_Permutation le).
Qed.

Lemma cubic_first_shell :
  let '(dist, first) :=
    ABCM.first_nn_ind argsort cubic_all Examples.origin 20 None in
  (fun i => dist !!! i) <$> first = replicate 6 1 /\
  Forall (fun i => i < 27)%nat first.
Proof.
  unfold ABCM.first_nn_ind. cbv zeta.
  destruct (argsort_keys argsort cubic_dist SPEC) as (Hlen & _ & _).
  assert (length cubic_dist = 27%nat) as H27 by (by rewrite cubic_dists).
  rewrite H27 in Hlen.
  pose proof cubic_sorted_keys as HK.
  set (p := argsort cubic_dist) in *.
  assert (cubic_dist !!! (take (20 - 1) (drop 1 p) !!! 0%nat) = Examples.shell_len 1)
    as Href.
  { rewrite take_drop_lookup_total by lia.
    rewrite <- (lookup_total_fmap_lt (fun i => cubic_dist !!! i) p) by lia.
    rewrite HK. reflexivity. }
  rewrite Href. split.
  - pose proof (filter_keys cubic_dist
                  (fun v => Rltb (Rabs (v - Examples.shell_len 1)) 1e-4)) as HF.
    cbv beta in HF. rewrite HF. clear HF.
    rewrite fmap_take, fmap_drop, HK, <- fmap_drop, <- fmap_take.
    rewrite filter_near_first_shell.
    + change (filter _ _) with (replicate 6 1%nat). simpl.
      by rewrite shell_len_1.
    + by repeat constructor.
  - apply Forall_forall. intros i Hi.
    apply list_elem_of_filter in Hi as [_ Hi].
    assert (i ∈ p) as Hp by (by apply (subseteq_drop 1), (subseteq_take (20 - 1))).
    destruct (SPEC cubic_dist) as [Hperm _]. fold p in Hperm.
    rewrite Hperm, H27 in Hp. apply elem_of_seq in Hp. lia.
Qed.

End CubicShell.

Lemma cubic_symbols (first : list nat) :
  Forall (fun i => i < 27)%nat first ->
  mapM (fun k => from_opt IndexError (["X"%string] !! k))
       ((fun ind => ind / 27)%nat <$> first)
  = Ok (replicate (length first) "X"%string) /\
  (fun ind => ind / 27)%nat <$> first = replicate (length first) 0%nat.
Proof.
  induction 1 as [|i first Hi _ [IH1 IH2]]; [done|].
  rewrite fmap_cons. cbn [mapM length replicate].
  rewrite Nat.div_small by done. rewrite IH1, IH2. done.
Qed.

(** C9.  For the simple cubic lattice with one atom, lattice constant one
    and search scope [1,1,1], [set_nn] returns for the atom a first shell
    of exactly six neighbours, each at distance one, whichever order the
    argsort gives to images at equal distance. *)
Theorem set_nn_simple_cubic (argsort : list R -> list nat) :
  argsort_spec argsort ->
  exists st', ABCM.set_nn argsort Examples.cubic (1, 1, 1)%nat 20 None = Ok st' /\
    (exists shell, ABCM.nn st' = [shell] /\ length shell = 6%nat) /\
    ABCM.nndist st' = [[1; 1; 1; 1; 1; 1]] /\
    ABCM.label st' = [[0; 0; 0; 0; 0; 0]]%nat.
Proof.
  intros SPEC. pose proof (cubic_first_shell argsort SPEC) as Hshell.
  unfold ABCM.set_nn. cbv zeta.
  change (ABCM.bas Examples.cubic) with [Examples.origin].
  change (length (ABCM.rgrid Examples.cubic (1, 1, 1)%nat)) with 27%nat.
  change (ABCM.symbol Examples.cubic) with ["X"%string].
  cbn [fmap list_fmap].
  destruct (ABCM.first_nn_ind argsort _ Examples.origin 20 None) as [dist first].
  destruct Hshell as [Hdist Hlt]. cbn [fst snd mapM].
  destruct (cubic_symbols first Hlt) as [Hsym Hlab].
  assert (length first = 6%nat) as Hlen
    by (by rewrite <- (length_fmap (fun i => dist !!! i)), Hdist).
  rewrite Hsym, Hlab, Hdist, Hlen. cbn [mbind result_bind mret result_ret].
  eexists. split; [reflexivity|]. cbn [ABCM.nn ABCM.nndist ABCM.label ABCM.with_nn].
  split; [|done]. eexists. split; [reflexivity|]. by rewrite length_fmap.
Qed.

Lemma set_nn_simple_cubic_witness :
  exists st', ABCM.set_nn stable_argsort Examples.cubic (1, 1, 1)%nat 20 None = Ok st' /\
    (exists shell, ABCM.nn st' = [shell] /\ length shell = 6%nat) /\
    ABCM.nndist st' = [[1; 1; 1; 1; 1; 1]] /\
    ABCM.label st' = [[0; 0; 0; 0; 0; 0]]%nat.
Proof.
  apply (set_nn_simple_cubic stable_argsort). apply stable_argsort_spec.
Defined.

(** ** set_sl_fc: missing interactions *)

Lemma has_key_false (d : gmap string R) (key : string) :
  ABCM.has_key d key = false <-> d !! key = None.
Proof.
  unfold ABCM.has_key. rewrite bool_decide_eq_false, <- eq_None_not_Some. done.
Qed.

(** Resolving a key either finds it under one of its two orderings, or
    raises the exception that names it. *)
Lemma resolve_cases (d : gmap string R) (key1 key2 : string) :
  (exists key v, ABCM.resolve d key1 key2 = Ok key /\ d !! key = Some v /\
                 ~ Lookups.unresolved d (key1, key2)) \/
  (ABCM.resolve d key1 key2 = Raise (Lookups.MissingInteraction key1) /\
   Lookups.unresolved d (key1, key2)).
Proof.
  unfold ABCM.resolve, Lookups.unresolved. cbn [fst snd].
  destruct (ABCM.has_key d key1) eqn:E1.
  - left. unfold ABCM.has_key in E1. apply bool_decide_eq_true in E1 as [v Hv].
    exists key1, v. repeat split; [done|]. intros [H _]. congruence.
  - destruct (ABCM.has_key d key2) eqn:E2.
    + left. unfold ABCM.has_key in E2. apply bool_decide_eq_true in E2 as [v Hv].
      exists key2, v. repeat split; [done|]. intros [_ H]. congruence.
    + right. split; [done|]. by rewrite <- !has_key_false.
Qed.

Lemma fmap_list_bind {A B D : Type} (f : B -> D) (g : A -> list B) (l : list A) :
  f <$> (l ≫= g) = l ≫= (fun x => f <$> g x).
Proof.
  induction l as [|x l IH]; [done|].
  cbn [mbind list_bind]. by rewrite fmap_app, IH.
Qed.

Section Scan.
Variables a_dict b_dict : gmap string R.

Abbreviation scanned := (Lookups.scanned a_dict b_dict).

Lemma scanned_ok {A : Type} (x : A) : scanned [] (Ok x).
Proof. constructor. Qed.

Lemma scanned_bind {A B : Type} (l1 l2 : list Lookups.lookup)
    (r : result A) (k : A -> result B) :
  scanned l1 r -> (forall x, r = Ok x -> scanned l2 (k x)) ->
  scanned (l1 ++ l2) (r ≫= k).
Proof.
  intros H1 H2. destruct r as [x|e]; cbn [mbind result_bind].
  - specialize (H2 x eq_refl). destruct (k x) as [y|e]; simpl in *.
    + by apply Forall_app.
    + destruct H2 as (l & Hl & Hm & He). exists l. rewrite elem_of_app. eauto.
  - destruct H1 as (l & Hl & Hm & He). exists l. rewrite elem_of_app. eauto.
Qed.

Lemma scanned_resolve {B : Type} (tag : bool) (key1 key2 : string)
    (ls : list Lookups.lookup) (k : string -> result B) :
  (forall key v, (if tag then a_dict else b_dict) !! key = Some v ->
                 scanned ls (k key)) ->
  scanned ((tag, (key1, key2)) :: ls)
          (ABCM.resolve (if tag then a_dict else b_dict) key1 key2 ≫= k).
Proof.
  intros Hk. apply (scanned_bind [_] ls).
  - destruct (resolve_cases (if tag then a_dict else b_dict) key1 key2)
      as [(key & v & -> & Hv & Hres)|[-> Hun]]; simpl.
    + by repeat constructor.
    + exists (tag, (key1, key2)). split; [by left|]. by split.
  - intros key Hkey.
    destruct (resolve_cases (if tag then a_dict else b_dict) key1 key2)
      as [(key' & v & E & Hv & _)|[E _]]; rewrite E in Hkey; [|done].
    injection Hkey as <-. by eapply Hk.
Qed.

Lemma scanned_mapM {A B : Type} (f : A -> result B)
    (g : A -> list Lookups.lookup) (l : list A) :
  (forall x, x ∈ l -> scanned (g x) (f x)) ->
  scanned (l ≫= g) (mapM f l).
Proof.
  induction l as [|x l IH]; intros H; [apply scanned_ok|].
  cbn [mapM mbind list_bind]. apply scanned_bind; [apply H; by left|].
  intros y _. rewrite <- (app_nil_r (l ≫= g)). apply scanned_bind.
  - apply IH. intros z Hz. apply H. by right.
  - intros ys _. apply scanned_ok.
Qed.

Lemma dict_get_ok (d : gmap string R) (key : string) (v : R) :
  d !! key = Some v -> ABCM.dict_get d key = Ok v.
Proof. intros H. unfold ABCM.dict_get. by rewrite H. Qed.

Lemma bending_row_scanned (onsite : string) (offsite : list string)
    (nfirst j : nat) :
  scanned ((fun keys => (false, keys))
             <$> Lookups.row_lookups onsite offsite nfirst j (seq 0 (length offsite)))
          (ABCM.bending_row b_dict onsite offsite nfirst j
             (ABCM.bond_key onsite (offsite !!! j) j nfirst)
             (ABCM.bond_key (offsite !!! j) onsite j nfirst)).
Proof.
  unfold ABCM.bending_row, Lookups.row_lookups.
  rewrite fmap_list_bind. apply scanned_mapM. intros k Hk.
  apply elem_of_seq in Hk as [_ Hk]. simpl in Hk.
  destruct (Nat.eqb_spec k j) as [->|Hne]; cbn [negb fmap list_fmap];
    [apply scanned_ok|].
  rewrite (list_lookup_lookup_total_lt offsite k Hk). cbn [from_opt mbind result_bind].
  apply (scanned_resolve false). intros key_b vb Hb.
  apply (scanned_resolve false). intros key_a va Ha.
  rewrite (dict_get_ok _ _ _ Hb), (dict_get_ok _ _ _ Ha).
  destruct (_ || _); apply scanned_ok.
Qed.

Lemma bond_coefficients_scanned (st : ABCM.state) (i : nat) (onsite : string)
    (offsite : list string) (nfirst j : nat) :
  ABCM.n1 st !! i = Some nfirst -> (j < length offsite)%nat ->
  scanned (Lookups.bond_lookups onsite offsite nfirst j)
          (ABCM.bond_coefficients st a_dict b_dict i onsite offsite j).
Proof.
  intros Hn Hj. unfold ABCM.bond_coefficients, Lookups.bond_lookups.
  rewrite (list_lookup_lookup_total_lt offsite j Hj), Hn.
  cbn [from_opt mbind result_bind].
  apply (scanned_resolve true). intros key v Hv.
  rewrite (dict_get_ok _ _ _ Hv). cbn [mbind result_bind].
  rewrite <- (app_nil_r (_ <$> _)). apply scanned_bind.
  - apply bending_row_scanned.
  - intros row _. apply scanned_ok.
Qed.

End Scan.

(** The scan of the dictionaries for basis atom [i], lines 297-339. *)
Lemma coefficients_scanned (st : ABCM.state) (a_dict b_dict : gmap string R)
    (i : nat) (onsite : string) (offsite : list string) (nfirst : nat) :
  ABCM.symbol st !! i = Some onsite -> ABCM.nnsymb st !! i = Some offsite ->
  ABCM.n1 st !! i = Some nfirst ->
  Lookups.scanned a_dict b_dict (Lookups.atom_lookups st i)
    (mapM (ABCM.bond_coefficients st a_dict b_dict i onsite offsite)
          (seq 0 (length offsite))).
Proof.
  intros Hon Hoff Hn. unfold Lookups.atom_lookups. cbv zeta.
  rewrite (list_lookup_total_correct _ _ _ Hon), (list_lookup_total_correct _ _ _ Hoff),
    (list_lookup_total_correct _ _ _ Hn).
  apply scanned_mapM. intros j Hj. apply elem_of_seq in Hj as [_ Hj].
  by apply bond_coefficients_scanned.
Qed.

(** The tensors of basis atom [i], lines 292-342: a lookup that finds
    neither ordering of its key raises the exception that names the key;
    when every lookup is resolved, the call of [ConstructFC] with four
    arguments raises [TypeError]. *)
Lemma sl_tensors_missing (st : ABCM.state) (a_dict b_dict : gmap string R) (i : nat) :
  is_Some (ABCM.symbol st !! i) -> is_Some (ABCM.nnsymb st !! i) ->
  is_Some (ABCM.n1 st !! i) ->
  Exists (Lookups.missing a_dict b_dict) (Lookups.atom_lookups st i) ->
  exists l, l ∈ Lookups.atom_lookups st i /\ Lookups.missing a_dict b_dict l /\
    ABCM.sl_tensors st a_dict b_dict i = Raise (Lookups.MissingInteraction l.2.1).
Proof.
  intros [onsite Hon] [offsite Hoff] [nfirst Hn] Hex.
  pose proof (coefficients_scanned st a_dict b_dict i _ _ _ Hon Hoff Hn) as Hscan.
  unfold ABCM.sl_tensors. rewrite Hon, Hoff. cbn [from_opt mbind result_bind].
  destruct (mapM _ (seq 0 (length offsite))) as [coeffs|e].
  - exfalso. apply Exists_exists in Hex as (l & Hl & Hm).
    simpl in Hscan. rewrite Forall_forall in Hscan. by apply (Hscan l).
  - destruct Hscan as (l & Hl & Hm & ->). by exists l.
Qed.

Lemma sl_tensors_resolved (st : ABCM.state) (a_dict b_dict : gmap string R) (i : nat) :
  is_Some (ABCM.symbol st !! i) -> is_Some (ABCM.nnsymb st !! i) ->
  is_Some (ABCM.n1 st !! i) ->
  is_Some (ABCM.nn st !! i) -> is_Some (ABCM.bas st !! i) ->
  Forall (fun l => ~ Lookups.missing a_dict b_dict l) (Lookups.atom_lookups st i) ->
  ABCM.sl_tensors st a_dict b_dict i =
  Raise (TypeError "ConstructFC() takes exactly 6 arguments (4 given)").
Proof.
  intros [onsite Hon] [offsite Hoff] [nfirst Hn] [nni Hnn] [bi Hbi] Hall.
  pose proof (coefficients_scanned st a_dict b_dict i _ _ _ Hon Hoff Hn) as Hscan.
  unfold ABCM.sl_tensors. rewrite Hon, Hoff. cbn [from_opt mbind result_bind].
  destruct (mapM _ (seq 0 (length offsite))) as [coeffs|e].
  - cbn [mbind result_bind]. rewrite Hnn, Hbi. reflexivity.
  - exfalso. destruct Hscan as (l & Hl & Hm & _).
    rewrite Forall_forall in Hall. by apply (Hall l).
Qed.

(** What the first basis atom raises, [set_sl_fc] raises. *)
Lemma set_sl_fc_first_atom (st : ABCM.state) (fc_dict : gmap string (gmap string R))
    (a_dict b_dict : gmap string R) (e : exn) :
  fc_dict !! "alpha"%string = Some a_dict ->
  fc_dict !! "beta"%string = Some b_dict ->
  (0 < length (ABCM.bas st))%nat ->
  ABCM.sl_tensors st a_dict b_dict 0 = Raise e ->
  ABCM.set_sl_fc st fc_dict = Raise e.
Proof.
  intros Ha Hb Hlen He. unfold ABCM.set_sl_fc. rewrite Ha, Hb.
  cbn [from_opt mbind result_bind].
  destruct (length (ABCM.bas st)) as [|n]; [lia|].
  cbn [seq mapM]. by rewrite He.
Qed.

Lemma partial_dict_atom_A :
  Forall (fun l => ~ Lookups.missing Examples.partial_dict Examples.partial_dict l)
         (Lookups.atom_lookups Examples.abc 0).
Proof.
  repeat constructor; intros [H1 H2]; vm_compute in H1; done.
Qed.

(** C7 fails on the code when the missing bond is not a bond of the first
    basis atom.  On the chain of three species, with dictionaries that hold
    the bonds A-B and A-C and lack the bond B-C, every lookup of atom A is
    resolved, the bond of atom B to atom C is found under neither
    ordering, and [set_sl_fc] raises [TypeError], from the call of
    [ConstructFC] for atom A, where the claim has the exception that names
    the key [B-C]. *)
Theorem set_sl_fc_type_error_before_missing_key :
  Forall (fun l => ~ Lookups.missing Examples.partial_dict Examples.partial_dict l)
         (Lookups.atom_lookups Examples.abc 0) /\
  (true, ("B-C", "C-B")%string) ∈ Lookups.atom_lookups Examples.abc 1 /\
  Lookups.missing Examples.partial_dict Examples.partial_dict
    (true, ("B-C", "C-B")%string) /\
  ABCM.set_sl_fc Examples.abc Examples.partial_fc_dict =
  Raise (TypeError "ConstructFC() takes exactly 6 arguments (4 given)").
Proof.
  split; [apply partial_dict_atom_A|]. split; [|split].
  - vm_compute. set_solver.
  - split; reflexivity.
  - apply (set_sl_fc_first_atom _ _ Examples.partial_dict Examples.partial_dict);
      [reflexivity | reflexivity | simpl; lia |].
    apply sl_tensors_resolved; try (by eexists).
    apply partial_dict_atom_A.
Qed.

(** ** The objective of the fit *)

Lemma insert_sorted_Sorted (x : R) (l : list R) :
  Sorted Rle l -> Sorted Rle (insert_sorted x l).
Proof.
  induction l as [|y l IH]; intros Hs; simpl.
  - repeat constructor.
  - destruct (Rle_dec x y) as [Hle|Hgt].
    + constructor; [done|]. by constructor.
    + apply Sorted_inv in Hs as [Hs Hhd]. constructor; [by apply IH|].
      destruct l as [|z l]; simpl.
      * constructor. lra.
      * destruct (Rle_dec x z); constructor; try lra. by apply HdRel_inv in Hhd.
Qed.

Lemma sort_Sorted (l : list R) : Sorted Rle (sort l).
Proof.
  induction l as [|x l IH]; [constructor|]. by apply insert_sorted_Sorted.
Qed.

Lemma insert_sorted_perm (x : R) (l : list R) : Permutation (insert_sorted x l) (x :: l).
Proof.
  induction l as [|y l IH]; [done|]. simpl.
  destruct (Rle_dec x y); [done|]. rewrite IH. apply perm_swap.
Qed.

Lemma sort_perm (l : list R) : Permutation (sort l) l.
Proof.
  induction l as [|x l IH]; [done|].
  unfold sort. cbn [foldr]. fold (sort l). by rewrite insert_sorted_perm, IH.
Qed.

Lemma sort_zeros : sort [0; 0; 0] = [0; 0; 0].
Proof.
  unfold sort. simpl.
  repeat match goal with
         | |- context [Rle_dec ?x ?y] => destruct (Rle_dec x y); [|lra]; simpl
         end.
  done.
Qed.

(** [set_bulk_fc] on a model with at least one basis atom: the first turn
    of the loop raises, [IndexError] when the atom has no neighbour list,
    [TypeError] from the call of [ConstructFC] otherwise. *)
Lemma set_bulk_fc_nonempty (st : ABCM.state) (alpha beta : R) :
  (0 < length (ABCM.bas st))%nat ->
  ABCM.set_bulk_fc st alpha beta =
  Raise (match ABCM.nn st !! 0%nat with
         | Some _ => TypeError "ConstructFC() takes exactly 6 arguments (4 given)"
         | None => IndexError
         end).
Proof.
  intros Hlen. unfold ABCM.set_bulk_fc.
  destruct (ABCM.bas st) as [|b0 bs] eqn:Ebas; [simpl in Hlen; lia|].
  cbn [length seq mapM lookup list_lookup].
  destruct (ABCM.nn st !! 0%nat) as [nn0|]; reflexivity.
Qed.

Lemma set_bulk_fc_empty (st : ABCM.state) (alpha beta : R) :
  ABCM.bas st = [] -> ABCM.set_bulk_fc st alpha beta = Ok (ABCM.with_fc st []).
Proof. intros Ebas. unfold ABCM.set_bulk_fc. by rewrite Ebas. Qed.

(** C8 fails on the code: the objective returns no value.  For every
    model and every parameter vector [__fit_no_ewald] raises an
    exception: on a model with a basis atom, [set_bulk_fc] raises at its
    first call of [ConstructFC], which it gives four of its six
    arguments; on a model without basis atoms it leaves no force constant
    and [get_ph_disp] raises.  On the single atom, with the parameter
    vector [(1, 1)], the exception is the [TypeError] of that call. *)
Theorem fit_no_ewald_raises (M_THZ : R)
    (EigenSolver : nat -> list cmat -> list (list R)) :
  (forall (st : ABCM.state) (ab0 : list R),
     exists e, ABCM.fit_no_ewald M_THZ EigenSolver st ab0 = Raise e) /\
  ABCM.fit_no_ewald M_THZ EigenSolver Examples.lone [1; 1] =
  Raise (TypeError "ConstructFC() takes exactly 6 arguments (4 given)").
Proof.
  split.
  - intros st ab0. unfold ABCM.fit_no_ewald.
    destruct ab0 as [|a [|b [|c l]]]; cbn [fmap list_fmap]; try by eexists.
    destruct (ABCM.bas st) as [|b0 bs] eqn:Ebas.
    + rewrite set_bulk_fc_empty by done. cbn [mbind result_bind].
      unfold ABCM.get_ph_disp, ABCM.set_dyn. cbn [ABCM.fc ABCM.with_fc].
      cbn [mbind result_bind]. by eexists.
    + rewrite set_bulk_fc_nonempty by (rewrite Ebas; simpl; lia).
      cbn [mbind result_bind]. by eexists.
  - unfold ABCM.fit_no_ewald. cbn [fmap list_fmap].
    rewrite set_bulk_fc_nonempty by (simpl; lia). reflexivity.
Qed.

(** ** The interface averaging *)

Lemma along_x_transpose (c : R) :
  mtranspose (Examples.along_x c) = Examples.along_x c.
Proof.
  apply mat3_ext. intros a b Ha Hb. unfold mtranspose, Examples.along_x.
  rewrite !mget_mat3_of by lia. by rewrite andb_comm.
Qed.

Lemma along_x_average (c1 c2 : R) :
  mscale (madd (Examples.along_x c1) (mtranspose (Examples.along_x c2))) 0.5
  = Examples.along_x ((c1 + c2) * 0.5).
Proof.
  rewrite along_x_transpose.
  apply mat3_ext. intros a b Ha Hb. unfold mscale, madd, Examples.along_x.
  rewrite !mget_mat3_of by lia.
  destruct (_ && _); ring.
Qed.

Lemma cross_on_axis (u v : vec3) :
  vy u = 0 -> vz u = 0 -> vy v = 0 -> vz v = 0 ->
  Rltb (norm (cross u v)) 1e-3 = true.
Proof.
  intros Hu1 Hu2 Hv1 Hv2. apply Rltb_true.
  unfold norm, cross, vdot. cbn [vx vy vz]. rewrite Hu1, Hu2, Hv1, Hv2.
  match goal with |- sqrt ?x < _ => replace x with 0 by ring end.
  rewrite sqrt_0. lra.
Qed.

(** One averaging step between two bonds along the first axis whose
    tensors are along that axis. *)
Lemma average_step_axis (st : ABCM.state) (i j o k : nat) (bond0 bo q : vec3)
    (fc : list (list mat3)) (c1 c2 : R) :
  ABCM.bas st !! o = Some bo ->
  ABCM.nn st !! o ≫= (.!! k) = Some q ->
  vy bond0 = 0 -> vz bond0 = 0 -> vy (vsub bo q) = 0 -> vz (vsub bo q) = 0 ->
  fc !! i ≫= (.!! j) = Some (Examples.along_x c1) ->
  fc !! o ≫= (.!! k) = Some (Examples.along_x c2) ->
  ABCM.average_step st i j o bond0 k fc =
  Ok (ABCM.set_tensor o k (Examples.along_x ((c1 + c2) * 0.5))
        (ABCM.set_tensor i j (Examples.along_x ((c1 + c2) * 0.5)) fc)).
Proof.
  intros Hbo Hq H1 H2 H3 H4 HT1 HT2. unfold ABCM.average_step.
  rewrite Hbo, Hq. cbn [from_opt mbind result_bind].
  rewrite cross_on_axis by done. rewrite HT1, HT2. cbn [from_opt mbind result_bind].
  by rewrite along_x_average, along_x_transpose.
Qed.

(** The averaging on the chain of three species, whose bonds all lie along
    one axis: every bond is averaged with both bonds of its neighbour. *)
Lemma abc_fix_interface (u v w : R) :
  exists d00 d01 d10 d11 d20 d21,
    ABCM.fix_interface (ABCM.with_fc Examples.abc (Examples.abc_fc u v w)) =
    Ok (ABCM.with_fc Examples.abc
          [[Examples.along_x d00; Examples.along_x d01];
           [Examples.along_x d10; Examples.along_x d11];
           [Examples.along_x d20; Examples.along_x d21]]) /\
    d00 = 7/16 * u + 1/4 * v + 5/16 * w /\
    d10 = 5/16 * u + 5/16 * v + 3/8 * w.
Proof.
  unfold ABCM.fix_interface.
  cbn [ABCM.bas ABCM.nn ABCM.label ABCM.fc ABCM.with_fc Examples.abc Examples.abc_fc
       length seq for_each lookup list_lookup from_opt mbind result_bind].
  unfold ABCM.bond_fix.
  cbn [ABCM.bas ABCM.nn ABCM.label ABCM.fc ABCM.with_fc Examples.abc Examples.abc_fc
       length seq for_each lookup list_lookup from_opt mbind result_bind option_bind].
  unfold Examples.abc_fc.
  repeat (erewrite average_step_axis;
          [| reflexivity | reflexivity | simpl; lra | simpl; lra | simpl; lra
           | simpl; lra | reflexivity | reflexivity];
          cbn [ABCM.set_tensor alter list_alter insert list_insert mbind result_bind]).
  eexists _, _, _, _, _, _. split; [reflexivity|]. split; lra.
Qed.


Lemma abc_dict_atom_A (ab ac bc : R) :
  Forall (fun l => ~ Lookups.missing (Examples.abc_dict ab ac bc)
                      (Examples.abc_dict 0 0 0) l)
         (Lookups.atom_lookups Examples.abc 0).
Proof.
  repeat constructor; intros [H1 H2]; vm_compute in H1; done.
Qed.

(** C6 fails on the code: the averaging is not reached.  On the chain of
    three species, with every bond in both dictionaries, [set_sl_fc]
    raises [TypeError] at the call of [ConstructFC] for the first atom,
    which it gives four of its six arguments; no tensor is stored and
    [__fix_interface], called on the line after the loop, does not
    run. *)
Theorem set_sl_fc_raises_before_averaging :
  ABCM.set_sl_fc Examples.abc (Examples.abc_fc_dict 1 2 4) =
  Raise (TypeError "ConstructFC() takes exactly 6 arguments (4 given)").
Proof.
  apply (set_sl_fc_first_atom _ _ (Examples.abc_dict 1 2 4) (Examples.abc_dict 0 0 0));
    [reflexivity | reflexivity | simpl; lia |].
  apply sl_tensors_resolved; try (by eexists).
  apply abc_dict_atom_A.
Qed.

(* ================================================================== *)
(** * Further properties of the code *)

(** ** Loops that can raise *)

Lemma bind_Ok_inv {A B : Type} (m : result A) (f : A -> result B) (y : B) :
  m ≫= f = Ok y -> exists x, m = Ok x /\ f x = Ok y.
Proof. destruct m as [x|e]; [|done]. intros H. by exists x. Qed.

Lemma from_opt_Ok_inv {A : Type} (e : exn) (o : option A) (x : A) :
  from_opt e o = Ok x -> o = Some x.
Proof. destruct o; [|done]. by intros [= ->]. Qed.

Lemma for_each_invariant {S A : Type} (P : S -> Prop) (body : A -> S -> result S)
    (l : list A) :
  (forall x s s', x ∈ l -> P s -> body x s = Ok s' -> P s') ->
  forall s s', P s -> for_each body l s = Ok s' -> P s'.
Proof.
  induction l as [|x l IH]; intros Hbody s s' Hs Hrun.
  - simpl in Hrun. by injection Hrun as <-.
  - cbn [for_each] in Hrun. apply bind_Ok_inv in Hrun as (s1 & H1 & Hrun).
    apply (IH (fun y t t' Hy => Hbody y t t' (list_elem_of_further _ _ _ Hy)) s1);
      [|done].
    apply (Hbody x s); [by left|done..].
Qed.

Lemma for_each_ext {S A : Type} (f g : A -> S -> result S) (l : list A) (s : S) :
  (forall x t, x ∈ l -> f x t = g x t) -> for_each f l s = for_each g l s.
Proof.
  revert s. induction l as [|x l IH]; intros s H; [done|].
  cbn [for_each]. rewrite (H x s) by (by left).
  destruct (g x s) as [s1|e]; [|done]. cbn [mbind result_bind].
  apply IH. intros y t Hy. apply H. by right.
Qed.

(** ** ConstructFC: one tensor per neighbour *)

Lemma stretch_step_lengths (alpha : list R) (nn : list vec3) (atom : vec3)
    (nnlab : list string) (isBC : bool) (n1 : nat) (s s' : FC.loop_state) :
  FC.stretch_step alpha nn atom nnlab isBC n1 s = Ok s' ->
  length (FC.Alpha s') = length (FC.Alpha s) /\
  length (FC.Beta s') = length (FC.Beta s).
Proof.
  unfold FC.stretch_step. intros H.
  apply bind_Ok_inv in H as ([] & _ & H).
  - apply bind_Ok_inv in H as (p & _ & H). apply bind_Ok_inv in H as (a & _ & H).
    injection H as <-. cbn. by rewrite length_insert.
  - by injection H as <-.
Qed.

Lemma bend_step_lengths (beta : list (list R)) (nn : list vec3) (atom : vec3)
    (nnlab : list string) (isBC : bool) (n1 n2 : nat) (s s' : FC.loop_state) :
  FC.bend_step beta nn atom nnlab isBC n1 n2 s = Ok s' ->
  length (FC.Alpha s') = length (FC.Alpha s) /\
  length (FC.Beta s') = length (FC.Beta s).
Proof.
  unfold FC.bend_step. intros H.
  destruct (n1 =? n2)%nat; [by injection H as <-|].
  apply bind_Ok_inv in H as (t1 & _ & H). apply bind_Ok_inv in H as (p1 & _ & H).
  apply bind_Ok_inv in H as (p2 & _ & H). apply bind_Ok_inv in H as (t0 & _ & H).
  apply bind_Ok_inv in H as (t2 & _ & H). apply bind_Ok_inv in H as (t3 & _ & H).
  destruct (t1 || t2 || t3); [|by injection H as <-].
  apply bind_Ok_inv in H as (d & _ & H). apply bind_Ok_inv in H as (b & _ & H).
  apply bind_Ok_inv in H as (B & _ & H). injection H as <-. cbn.
  by rewrite length_insert.
Qed.

Lemma ConstructFC_shape
    (alpha : list R) (beta : list (list R)) (nn : list vec3) (atom : vec3)
    (nnlab : list string) (isBC : bool) (T : list mat3) :
  FC.ConstructFC alpha beta nn atom nnlab isBC = Ok T -> length T = length nn.
Proof.
  unfold FC.ConstructFC. cbv zeta. intros H.
  destruct (negb _); [done|]. destruct (negb _); [done|].
  apply bind_Ok_inv in H as (b0 & _ & H). destruct (negb _); [done|].
  apply bind_Ok_inv in H as (s & Hloop & H). injection H as <-.
  assert (length (FC.Alpha s) = length nn /\ length (FC.Beta s) = length nn)
    as [HA HB].
  { apply (for_each_invariant
             (fun s => length (FC.Alpha s) = length nn /\ length (FC.Beta s) = length nn)
             _ _ ) with (s := FC.init_state nn) (s' := s) in Hloop; [done| |].
    - intros n1 s0 s1 _ [HA HB] Hstep. unfold FC.outer_step in Hstep.
      apply bind_Ok_inv in Hstep as (s2 & Hs & Hb).
      apply stretch_step_lengths in Hs as [HA2 HB2].
      apply (for_each_invariant
               (fun s => length (FC.Alpha s) = length nn /\ length (FC.Beta s) = length nn)
               _ _) with (s := s2) (s' := s1) in Hb; [done| |split; congruence].
      intros n2 t t' _ [HAt HBt] Ht. apply bend_step_lengths in Ht as [? ?].
      split; congruence.
    - unfold FC.init_state. cbn. by rewrite length_replicate. }
  rewrite length_zip_with, !length_fmap. lia.
Qed.

(** [ConstructFC] returns only for a shell with at least one neighbour
    and with [alpha] and [beta] of the size of the shell; it then returns
    one tensor for each neighbour. *)
Theorem ConstructFC_returns_only_if
    (alpha : list R) (beta : list (list R)) (nn : list vec3) (atom : vec3)
    (nnlab : list string) (isBC : bool) (T : list mat3) :
  FC.ConstructFC alpha beta nn atom nnlab isBC = Ok T ->
  length T = length nn /\ length alpha = length nn /\ length beta = length nn /\
  (1 <= length nn)%nat.
Proof.
  intros H. split; [by eapply ConstructFC_shape|].
  unfold FC.ConstructFC in H. cbv zeta in H.
  destruct (length alpha =? length nn)%nat eqn:Ea; [|done].
  destruct (length beta =? length nn)%nat eqn:Eb; [|done].
  apply Nat.eqb_eq in Ea, Eb. cbn [negb] in H.
  apply bind_Ok_inv in H as (b0 & Hb0 & _). apply from_opt_Ok_inv in Hb0.
  apply lookup_lt_Some in Hb0. repeat split; [done..|lia].
Qed.

Lemma ConstructFC_returns_only_if_witness :
  length [FCSpec.tensor [1] [[0]] [Examples.unit_x] Examples.origin ["Si"%string] false 0]
  = length [Examples.unit_x] /\
  length [1] = length [Examples.unit_x] /\ length [[0]] = length [Examples.unit_x] /\
  (1 <= length [Examples.unit_x])%nat.
Proof.
  apply (ConstructFC_returns_only_if [1] [[0]] [Examples.unit_x] Examples.origin
           ["Si"%string] false).
  rewrite ConstructFC_closed by apply single_neighbour_well_formed. reflexivity.
Defined.

(** ** ConstructFC under a rigid shift of the positions *)

Lemma vsub_shift (u v t : vec3) : vsub (vadd u t) (vadd v t) = vsub u v.
Proof. apply vec3_eq; cbn; ring. Qed.

Lemma alpha_entries_shift (atom p t : vec3) :
  FC.alpha_entries (vadd atom t) (vadd p t) = FC.alpha_entries atom p.
Proof.
  apply mat3_ext. intros a b Ha Hb. unfold FC.alpha_entries.
  rewrite !mget_mat3_of by done.
  destruct a as [|[|[|a]]]; try lia; destruct b as [|[|[|b]]]; try lia; cbn; ring.
Qed.

Lemma tmp_entries_shift (atom p1 p2 t : vec3) :
  FC.tmp_entries (vadd atom t) (vadd p1 t) (vadd p2 t) = FC.tmp_entries atom p1 p2.
Proof.
  apply mat3_ext. intros a b Ha Hb. unfold FC.tmp_entries.
  rewrite !mget_mat3_of by done.
  destruct a as [|[|[|a]]]; try lia; destruct b as [|[|[|b]]]; try lia; cbn; ring.
Qed.

Section Shift.
Variables (alpha : list R) (beta : list (list R)) (nn : list vec3)
          (atom t : vec3) (nnlab : list string) (isBC : bool).

Abbreviation shifted := ((fun p => vadd p t) <$> nn).

Lemma stretch_step_shift (n1 : nat) (s : FC.loop_state) :
  FC.stretch_step alpha shifted (vadd atom t) nnlab isBC n1 s =
  FC.stretch_step alpha nn atom nnlab isBC n1 s.
Proof.
  unfold FC.stretch_step, FC.nn_at. rewrite list_lookup_fmap.
  destruct (FC.stretches nnlab isBC n1) as [[]|e]; [|done..].
  cbn [mbind result_bind]. destruct (nn !! n1) as [p|]; [|done].
  cbn [fmap option_fmap option_map from_opt mbind result_bind].
  by rewrite vsub_shift, alpha_entries_shift.
Qed.

Lemma bend_step_shift (n1 n2 : nat) (s : FC.loop_state) :
  FC.bend_step beta shifted (vadd atom t) nnlab isBC n1 n2 s =
  FC.bend_step beta nn atom nnlab isBC n1 n2 s.
Proof.
  unfold FC.bend_step, FC.nn_at, FC.tf0, FC.beta_at.
  rewrite !list_lookup_fmap, length_fmap.
  destruct (n1 =? n2)%nat; [done|].
  destruct (FC.tf1 nnlab isBC n1 n2) as [t1|e]; [|done]. cbn [mbind result_bind].
  destruct (nn !! n1) as [p1|]; [|done].
  cbn [fmap option_fmap option_map from_opt mbind result_bind].
  destruct (nn !! n2) as [p2|]; [|done].
  cbn [fmap option_fmap option_map from_opt mbind result_bind].
  by rewrite !vsub_shift, tmp_entries_shift.
Qed.

Lemma outer_step_shift (n1 : nat) (s : FC.loop_state) :
  FC.outer_step alpha beta shifted (vadd atom t) nnlab isBC n1 s =
  FC.outer_step alpha beta nn atom nnlab isBC n1 s.
Proof.
  unfold FC.outer_step. rewrite stretch_step_shift, length_fmap.
  destruct (FC.stretch_step alpha nn atom nnlab isBC n1 s) as [s1|e]; [|done].
  cbn [mbind result_bind]. apply for_each_ext. intros n2 s2 _. apply bend_step_shift.
Qed.

End Shift.

(** The tensors depend on the positions through the bond vectors only:
    moving the atom and all its neighbours by one vector [t] changes
    neither the tensors [ConstructFC] returns nor the exception it
    raises. *)
Theorem ConstructFC_translation_invariant
    (alpha : list R) (beta : list (list R)) (nn : list vec3) (atom t : vec3)
    (nnlab : list string) (isBC : bool) :
  FC.ConstructFC alpha beta ((fun p => vadd p t) <$> nn) (vadd atom t) nnlab isBC =
  FC.ConstructFC alpha beta nn atom nnlab isBC.
Proof.
  unfold FC.ConstructFC, FC.init_state. cbv zeta. rewrite !length_fmap.
  destruct (negb _); [done|]. destruct (negb _); [done|].
  destruct (from_opt IndexError (beta !! 0%nat)) as [b0|e]; [|done].
  cbn [mbind result_bind]. destruct (negb _); [done|].
  rewrite (for_each_ext _ (FC.outer_step alpha beta nn atom nnlab isBC)); [done|].
  intros n1 s _. apply outer_step_shift.
Qed.

(** ** ConstructFC at a bond-charge site *)

(** At a bond-charge site ([isBC] true) with two neighbours or more, the
    first of which is labelled ['BC'], the call raises: the stretching
    branch that binds [d1] is skipped for that neighbour, and the first
    bending pair reads [d1] before it has a value. *)
Theorem ConstructFC_unbound_d1
    (alpha : list R) (beta : list (list R)) (b0 : list R) (nn : list vec3)
    (atom : vec3) (nnlab : list string) :
  (2 <= length nn)%nat ->
  length alpha = length nn ->
  length beta = length nn ->
  beta !! 0%nat = Some b0 ->
  length b0 = length nn ->
  nnlab !! 0%nat = Some "BC"%string ->
  FC.ConstructFC alpha beta nn atom nnlab true = Raise (NameError "d1").
Proof.
  intros HN Ha Hb Hb0 Hlen0 Hlab.
  unfold FC.ConstructFC. cbv zeta.
  rewrite Ha, Hb, Nat.eqb_refl, Hb0. cbn [negb from_opt mbind result_bind].
  rewrite Hlen0, Nat.eqb_refl. cbn [negb].
  destruct nn as [|p0 [|p1 nn']]; [simpl in HN; lia..|].
  set (nn := p0 :: p1 :: nn').
  assert (FC.outer_step alpha beta nn atom nnlab true 0 (FC.init_state nn)
          = Raise (NameError "d1")) as Hstep.
  { unfold FC.outer_step, FC.stretch_step, FC.stretches, FC.lab.
    rewrite Hlab. cbn [negb from_opt mbind result_bind].
    change (is_bc "BC") with true. cbn [negb mbind result_bind].
    subst nn. cbn [length seq for_each].
    assert (forall s, FC.bend_step beta (p0 :: p1 :: nn') atom nnlab true 0 0 s = Ok s)
      as -> by done.
    cbn [mbind result_bind].
    assert (FC.bend_step beta (p0 :: p1 :: nn') atom nnlab true 0 1
              (FC.init_state (p0 :: p1 :: nn')) = Raise (NameError "d1")) as -> by done.
    done. }
  subst nn. cbn [length seq for_each]. by rewrite Hstep.
Qed.

Lemma ConstructFC_unbound_d1_witness :
  FC.ConstructFC [1; 1] [[0; 0]; [0; 0]] [Examples.unit_x; Examples.origin]
    Examples.origin ["BC"; "Si"]%string true = Raise (NameError "d1").
Proof.
  apply (ConstructFC_unbound_d1 [1; 1] [[0; 0]; [0; 0]] [0; 0]
           [Examples.unit_x; Examples.origin] Examples.origin ["BC"; "Si"]%string);
    first [reflexivity | simpl; lia].
Defined.

(** ** set_bulk_fc *)

Lemma mapM_Ok_inv {A B : Type} (f : A -> result B) (l : list A) (ys : list B) :
  mapM f l = Ok ys -> Forall2 (fun x y => f x = Ok y) l ys.
Proof.
  revert ys. induction l as [|x l IH]; intros ys H.
  - injection H as <-. constructor.
  - cbn [mapM] in H. apply bind_Ok_inv in H as (y & Hy & H).
    apply bind_Ok_inv in H as (k & Hk & H). injection H as <-.
    constructor; [done|by apply IH].
Qed.

(** [set_bulk_fc] raises on every model with a basis atom whose
    neighbour list is set: the first turn of its loop calls [ConstructFC]
    with four of its six arguments, and the call raises [TypeError]. *)
Theorem set_bulk_fc_type_error (st : ABCM.state) (alpha beta : R) :
  ABCM.bas st <> [] -> is_Some (ABCM.nn st !! 0%nat) ->
  ABCM.set_bulk_fc st alpha beta =
  Raise (TypeError "ConstructFC() takes exactly 6 arguments (4 given)").
Proof.
  intros Hbas [nn0 Hnn]. rewrite set_bulk_fc_nonempty, Hnn; [done|].
  destruct (ABCM.bas st); [done|simpl; lia].
Qed.

Lemma set_bulk_fc_type_error_witness :
  ABCM.set_bulk_fc Examples.lone 80 10 =
  Raise (TypeError "ConstructFC() takes exactly 6 arguments (4 given)").
Proof.
  apply (set_bulk_fc_type_error Examples.lone 80 10); [discriminate|by eexists].
Defined.

(** ** ConstructFC is linear in the force constants *)

Lemma mscale_zero (c : R) : mscale mzero c = mzero.
Proof. mat3_entries. rewrite ?mget_mat3_of by assumption. ring. Qed.

Lemma mscale_add (m p : mat3) (c : R) :
  mscale (madd m p) c = madd (mscale m c) (mscale p c).
Proof. mat3_entries. rewrite ?mget_mat3_of by assumption. ring. Qed.

Lemma mscale_swap (m : mat3) (c d : R) : mscale (mscale m c) d = mscale (mscale m d) c.
Proof. mat3_entries. rewrite ?mget_mat3_of by assumption. ring. Qed.

Lemma mscale_mul (m : mat3) (c d : R) : mscale m (d * c) = mscale (mscale m d) c.
Proof. mat3_entries. rewrite ?mget_mat3_of by assumption. ring. Qed.

Lemma msum_scale {A : Type} (f : A -> mat3) (c : R) (l : list A) :
  msum ((fun x => mscale (f x) c) <$> l) = mscale (msum (f <$> l)) c.
Proof.
  induction l as [|x l IH]; cbn [fmap list_fmap].
  - unfold msum. simpl. by rewrite mscale_zero.
  - rewrite !msum_cons, mscale_add. by rewrite <- IH.
Qed.

Lemma msum_ext {A : Type} (f g : A -> mat3) (l : list A) :
  (forall x, x ∈ l -> f x = g x) -> msum (f <$> l) = msum (g <$> l).
Proof.
  intros H. f_equal. apply list_fmap_ext. intros i x Hx. apply H.
  by eapply list_elem_of_lookup_2.
Qed.

Section Linear.
Variables (alpha : list R) (beta : list (list R)) (nn : list vec3)
          (atom : vec3) (nnlab : list string) (isBC : bool) (c : R).
Hypothesis WF : FCSpec.well_formed alpha beta nn nnlab isBC.

Abbreviation alpha_c := (fmap (M := list) (fun a => c * a) alpha).
Abbreviation beta_c :=
  (fmap (M := list) (fun row => fmap (M := list) (fun b => c * b) row) beta).

Lemma scaled_well_formed : FCSpec.well_formed alpha_c beta_c nn nnlab isBC.
Proof.
  pose proof WF as (HN & Ha & Hb & Hrows & Hl & Hbc).
  repeat split; rewrite ?length_fmap; try done.
  apply Forall_fmap. eapply Forall_impl; [exact Hrows|].
  simpl. intros row Hrow. by rewrite length_fmap.
Qed.

Lemma scaled_tensor (n : nat) :
  (n < length nn)%nat ->
  FCSpec.tensor alpha_c beta_c nn atom nnlab isBC n =
  mscale (FCSpec.tensor alpha beta nn atom nnlab isBC n) c.
Proof.
  pose proof WF as (HN & Ha & Hb & Hrows & Hl & Hbc).
  intros Hn. unfold FCSpec.tensor.
  rewrite mscale_add, !(mscale_swap _ 8 c), !(mscale_swap _ 2 c). f_equal.
  - f_equal. destruct (FCSpec.bc_to_bc nnlab isBC n); [by rewrite mscale_zero|].
    unfold FCSpec.stretching_term.
    rewrite lookup_total_fmap_lt by lia.
    rewrite <- mscale_mul. f_equal. unfold Rdiv. ring.
  - f_equal. unfold FCSpec.bending_term. rewrite <- msum_scale.
    apply msum_ext. intros n2 Hn2. apply elem_of_seq in Hn2.
    unfold FCSpec.contribution.
    destruct (FCSpec.pair_included nn atom nnlab isBC n n2); [|by rewrite mscale_zero].
    unfold FCSpec.pair_term. rewrite <- mscale_mul. f_equal.
    unfold FCSpec.beta_of.
    rewrite lookup_total_fmap_lt by lia.
    rewrite lookup_total_fmap_lt.
    + unfold Rdiv. ring.
    + rewrite Forall_forall in Hrows. rewrite (Hrows (beta !!! n)); [lia|].
      apply list_elem_of_lookup_total_2. lia.
Qed.

End Linear.

(** The tensors are linear in the force constants: multiplying every
    entry of [alpha] and [beta] by [c] multiplies every tensor by [c]. *)
Theorem ConstructFC_homogeneous
    (alpha : list R) (beta : list (list R)) (nn : list vec3) (atom : vec3)
    (nnlab : list string) (isBC : bool) (c : R) :
  FCSpec.well_formed alpha beta nn nnlab isBC ->
  exists T : list mat3,
    FC.ConstructFC alpha beta nn atom nnlab isBC = Ok T /\
    FC.ConstructFC (fmap (M := list) (fun a => c * a) alpha)
                   (fmap (M := list) (fun row => fmap (M := list) (fun b => c * b) row) beta)
                   nn atom nnlab isBC
    = Ok (fmap (M := list) (fun m => mscale m c) T).
Proof.
  intros WF. eexists. split; [by apply ConstructFC_closed|].
  rewrite ConstructFC_closed by by apply scaled_well_formed.
  f_equal. rewrite <- list_fmap_compose. apply list_fmap_ext.
  intros i n Hn. apply lookup_seq in Hn as [-> Hn]. simpl.
  by apply scaled_tensor.
Qed.

Lemma ConstructFC_homogeneous_witness :
  exists T : list mat3,
    FC.ConstructFC [1] [[0]] [Examples.unit_x] Examples.origin ["Si"%string] false = Ok T /\
    FC.ConstructFC (fmap (M := list) (fun a => 3 * a) [1])
                   (fmap (M := list) (fun row => fmap (M := list) (fun b => 3 * b) row) [[0]])
                   [Examples.unit_x] Examples.origin ["Si"%string] false
    = Ok (fmap (M := list) (fun m => mscale m 3) T).
Proof.
  apply (ConstructFC_homogeneous [1] [[0]] [Examples.unit_x] Examples.origin
           ["Si"%string] false 3).
  apply single_neighbour_well_formed.
Defined.

(** ** The dynamical matrix at opposite k-points *)

Lemma to_cartesian_opp (bvec : mat3) (crys : bool) (k x : vec3) :
  vdot (to_cartesian bvec crys (vopp k)) x = - vdot (to_cartesian bvec crys k) x.
Proof.
  unfold to_cartesian, vscale, mat_vec, vdot, vopp.
  destruct crys; simpl; ring.
Qed.

Lemma dyn_entry_conj (basis : list vec3) (mass : list R) (fc : list (list mat3))
    (nn : list (list vec3)) (label : list (list nat)) (kq kq' : vec3) (r c : nat) :
  (forall x, vdot kq' x = - vdot kq x) ->
  DynSpec.dyn_entry basis mass fc nn label kq' r c =
  Cconj (DynSpec.dyn_entry basis mass fc nn label kq r c).
Proof.
  intros Hk. unfold DynSpec.dyn_entry.
  rewrite <- Csum_conj. apply Csum_ext. intros i _.
  rewrite <- Csum_conj. apply Csum_ext. intros j _.
  unfold DynSpec.bond_contribution. cbv zeta. rewrite Cconj_add. f_equal.
  - destruct (in_block _ _ _ _); apply C_eq; simpl; ring.
  - destruct (in_block _ _ _ _); [|apply C_eq; simpl; ring].
    rewrite Cconj_scale. f_equal. unfold DynSpec.phase, Cconj. cbn [re im].
    by rewrite Hk, cos_neg, sin_neg.
Qed.

Lemma Forall2_join {A B D : Type} (P : A -> B -> Prop) (Q : A -> D -> Prop)
    (S : B -> D -> Prop) (la : list A) (lb : list B) (ld : list D) :
  (forall a b d, P a b -> Q a d -> S b d) ->
  Forall2 P la lb -> Forall2 Q la ld -> Forall2 S lb ld.
Proof.
  intros H HP. revert ld. induction HP as [|a b la lb Hab _ IH]; intros ld HQ.
  - inversion HQ. constructor.
  - inversion HQ as [|a' d la' ld' Had HQ']; subst.
    constructor; [by eapply H|by apply IH].
Qed.

(** For real force-constant tensors the matrices at [-k] are the complex
    conjugates, entry by entry, of the matrices at [k]. *)
Theorem DynBuild_opposite_k (M_THZ : R)
    (basis : list vec3) (mass : list R) (bvec : mat3) (fc : list (list mat3))
    (nn : list (list vec3)) (label : list (list nat))
    (ks : list vec3) (crys : bool) :
  DynSpec.well_formed basis mass fc nn label ->
  exists dyn dyn',
    DynBuild M_THZ basis mass bvec fc nn label (ManyK ks) crys = Ok dyn /\
    DynBuild M_THZ basis mass bvec fc nn label (ManyK (vopp <$> ks)) crys = Ok dyn' /\
    Forall2 (fun D D' : cmat => forall r c, D' r c = Cconj (D r c)) dyn dyn'.
Proof.
  intros WF.
  destruct (DynBuild_closed M_THZ basis mass bvec fc nn label WF (ManyK ks) crys)
    as (dyn & Hdyn & HF).
  destruct (DynBuild_closed M_THZ basis mass bvec fc nn label WF
              (ManyK (vopp <$> ks)) crys) as (dyn' & Hdyn' & HF').
  exists dyn, dyn'. split; [done|]. split; [done|].
  cbn [kpts_array] in HF, HF'. apply Forall2_fmap_l in HF'.
  eapply Forall2_join; [|exact HF|exact HF'].
  simpl. intros k D D' HD HD' r c. rewrite HD', HD, Cconj_scale. f_equal.
  apply dyn_entry_conj. intros x. apply to_cartesian_opp.
Qed.

Lemma DynBuild_opposite_k_witness :
  exists dyn dyn',
    DynBuild 1 [Examples.origin] [1] Examples.identity [[Examples.identity]]
      Examples.self_bonded_nn Examples.self_bonded_label
      (ManyK [Examples.unit_x]) true = Ok dyn /\
    DynBuild 1 [Examples.origin] [1] Examples.identity [[Examples.identity]]
      Examples.self_bonded_nn Examples.self_bonded_label
      (ManyK (vopp <$> [Examples.unit_x])) true = Ok dyn' /\
    Forall2 (fun D D' : cmat => forall r c, D' r c = Cconj (D r c)) dyn dyn'.
Proof.
  apply (DynBuild_opposite_k 1 [Examples.origin] [1] Examples.identity
           [[Examples.identity]] Examples.self_bonded_nn Examples.self_bonded_label
           [Examples.unit_x] true).
  apply self_bonded_well_formed.
Defined.

(** ** What DynBuild needs in order to return *)

Lemma for_each_Ok_inv {S A : Type} (body : A -> S -> result S) (l : list A)
    (s s' : S) (x : A) :
  for_each body l s = Ok s' -> x ∈ l -> exists s1 s2, body x s1 = Ok s2.
Proof.
  revert s. induction l as [|y l IH]; intros s H Hx; [by apply elem_of_nil in Hx|].
  cbn [for_each] in H. apply bind_Ok_inv in H as (s1 & H1 & H).
  apply elem_of_cons in Hx as [->|Hx]; [by exists s, s1|by eapply IH].
Qed.

(** If DynBuild returns for at least one k-point, the arrays were
    consistent: as many masses as basis atoms, a neighbour list for every
    atom and, for every bond, a tensor and a label that names a basis
    atom.  In every other case it raises. *)
Theorem DynBuild_returns_only_if (M_THZ : R)
    (basis : list vec3) (mass : list R) (bvec : mat3) (fc : list (list mat3))
    (nn : list (list vec3)) (label : list (list nat))
    (k : vec3) (ks : list vec3) (crys : bool) (dyn : list cmat) :
  DynBuild M_THZ basis mass bvec fc nn label (ManyK (k :: ks)) crys = Ok dyn ->
  length basis = length mass /\
  forall i, (i < length mass)%nat ->
    exists nni, nn !! i = Some nni /\
      forall j, (j < length nni)%nat ->
        exists ka T, label !! i ≫= (.!! j) = Some ka /\
                     fc !! i ≫= (.!! j) = Some T /\
                     (ka < length mass)%nat.
Proof.
  unfold DynBuild. cbv zeta. intros H.
  destruct (length basis =? length mass)%nat eqn:Elen; [|done].
  apply Nat.eqb_eq in Elen. split; [done|]. cbn [negb kpts_array mapM] in H.
  apply bind_Ok_inv in H as (d & H & _).
  apply bind_Ok_inv in H as (D & HD & _).
  intros i Hi. unfold dyn_at in HD.
  destruct (for_each_Ok_inv _ _ _ _ i HD) as (D1 & D2 & Hatom);
    [apply elem_of_seq; lia|].
  unfold atom_step in Hatom. apply bind_Ok_inv in Hatom as (nni & Hnni & Hbonds).
  apply from_opt_Ok_inv in Hnni. exists nni. split; [done|].
  intros j Hj.
  destruct (for_each_Ok_inv _ _ _ _ j Hbonds) as (D3 & D4 & Hbond);
    [apply elem_of_seq; lia|].
  unfold bond_step in Hbond.
  apply bind_Ok_inv in Hbond as (bi & _ & Hbond).
  apply bind_Ok_inv in Hbond as (p & _ & Hbond).
  apply bind_Ok_inv in Hbond as (ka & Hka & Hbond).
  apply bind_Ok_inv in Hbond as (mi & _ & Hbond).
  apply bind_Ok_inv in Hbond as (mka & Hmka & Hbond).
  apply bind_Ok_inv in Hbond as (T & HT & _).
  apply from_opt_Ok_inv in Hka, Hmka, HT.
  exists ka, T. repeat split; [done..|]. by eapply lookup_lt_Some.
Qed.

Lemma DynBuild_returns_only_if_witness :
  length [Examples.origin] = length [1] /\
  forall i, (i < length [1])%nat ->
    exists nni, Examples.self_bonded_nn !! i = Some nni /\
      forall j, (j < length nni)%nat ->
        exists ka T, Examples.self_bonded_label !! i ≫= (.!! j) = Some ka /\
                     [[Examples.identity]] !! i ≫= (.!! j) = Some T /\
                     (ka < length [1])%nat.
Proof.
  destruct (DynBuild_closed 1 [Examples.origin] [1] Examples.identity
              [[Examples.identity]] Examples.self_bonded_nn Examples.self_bonded_label
              (self_bonded_well_formed Examples.identity 1)
              (ManyK [Examples.origin]) true) as (dyn & Hdyn & _).
  exact (DynBuild_returns_only_if 1 [Examples.origin] [1] Examples.identity
           [[Examples.identity]] Examples.self_bonded_nn Examples.self_bonded_label
           Examples.origin [] true dyn Hdyn).
Defined.

(** ** The centre of the Brillouin zone *)

(** At [k = 0] every entry of the matrix is real. *)
Theorem DynBuild_gamma_real (M_THZ : R)
    (basis : list vec3) (mass : list R) (bvec : mat3) (fc : list (list mat3))
    (nn : list (list vec3)) (label : list (list nat)) (crys : bool) :
  DynSpec.well_formed basis mass fc nn label ->
  exists D : cmat,
    DynBuild M_THZ basis mass bvec fc nn label (OneK (V3 0 0 0)) crys = Ok [D] /\
    forall r c, im (D r c) = 0.
Proof.
  intros WF.
  destruct (DynBuild_closed M_THZ basis mass bvec fc nn label WF (OneK (V3 0 0 0)) crys)
    as (dyn & Hdyn & HF).
  cbn [kpts_array] in HF.
  inversion HF as [|k D ks dyn' HD Hnil]; subst. inversion Hnil; subst.
  exists D. split; [done|]. intros r c. rewrite HD.
  fold Examples.origin.
  assert (forall (l : list C), (forall z, z ∈ l -> im z = 0) -> im (Csum l) = 0) as Hsum.
  { induction l as [|z l IH]; intros Hl; [done|].
    rewrite Csum_cons. cbn [Cadd im]. rewrite (Hl z), IH; [lra| |by left].
    intros w Hw. apply Hl. by right. }
  cbn [Cscale im]. unfold DynSpec.dyn_entry. rewrite Hsum; [ring|].
  intros z Hz. apply list_elem_of_fmap in Hz as (i & -> & _).
  apply Hsum. intros w Hw. apply list_elem_of_fmap in Hw as (j & -> & _).
  unfold DynSpec.bond_contribution. cbv zeta. rewrite phase_gamma.
  destruct (in_block _ _ _ _), (in_block _ _ _ _); simpl; ring.
Qed.

Lemma DynBuild_gamma_real_witness :
  exists D : cmat,
    DynBuild 1 [Examples.origin] [1] Examples.identity [[Examples.identity]]
      Examples.self_bonded_nn Examples.self_bonded_label (OneK (V3 0 0 0)) true
    = Ok [D] /\
    forall r c, im (D r c) = 0.
Proof.
  apply (DynBuild_gamma_real 1 [Examples.origin] [1] Examples.identity
           [[Examples.identity]] Examples.self_bonded_nn Examples.self_bonded_label true).
  apply self_bonded_well_formed.
Defined.

(** ** k-points and their conversion *)

(** [k_conv] returns exactly when k-points are stored and the target is
    spelled ["crys"], ["CRYS"], ["cart"] or ["CART"]; it then keeps the
    number of k-points. *)
Theorem k_conv_returns_iff (st : ABCM.state) (towhat : option string) :
  (exists st', ABCM.k_conv st towhat = Ok st') <->
  ABCM.kpts st <> [] /\
  (towhat = Some "crys"%string \/ towhat = Some "CRYS"%string \/
   towhat = Some "cart"%string \/ towhat = Some "CART"%string).
Proof.
  unfold ABCM.k_conv. destruct (ABCM.kpts st) as [|k ks].
  { split; [by intros [st' H]|by intros [H _]]. }
  split.
  - intros [st' H]. split; [done|].
    destruct (decide (towhat = Some "crys"%string)) as [|H1]; [tauto|].
    destruct (decide (towhat = Some "CRYS"%string)) as [|H2]; [tauto|].
    destruct (decide (towhat = Some "cart"%string)) as [|H3]; [tauto|].
    destruct (decide (towhat = Some "CART"%string)) as [|H4]; [tauto|].
    rewrite !bool_decide_eq_false_2 in H by done. done.
  - intros [_ [-> | [-> | [-> | ->]]]]; eexists; reflexivity.
Qed.

Lemma mapM_fmap_result {A B D : Type} (f : B -> result D) (g : A -> B) (l : list A) :
  mapM f (g <$> l) = mapM (fun x => f (g x)) l.
Proof.
  induction l as [|x l IH]; [done|]. cbn [fmap list_fmap mapM].
  fold (@fmap list _ A B). by rewrite IH.
Qed.

Lemma DynBuild_crys_cart (M_THZ : R)
    (basis : list vec3) (mass : list R) (bvec : mat3) (fc : list (list mat3))
    (nn : list (list vec3)) (label : list (list nat)) (ks : list vec3) :
  DynBuild M_THZ basis mass bvec fc nn label (ManyK (mat_vec bvec <$> ks)) false =
  DynBuild M_THZ basis mass bvec fc nn label (ManyK ks) true.
Proof.
  unfold DynBuild. cbv zeta. cbn [kpts_array]. by rewrite mapM_fmap_result.
Qed.

(** Converting crystal k-points to Cartesian ones does not change the
    matrices [__set_dyn] builds: the product with [bvec] that [DynBuild]
    applies to crystal coordinates is the one [k_conv] applies. *)
Theorem k_conv_cart_same_matrices (M_THZ : R) (st st1 : ABCM.state) :
  ABCM.iskcrys st = true ->
  ABCM.k_conv st (Some "cart"%string) = Ok st1 ->
  ABCM.iskcrys st1 = false /\
  ABCM.set_dyn M_THZ st1 =
  (s ← ABCM.set_dyn M_THZ st;
   Ok (ABCM.with_kpts s (ABCM.kpts st1) false (ABCM.nkpt s))).
Proof.
  intros Hcrys H. unfold ABCM.k_conv in H.
  destruct (ABCM.kpts st) as [|k ks] eqn:Ek; [done|].
  cbn in H. injection H as <-. split; [done|].
  unfold ABCM.set_dyn. cbn [ABCM.with_kpts ABCM.fc ABCM.kpts ABCM.bas ABCM.mass
    ABCM.bvec ABCM.nn ABCM.label ABCM.iskcrys]. rewrite Ek, Hcrys.
  destruct (ABCM.fc st) as [|T fcs] eqn:Efc; [done|].
  rewrite <- !(fmap_cons (mat_vec (ABCM.bvec st))), DynBuild_crys_cart.
  destruct (DynBuild _ _ _ _ _ _ _ _ _) as [d|e]; [|done]. cbn [mbind result_bind].
  unfold ABCM.with_dyn, ABCM.with_kpts. cbn. by rewrite ?Ek, ?Efc.
Qed.

Lemma k_conv_cart_same_matrices_witness :
  (exists s, ABCM.set_dyn 1 Examples.doubled_bonded = Ok s) /\
  ABCM.iskcrys (ABCM.with_kpts Examples.doubled_bonded
                  (mat_vec (ABCM.bvec Examples.doubled_bonded) <$> [Examples.unit_x])
                  false 1)
  = false /\
  ABCM.set_dyn 1 (ABCM.with_kpts Examples.doubled_bonded
                    (mat_vec (ABCM.bvec Examples.doubled_bonded) <$> [Examples.unit_x])
                    false 1) =
  (s ← ABCM.set_dyn 1 Examples.doubled_bonded;
   Ok (ABCM.with_kpts s
         (ABCM.kpts (ABCM.with_kpts Examples.doubled_bonded
                       (mat_vec (ABCM.bvec Examples.doubled_bonded) <$> [Examples.unit_x])
                       false 1))
         false (ABCM.nkpt s))).
Proof.
  split.
  - destruct (DynBuild_closed 1 [Examples.origin] [1]
                (ABCM.bvec Examples.doubled_bonded) [[Examples.identity]]
                Examples.self_bonded_nn Examples.self_bonded_label
                (self_bonded_well_formed Examples.identity 1)
                (ManyK [Examples.unit_x]) true) as (d & Hd & _).
    unfold ABCM.set_dyn.
    cbn [ABCM.fc ABCM.kpts ABCM.bas ABCM.mass ABCM.bvec ABCM.nn ABCM.label
         ABCM.iskcrys Examples.doubled_bonded] in *.
    rewrite Hd. by eexists.
  - apply (k_conv_cart_same_matrices 1 Examples.doubled_bonded); reflexivity.
Defined.

Lemma k_conv_cart (st : ABCM.state) (k : vec3) (ks : list vec3) :
  ABCM.kpts st = k :: ks ->
  ABCM.k_conv st (Some "cart"%string) =
  Ok (ABCM.with_kpts st (mat_vec (ABCM.bvec st) <$> k :: ks) false (ABCM.nkpt st)).
Proof. intros E. unfold ABCM.k_conv. by rewrite E. Qed.

Lemma k_conv_crys (st : ABCM.state) (k : vec3) (ks : list vec3) :
  ABCM.kpts st = k :: ks ->
  ABCM.k_conv st (Some "crys"%string) =
  Ok (ABCM.with_kpts st (mat_vec (ABCM.lvec st) <$> k :: ks) true (ABCM.nkpt st)).
Proof. intros E. unfold ABCM.k_conv. by rewrite E. Qed.

(** When [bvec] undoes [lvec], as the inverse [__init__] stores does,
    converting to Cartesian coordinates and back restores the k-points. *)
Theorem k_conv_round_trip (st : ABCM.state) :
  (forall k, mat_vec (ABCM.lvec st) (mat_vec (ABCM.bvec st) k) = k) ->
  ABCM.kpts st <> [] ->
  (s ← ABCM.k_conv st (Some "cart"%string); ABCM.k_conv s (Some "crys"%string))
  = Ok (ABCM.with_kpts st (ABCM.kpts st) true (ABCM.nkpt st)).
Proof.
  intros Hinv Hk.
  destruct (ABCM.kpts st) as [|k ks] eqn:Ek; [done|].
  rewrite (k_conv_cart st k ks Ek). cbn [mbind result_bind].
  rewrite (k_conv_crys _ (mat_vec (ABCM.bvec st) k) (mat_vec (ABCM.bvec st) <$> ks))
    by done.
  unfold ABCM.with_kpts.
  cbn [ABCM.lvec ABCM.bas ABCM.mass ABCM.symbol ABCM.fc ABCM.kpts ABCM.iskcrys
       ABCM.nkpt ABCM.dyn ABCM.bvec ABCM.nn ABCM.label ABCM.nndist ABCM.nnsymb
       ABCM.n1 ABCM.n2 ABCM.ecalc ABCM.eps ABCM.src_freq ABCM.freq].
  do 2 f_equal. rewrite fmap_cons, Hinv. f_equal.
  rewrite <- list_fmap_compose. rewrite <- (list_fmap_id ks) at 2.
  apply list_fmap_ext. intros i x _. simpl. apply Hinv.
Qed.

Lemma doubled_inverse (k : vec3) :
  mat_vec (ABCM.lvec Examples.doubled) (mat_vec (ABCM.bvec Examples.doubled) k) = k.
Proof.
  destruct k as [x y z].
  apply vec3_eq; unfold mat_vec, vdot, vec3_of, mat3_of; cbn; lra.
Qed.

Lemma k_conv_round_trip_witness :
  (s ← ABCM.k_conv Examples.doubled (Some "cart"%string);
   ABCM.k_conv s (Some "crys"%string))
  = Ok (ABCM.with_kpts Examples.doubled (ABCM.kpts Examples.doubled) true
          (ABCM.nkpt Examples.doubled)).
Proof.
  apply (k_conv_round_trip Examples.doubled); [apply doubled_inverse|done].
Defined.

(** ** The neighbour search *)

Lemma set_nn_Ok_inv (argsort : list R -> list nat) (st st' : ABCM.state)
    (scope : nat * nat * nat) (nmax : nat) (dist2 : option R) :
  ABCM.set_nn argsort st scope nmax dist2 = Ok st' ->
  let all := ABCM.allatoms st scope in
  let shells := (fun b => ABCM.first_nn_ind argsort all b nmax dist2) <$> ABCM.bas st in
  ABCM.bas st' = ABCM.bas st /\
  ABCM.nn st' = (fun s => (fun ind => all !!! ind) <$> snd s) <$> shells /\
  ABCM.label st' =
    (fun s => (fun ind => ind / length (ABCM.rgrid st scope))%nat <$> snd s) <$> shells /\
  ABCM.nndist st' = (fun s => (fun ind => fst s !!! ind) <$> snd s) <$> shells.
Proof.
  unfold ABCM.set_nn. cbv zeta. intros H.
  apply bind_Ok_inv in H as (nnsymb' & _ & H).
  apply bind_Ok_inv in H as (n2' & _ & H). injection H as <-. done.
Qed.

(** The search keeps at most [nmax - 1] neighbours for an atom, whatever
    the size of its shell: the candidates are the [nmax - 1] nearest
    images, and the shell is chosen among them. *)
Theorem set_nn_at_most_nmax (argsort : list R -> list nat) (st st' : ABCM.state)
    (scope : nat * nat * nat) (nmax : nat) (dist2 : option R) :
  ABCM.set_nn argsort st scope nmax dist2 = Ok st' ->
  length (ABCM.nn st') = length (ABCM.bas st) /\
  Forall (fun shell => (length shell <= nmax - 1)%nat) (ABCM.nn st').
Proof.
  intros H. apply set_nn_Ok_inv in H as (_ & -> & _). cbv zeta.
  rewrite !length_fmap. split; [done|].
  rewrite <- list_fmap_compose. apply Forall_fmap, Forall_forall. intros b _.
  simpl. rewrite length_fmap. unfold ABCM.first_nn_ind. cbv zeta. cbn [snd].
  destruct dist2 as [d2|].
  - etransitivity; [apply length_filter|]. rewrite length_take. lia.
  - etransitivity; [apply length_filter|]. rewrite length_take. lia.
Qed.

Lemma mapM_Ok {A B : Type} (f : A -> result B) (l : list A) :
  (forall x, x ∈ l -> exists y, f x = Ok y) -> exists ys, mapM f l = Ok ys.
Proof.
  induction l as [|x l IH]; intros H; [by exists []|].
  destruct (H x) as [y Hy]; [by left|].
  destruct IH as [ys Hys]; [intros z Hz; apply H; by right|].
  exists (y :: ys). cbn [mapM]. by rewrite Hy, Hys.
Qed.

Lemma length_bind_uniform {A B : Type} (f : A -> list B) (L : nat) (l : list A) :
  (forall x, length (f x) = L) -> length (l ≫= f) = (length l * L)%nat.
Proof.
  intros Hf. induction l as [|x l IH]; [done|].
  cbn [mbind list_bind]. fold (@mbind list _ A B).
  rewrite length_app, Hf. cbn [length]. fold (l ≫= f). lia.
Qed.

Lemma lookup_bind_uniform {A B : Type} (f : A -> list B) (L : nat) (l : list A)
    (ind : nat) :
  (forall x, length (f x) = L) -> (ind < length l * L)%nat ->
  (l ≫= f) !! ind = l !! (ind / L)%nat ≫= (fun x => f x !! (ind mod L)%nat).
Proof.
  intros Hf. revert ind. induction l as [|x l IH]; intros ind Hind.
  { simpl in Hind. lia. }
  assert (L <> 0%nat) as HL by (intros ->; lia).
  rewrite bind_cons. destruct (decide (ind < L)%nat) as [Hlt|Hge].
  - rewrite lookup_app_l by (by rewrite Hf).
    rewrite Nat.div_small, Nat.mod_small by done. done.
  - rewrite lookup_app_r by (rewrite Hf; lia). rewrite Hf.
    rewrite IH by (cbn [length] in Hind; lia).
    assert (ind / L = S ((ind - L) / L))%nat as ->.
    { replace ind with ((ind - L) + 1 * L)%nat at 1 by lia.
      rewrite Nat.div_add by done. lia. }
    assert (ind mod L = (ind - L) mod L)%nat as ->.
    { replace ind with ((ind - L) + 1 * L)%nat at 1 by lia.
      by rewrite Nat.Div0.mod_add. }
    done.
Qed.

Section NeighbourShapes.
Variable argsort : list R -> list nat.
Hypothesis SPEC : argsort_spec argsort.
Variables (st : ABCM.state) (scope : nat * nat * nat) (nmax : nat) (dist2 : option R).

Abbreviation rg := (ABCM.rgrid st scope).
Abbreviation all := (ABCM.allatoms st scope).

Lemma length_allatoms : length all = (length (ABCM.bas st) * length rg)%nat.
Proof.
  unfold ABCM.allatoms. apply length_bind_uniform. intros x. by rewrite length_fmap.
Qed.

Lemma shell_indices (b : vec3) :
  Forall (fun ind => ind < length (ABCM.bas st) * length rg)%nat
         (snd (ABCM.first_nn_ind argsort all b nmax dist2)).
Proof.
  unfold ABCM.first_nn_ind. cbv zeta. cbn [snd].
  set (dist := (fun item => norm (vsub b item)) <$> all).
  assert (forall ind, ind ∈ take (nmax - 1) (drop 1 (argsort dist)) ->
                      (ind < length (ABCM.bas st) * length rg)%nat) as Hin.
  { intros ind Hind.
    assert (ind ∈ argsort dist) as Hp
      by (by apply (subseteq_drop 1), (subseteq_take (nmax - 1))).
    destruct (SPEC dist) as [Hperm _]. rewrite Hperm in Hp.
    apply elem_of_seq in Hp. unfold dist in Hp.
    rewrite length_fmap, length_allatoms in Hp. lia. }
  apply Forall_forall. intros ind Hind.
  destruct dist2; apply list_elem_of_filter in Hind as [_ Hind]; by apply Hin.
Qed.

Lemma image_of_owner (ind : nat) :
  (ind < length (ABCM.bas st) * length rg)%nat ->
  (ind / length rg < length (ABCM.bas st))%nat /\
  all !!! ind = vadd (ABCM.bas st !!! (ind / length rg)%nat)
                     (rg !!! (ind mod length rg)%nat) /\
  rg !!! (ind mod length rg)%nat ∈ rg.
Proof.
  intros Hind.
  assert (length rg <> 0%nat) as HL by (intros E; rewrite E in Hind; lia).
  assert (ind / length rg < length (ABCM.bas st))%nat as Hown
    by (apply Nat.Div0.div_lt_upper_bound; lia).
  assert (ind mod length rg < length rg)%nat as Hmod by (by apply Nat.mod_upper_bound).
  split; [done|]. split.
  - apply list_lookup_total_correct. unfold ABCM.allatoms.
    rewrite (lookup_bind_uniform _ (length rg)); [| |done].
    + rewrite (list_lookup_lookup_total_lt (ABCM.bas st)) by done.
      cbn [mbind option_bind]. rewrite list_lookup_fmap.
      by rewrite (list_lookup_lookup_total_lt rg) by done.
    + intros x. by rewrite length_fmap.
  - by apply list_elem_of_lookup_total_2.
Qed.

End NeighbourShapes.

Lemma set_nn_defined (argsort : list R -> list nat) (st : ABCM.state)
    (scope : nat * nat * nat) (nmax : nat) (dist2 : option R) :
  argsort_spec argsort ->
  length (ABCM.symbol st) = length (ABCM.bas st) ->
  (is_Some dist2 -> length (ABCM.n1 st) = length (ABCM.bas st)) ->
  exists st', ABCM.set_nn argsort st scope nmax dist2 = Ok st'.
Proof.
  intros SPEC Hsym Hn1. unfold ABCM.set_nn. cbv zeta.
  set (shells := (fun b => ABCM.first_nn_ind argsort (ABCM.allatoms st scope) b nmax dist2)
                   <$> ABCM.bas st).
  destruct (mapM_Ok
              (fun l : list nat =>
                 mapM (M := result)
                      (fun k : nat => from_opt IndexError (ABCM.symbol st !! k)) l)
              (fmap (M := list)
                 (fun s : list R * list nat =>
                    fmap (M := list)
                      (fun ind => ind / length (ABCM.rgrid st scope))%nat (snd s))
                 shells)) as [nnsymb' ->].
  { intros l Hl. apply list_elem_of_fmap in Hl as (s & -> & Hs).
    apply list_elem_of_fmap in Hs as (b & -> & _).
    apply mapM_Ok. intros k Hk. apply list_elem_of_fmap in Hk as (ind & -> & Hind).
    pose proof (shell_indices argsort SPEC st scope nmax dist2 b) as HF.
    rewrite Forall_forall in HF. apply HF in Hind.
    apply (image_of_owner st scope) in Hind as (Hown & _).
    destruct (lookup_lt_is_Some_2 (ABCM.symbol st)
                (ind / length (ABCM.rgrid st scope))%nat) as [x ->]; [lia|].
    by eexists. }
  cbn [mbind result_bind].
  destruct dist2 as [d2|]; [|by eexists].
  destruct (Rltb 0 d2 || Rltb d2 0); [|by eexists].
  match goal with
  | |- context [mapM ?f ?l] => destruct (mapM_Ok f l) as [v ->]
  end; [|by eexists].
  intros i Hi. apply elem_of_seq in Hi.
  destruct (lookup_lt_is_Some_2
              (fmap (M := list)
                 (fun s : list R * list nat =>
                    fmap (M := list) (fun ind => ABCM.allatoms st scope !!! ind) (snd s))
                 shells) i)
    as [nni ->].
  { unfold shells. rewrite !length_fmap. lia. }
  destruct (lookup_lt_is_Some_2 (ABCM.n1 st) i) as [k ->].
  { rewrite Hn1 by done. lia. }
  by eexists.
Qed.

(** With the model's symbols in place, the neighbour search returns, and
    every neighbour it stores is an image of the basis atom its label
    names: the position of that atom plus a vector of the search
    lattice. *)
Theorem set_nn_neighbours_are_images (argsort : list R -> list nat)
    (st : ABCM.state) (scope : nat * nat * nat) (nmax : nat) (dist2 : option R) :
  argsort_spec argsort ->
  length (ABCM.symbol st) = length (ABCM.bas st) ->
  (is_Some dist2 -> length (ABCM.n1 st) = length (ABCM.bas st)) ->
  exists st', ABCM.set_nn argsort st scope nmax dist2 = Ok st' /\
    length (ABCM.nn st') = length (ABCM.bas st) /\
    length (ABCM.label st') = length (ABCM.bas st) /\
    forall i j ka, ABCM.label st' !! i ≫= (.!! j) = Some ka ->
      (ka < length (ABCM.bas st))%nat /\
      exists r, r ∈ ABCM.rgrid st scope /\
        ABCM.nn st' !! i ≫= (.!! j) = Some (vadd (ABCM.bas st !!! ka) r).
Proof.
  intros SPEC Hsym Hn1.
  destruct (set_nn_defined argsort st scope nmax dist2 SPEC Hsym Hn1) as [st' Hst'].
  exists st'. split; [done|].
  apply set_nn_Ok_inv in Hst' as (_ & Hnn & Hlab & _). cbv zeta in Hnn, Hlab.
  rewrite Hnn, Hlab, !length_fmap. split; [done|]. split; [done|].
  intros i j ka Hka.
  rewrite <- !list_fmap_compose, !list_lookup_fmap in Hka.
  rewrite <- !list_fmap_compose, !list_lookup_fmap.
  destruct (ABCM.bas st !! i) as [b|]; [|cbn in Hka; done].
  cbn [fmap option_fmap option_map mbind option_bind compose] in Hka.
  cbn [fmap option_fmap option_map mbind option_bind compose].
  set (sh := snd (ABCM.first_nn_ind argsort (ABCM.allatoms st scope) b nmax dist2)) in *.
  fold (@fmap list _ nat nat) in Hka. fold (@fmap list _ nat vec3).
  rewrite list_lookup_fmap in Hka. rewrite list_lookup_fmap.
  destruct (sh !! j) as [ind|] eqn:Eind; [|cbn in Hka; done].
  cbn [fmap option_fmap option_map] in Hka. cbn [fmap option_fmap option_map].
  injection Hka as <-. subst sh.
  pose proof (shell_indices argsort SPEC st scope nmax dist2 b) as HF.
  rewrite Forall_forall in HF.
  assert (ind < length (ABCM.bas st) * length (ABCM.rgrid st scope))%nat as Hind
    by (apply HF; by eapply list_elem_of_lookup_2).
  apply (image_of_owner st scope) in Hind as (Hown & Himg & Hr).
  split; [done|]. eexists. split; [exact Hr|]. by rewrite Himg.
Qed.

Lemma set_nn_neighbours_are_images_witness :
  exists st', ABCM.set_nn stable_argsort Examples.cubic (1, 1, 1)%nat 20 None = Ok st' /\
    length (ABCM.nn st') = length (ABCM.bas Examples.cubic) /\
    length (ABCM.label st') = length (ABCM.bas Examples.cubic) /\
    forall i j ka, ABCM.label st' !! i ≫= (.!! j) = Some ka ->
      (ka < length (ABCM.bas Examples.cubic))%nat /\
      exists r, r ∈ ABCM.rgrid Examples.cubic (1, 1, 1)%nat /\
        ABCM.nn st' !! i ≫= (.!! j) = Some (vadd (ABCM.bas Examples.cubic !!! ka) r).
Proof.
  apply (set_nn_neighbours_are_images stable_argsort Examples.cubic (1, 1, 1)%nat 20 None).
  - apply stable_argsort_spec.
  - reflexivity.
  - intros [d H]. discriminate H.
Defined.

Lemma set_nn_at_most_nmax_witness :
  exists st', ABCM.set_nn stable_argsort Examples.cubic (1, 1, 1)%nat 5 None = Ok st' /\
    length (ABCM.nn st') = length (ABCM.bas Examples.cubic) /\
    Forall (fun shell => (length shell <= 5 - 1)%nat) (ABCM.nn st').
Proof.
  destruct (set_nn_defined stable_argsort Examples.cubic (1, 1, 1)%nat 5 None
              stable_argsort_spec eq_refl) as [st' H].
  - intros [d Hd]. discriminate Hd.
  - exists st'. split; [exact H|].
    exact (set_nn_at_most_nmax stable_argsort Examples.cubic st' (1, 1, 1)%nat 5 None H).
Defined.

(** ** From the neighbour search to the dispersion *)

(** The neighbour search leaves consistent arrays: one row of positions
    and one row of labels for every basis atom, of one length, and
    labels that name basis atoms. *)
Theorem set_nn_consistent (argsort : list R -> list nat) (st st' : ABCM.state)
    (scope : nat * nat * nat) (nmax : nat) (dist2 : option R) :
  argsort_spec argsort ->
  ABCM.set_nn argsort st scope nmax dist2 = Ok st' ->
  Shapes.neighbours_consistent st'.
Proof.
  intros SPEC H. apply set_nn_Ok_inv in H as (Hbas & Hnn & Hlab & _).
  cbv zeta in Hnn, Hlab. unfold Shapes.neighbours_consistent.
  rewrite Hbas, Hnn, Hlab, !length_fmap. split; [done|]. split; [done|].
  intros i nni li Hnni Hli.
  rewrite <- list_fmap_compose, list_lookup_fmap in Hnni.
  rewrite <- list_fmap_compose, list_lookup_fmap in Hli.
  destruct (ABCM.bas st !! i) as [b|]; [|cbn in Hli; done].
  cbn [fmap option_fmap option_map compose] in Hnni, Hli.
  injection Hnni as <-. injection Hli as <-.
  rewrite !length_fmap. split; [done|].
  apply Forall_fmap.
  eapply Forall_impl; [apply (shell_indices argsort SPEC st scope nmax dist2 b)|].
  simpl. intros ind Hind. by apply (image_of_owner st scope) in Hind as (Hown & _).
Qed.

Lemma set_nn_consistent_witness :
  exists st', ABCM.set_nn stable_argsort Examples.cubic (1, 1, 1)%nat 20 None = Ok st' /\
              Shapes.neighbours_consistent st'.
Proof.
  destruct (set_nn_defined stable_argsort Examples.cubic (1, 1, 1)%nat 20 None
              stable_argsort_spec eq_refl) as [st' H].
  - intros [d Hd]. discriminate Hd.
  - exists st'. split; [exact H|].
    exact (set_nn_consistent stable_argsort Examples.cubic st' (1, 1, 1)%nat 20 None
             stable_argsort_spec H).
Defined.

Lemma set_kpts_Ok_inv (st st' : ABCM.state) (k : kpts_arg) (crys : bool) :
  ABCM.set_kpts st k crys = Ok st' ->
  exists k0 ks, st' = ABCM.with_kpts st (k0 :: ks) crys (length (k0 :: ks)).
Proof.
  unfold ABCM.set_kpts. destruct k as [k|[|k0 ks]]; [|done|]; intros [= <-].
  - by exists k, [].
  - by exists k0, ks.
Qed.

(** On consistent neighbour arrays with a tensor for every bond, once
    k-points are set, the dispersion can be computed: [__set_dyn] returns
    one matrix for every k-point and [get_ph_disp] returns. *)
Theorem dispersion_returns (M_THZ : R)
    (EigenSolver : nat -> list cmat -> list (list R))
    (st st3 : ABCM.state) (k : kpts_arg) (crys : bool) :
  Shapes.neighbours_consistent st ->
  Interface.tensors_consistent st ->
  length (ABCM.mass st) = length (ABCM.bas st) ->
  ABCM.bas st <> [] ->
  ABCM.set_kpts st k crys = Ok st3 ->
  (exists st4, ABCM.set_dyn M_THZ st3 = Ok st4 /\
               length (ABCM.dyn st4) = ABCM.nkpt st3) /\
  (exists r, ABCM.get_ph_disp M_THZ EigenSolver st3 = Ok r).
Proof.
  intros (Hnn & Hlab & Hrows) (Hlen & Hfi) Hmass Hbas Hk.
  apply set_kpts_Ok_inv in Hk as (k0 & ks & ->).
  assert (DynSpec.well_formed (ABCM.bas st) (ABCM.mass st) (ABCM.fc st) (ABCM.nn st)
            (ABCM.label st)) as WF.
  { split; [done|]. intros i Hi. rewrite Hmass in Hi.
    destruct (lookup_lt_is_Some_2 (ABCM.nn st) i) as [nni Hnni]; [lia|].
    destruct (lookup_lt_is_Some_2 (ABCM.label st) i) as [li Hli]; [lia|].
    destruct (lookup_lt_is_Some_2 (ABCM.fc st) i) as [fi Hfi']; [lia|].
    exists nni, li, fi. repeat split; [done..|].
    intros j Hj. destruct (Hrows i nni li Hnni Hli) as [Hlen_li Hlt].
    pose proof (Hfi i nni fi Hnni Hfi') as Hlen_fi.
    destruct (lookup_lt_is_Some_2 li j) as [ka Hka]; [lia|].
    destruct (lookup_lt_is_Some_2 fi j) as [T HT]; [lia|].
    exists ka, T. repeat split; [done..|].
    rewrite Forall_forall in Hlt. rewrite Hmass. apply Hlt.
    by eapply list_elem_of_lookup_2. }
  destruct (DynBuild_closed M_THZ _ _ (ABCM.bvec st) _ _ _ WF (ManyK (k0 :: ks)) crys)
    as (dyn & Hdyn & HF).
  assert (ABCM.set_dyn M_THZ (ABCM.with_kpts st (k0 :: ks) crys (length (k0 :: ks)))
          = Ok (ABCM.with_dyn
                  (ABCM.with_kpts st (k0 :: ks) crys (length (k0 :: ks))) dyn)) as Hset.
  { unfold ABCM.set_dyn.
    cbn [ABCM.with_kpts ABCM.fc ABCM.kpts ABCM.bas ABCM.mass
         ABCM.bvec ABCM.nn ABCM.label ABCM.iskcrys].
    destruct (ABCM.fc st) as [|T fcs]; [destruct (ABCM.bas st); done|].
    by rewrite Hdyn. }
  split.
  - eexists. split; [exact Hset|].
    cbn [ABCM.with_dyn ABCM.dyn ABCM.with_kpts ABCM.nkpt].
    by rewrite <- (Forall2_length _ _ _ HF).
  - unfold ABCM.get_ph_disp. rewrite Hset. cbn [mbind result_bind]. by eexists.
Qed.

Lemma lone_consistent : Shapes.neighbours_consistent Examples.lone.
Proof.
  repeat split; [done..| |].
  - destruct i as [|i]; [|done]. by injection H as <-; injection H0 as <-.
  - destruct i as [|i]; [|done]. injection H as <-; injection H0 as <-.
    repeat constructor.
Qed.

Lemma dispersion_returns_witness :
  (exists st4,
      ABCM.set_dyn 1
        (ABCM.with_kpts (ABCM.with_fc Examples.lone [[Examples.identity]])
           [Examples.unit_x] true 1) = Ok st4 /\
      length (ABCM.dyn st4) = 1%nat) /\
  (exists r,
      ABCM.get_ph_disp 1 Examples.zero_solver
        (ABCM.with_kpts (ABCM.with_fc Examples.lone [[Examples.identity]])
           [Examples.unit_x] true 1) = Ok r).
Proof.
  apply (dispersion_returns 1 Examples.zero_solver
           (ABCM.with_fc Examples.lone [[Examples.identity]])
           (ABCM.with_kpts (ABCM.with_fc Examples.lone [[Examples.identity]])
              [Examples.unit_x] true 1)
           (OneK Examples.unit_x) true).
  - apply lone_consistent.
  - split; [done|]. intros i nni fi Hnni Hfi.
    destruct i as [|i]; [|done]. by injection Hnni as <-; injection Hfi as <-.
  - reflexivity.
  - discriminate.
  - reflexivity.
Defined.

(** ** The interface fix *)

Lemma set_tensor_lengths (i j : nat) (v : mat3) (fc : list (list mat3)) :
  length <$> ABCM.set_tensor i j v fc = length <$> fc.
Proof.
  unfold ABCM.set_tensor. revert i.
  induction fc as [|row fc IH]; intros [|i]; cbn; [done..| |].
  - by rewrite length_insert.
  - f_equal. apply IH.
Qed.

Lemma average_step_lengths (st : ABCM.state) (i j o : nat) (bond0 : vec3) (k : nat)
    (fc fc' : list (list mat3)) :
  ABCM.average_step st i j o bond0 k fc = Ok fc' -> length <$> fc' = length <$> fc.
Proof.
  unfold ABCM.average_step. intros H.
  apply bind_Ok_inv in H as (bo & _ & H). apply bind_Ok_inv in H as (q & _ & H).
  destruct (Rltb _ _); [|by injection H as <-].
  apply bind_Ok_inv in H as (Tij & _ & H). apply bind_Ok_inv in H as (Tok & _ & H).
  injection H as <-. by rewrite !set_tensor_lengths.
Qed.

(** The interface fix rewrites tensors in place: the stack it leaves has
    the rows of the stack it found, with their lengths, and nothing else
    in the model changes. *)
Theorem fix_interface_keeps_shape (st st' : ABCM.state) :
  ABCM.fix_interface st = Ok st' ->
  exists fc', st' = ABCM.with_fc st fc' /\ length <$> fc' = length <$> ABCM.fc st.
Proof.
  unfold ABCM.fix_interface. intros H.
  apply bind_Ok_inv in H as (fc' & Hloop & H). injection H as <-.
  exists fc'. split; [done|].
  apply (for_each_invariant (fun fc => length <$> fc = length <$> ABCM.fc st))
    in Hloop; [done| |done].
  intros i fc1 fc2 _ Hfc1 Hi.
  apply bind_Ok_inv in Hi as (nni & _ & Hi).
  apply (for_each_invariant (fun fc => length <$> fc = length <$> ABCM.fc st))
    in Hi; [done| |done].
  intros j fc3 fc4 _ Hfc3 Hj. unfold ABCM.bond_fix in Hj.
  apply bind_Ok_inv in Hj as (bi & _ & Hj). apply bind_Ok_inv in Hj as (p & _ & Hj).
  apply bind_Ok_inv in Hj as (o & _ & Hj). apply bind_Ok_inv in Hj as (nno & _ & Hj).
  apply (for_each_invariant (fun fc => length <$> fc = length <$> ABCM.fc st))
    in Hj; [done| |done].
  intros k fc5 fc6 _ Hfc5 Hk. apply average_step_lengths in Hk. congruence.
Qed.

Lemma fix_interface_keeps_shape_witness :
  exists st' fc',
    ABCM.fix_interface (ABCM.with_fc Examples.abc (Examples.abc_fc 1 2 4)) = Ok st' /\
    st' = ABCM.with_fc (ABCM.with_fc Examples.abc (Examples.abc_fc 1 2 4)) fc' /\
    length <$> fc' = length <$> Examples.abc_fc 1 2 4.
Proof.
  destruct (abc_fix_interface 1 2 4)
    as (d00 & d01 & d10 & d11 & d20 & d21 & Hfix & _).
  destruct (fix_interface_keeps_shape _ _ Hfix) as (fc' & E & L).
  eexists. exists fc'. split; [exact Hfix|]. split; [exact E|exact L].
Defined.

Lemma for_each_fixed {S A : Type} (body : A -> S -> result S) (l : list A) (s : S) :
  (forall x, x ∈ l -> body x s = Ok s) -> for_each body l s = Ok s.
Proof.
  induction l as [|x l IH]; intros H; [done|].
  cbn [for_each]. rewrite H by (by left). cbn [mbind result_bind].
  apply IH. intros y Hy. apply H. by right.
Qed.

Lemma set_tensor_id (i j : nat) (T : mat3) (fc : list (list mat3)) :
  fc !! i ≫= (.!! j) = Some T -> ABCM.set_tensor i j T fc = fc.
Proof.
  unfold ABCM.set_tensor. revert i.
  induction fc as [|row fc IH]; intros [|i] H; cbn in *; [done..| |].
  - f_equal. by apply list_insert_id.
  - f_equal. by apply IH.
Qed.

Lemma mtranspose_involutive (m : mat3) : mtranspose (mtranspose m) = m.
Proof. mat3_entries. by rewrite ?mget_mat3_of by assumption. Qed.

Lemma lookup2_lt {A : Type} (l : list (list A)) (i j : nat) (row : list A) :
  l !! i = Some row -> (j < length row)%nat -> exists x, l !! i ≫= (.!! j) = Some x.
Proof.
  intros -> Hj. cbn. by apply lookup_lt_is_Some_2.
Qed.

(** On a stack in which every pair of bonds that the parallel test
    matches already carries mutually transposed tensors, the interface fix
    changes nothing. *)
Theorem fix_interface_fixed_point (st : ABCM.state) :
  Shapes.neighbours_consistent st ->
  Interface.tensors_consistent st ->
  Interface.matched_symmetric st ->
  ABCM.fix_interface st = Ok st.
Proof.
  intros (Hnn & Hlab & Hrows) (Hfc & Hfrows) Hsym.
  unfold ABCM.fix_interface.
  rewrite for_each_fixed; [by destruct st|].
  intros i Hi. apply elem_of_seq in Hi.
  destruct (lookup_lt_is_Some_2 (ABCM.nn st) i) as [nni Hnni]; [lia|].
  destruct (lookup_lt_is_Some_2 (ABCM.label st) i) as [li Hli]; [lia|].
  destruct (lookup_lt_is_Some_2 (ABCM.fc st) i) as [fi Hfi]; [lia|].
  destruct (lookup_lt_is_Some_2 (ABCM.bas st) i) as [bi Hbi]; [lia|].
  destruct (Hrows i nni li Hnni Hli) as [Hlen_li Hlt].
  pose proof (Hfrows i nni fi Hnni Hfi) as Hlen_fi.
  rewrite Hnni. cbn [from_opt mbind result_bind].
  apply for_each_fixed. intros j Hj. apply elem_of_seq in Hj.
  unfold ABCM.bond_fix. rewrite Hbi. cbn [from_opt mbind result_bind].
  destruct (lookup2_lt (ABCM.nn st) i j nni Hnni) as [p Hp]; [lia|].
  destruct (lookup2_lt (ABCM.label st) i j li Hli) as [o Ho]; [lia|].
  destruct (lookup2_lt (ABCM.fc st) i j fi Hfi) as [Tij HTij]; [lia|].
  rewrite Hp, Ho. cbn [from_opt mbind result_bind].
  assert (o < length (ABCM.bas st))%nat as Ho_lt.
  { rewrite Forall_forall in Hlt. apply Hlt.
    rewrite Hli in Ho. cbn in Ho. by eapply list_elem_of_lookup_2. }
  destruct (lookup_lt_is_Some_2 (ABCM.nn st) o) as [nno Hnno]; [lia|].
  destruct (lookup_lt_is_Some_2 (ABCM.fc st) o) as [fo Hfo]; [lia|].
  destruct (lookup_lt_is_Some_2 (ABCM.bas st) o) as [bo Hbo]; [lia|].
  pose proof (Hfrows o nno fo Hnno Hfo) as Hlen_fo.
  rewrite Hnno. cbn [from_opt mbind result_bind].
  apply for_each_fixed. intros k Hk. apply elem_of_seq in Hk.
  unfold ABCM.average_step. rewrite Hbo. cbn [from_opt mbind result_bind].
  destruct (lookup2_lt (ABCM.nn st) o k nno Hnno) as [q Hq]; [lia|].
  destruct (lookup2_lt (ABCM.fc st) o k fo Hfo) as [Tok HTok]; [lia|].
  rewrite Hq. cbn [from_opt mbind result_bind].
  destruct (Rltb _ _) eqn:Etest; [|done].
  apply Rltb_true in Etest.
  rewrite HTij, HTok. cbn [from_opt mbind result_bind].
  assert (Tij = mtranspose Tok) as E.
  { apply (Hsym i j o k); [|done..]. by exists bi, p, bo, q. }
  assert (mscale (madd Tij (mtranspose Tok)) 0.5 = Tij) as ->.
  { rewrite <- E. mat3_entries. rewrite ?mget_mat3_of by assumption. lra. }
  rewrite (set_tensor_id i j Tij) by done.
  rewrite E, mtranspose_involutive. by rewrite set_tensor_id.
Qed.

Lemma uniform_fc_lookup (c : R) (i j : nat) (T : mat3) :
  Examples.uniform_fc c !! i ≫= (.!! j) = Some T -> T = Examples.along_x c.
Proof.
  destruct i as [|[|i]]; [| |done]; (destruct j as [|[|j]]; [| |done]);
    cbn; by intros [= <-].
Qed.

Lemma chain_consistent (fc : list (list mat3)) :
  Shapes.neighbours_consistent (ABCM.with_fc Examples.chain fc).
Proof.
  split; [done|]. split; [done|]. intros i nni li Hnni Hli.
  destruct i as [|[|i]]; [| |done]; injection Hnni as <-; injection Hli as <-;
    (split; [done|]); repeat constructor.
Qed.

Lemma fix_interface_fixed_point_witness :
  ABCM.fix_interface (ABCM.with_fc Examples.chain (Examples.uniform_fc 1)) =
  Ok (ABCM.with_fc Examples.chain (Examples.uniform_fc 1)).
Proof.
  apply (fix_interface_fixed_point (ABCM.with_fc Examples.chain (Examples.uniform_fc 1))).
  - apply chain_consistent.
  - split; [done|]. intros i nni fi Hnni Hfi.
    destruct i as [|[|i]]; [| |done]; injection Hnni as <-; by injection Hfi as <-.
  - intros i j o k Tij Tok _ Hij Hok.
    apply uniform_fc_lookup in Hij as ->. apply uniform_fc_lookup in Hok as ->.
    symmetry. apply along_x_transpose.
Defined.

(** ** set_sl_fc: when it returns and what it raises *)

Lemma sl_tensors_raises (st : ABCM.state) (a_dict b_dict : gmap string R) (i : nat)
    (T : list mat3) :
  ABCM.sl_tensors st a_dict b_dict i <> Ok T.
Proof.
  unfold ABCM.sl_tensors. intros H.
  apply bind_Ok_inv in H as (onsite & _ & H).
  apply bind_Ok_inv in H as (offsite & _ & H).
  apply bind_Ok_inv in H as (coeffs & _ & H).
  apply bind_Ok_inv in H as (nni & _ & H).
  apply bind_Ok_inv in H as (bi & _ & H). done.
Qed.

(** [set_sl_fc] returns only when both dictionaries are given and the
    model has no basis atom, and then it stores an empty tensor stack:
    with a basis atom the loop never gets past its first turn. *)
Theorem set_sl_fc_returns_iff (st st' : ABCM.state)
    (fc_dict : gmap string (gmap string R)) :
  ABCM.set_sl_fc st fc_dict = Ok st' <->
  is_Some (fc_dict !! "alpha"%string) /\ is_Some (fc_dict !! "beta"%string) /\
  ABCM.bas st = [] /\ st' = ABCM.with_fc st [].
Proof.
  unfold ABCM.set_sl_fc. split.
  - intros H.
    apply bind_Ok_inv in H as (a_dict & Ha & H). apply from_opt_Ok_inv in Ha.
    apply bind_Ok_inv in H as (b_dict & Hb & H). apply from_opt_Ok_inv in Hb.
    apply bind_Ok_inv in H as (fc' & Hmap & H).
    split; [by eexists|]. split; [by eexists|].
    destruct (ABCM.bas st) as [|b0 bs] eqn:Ebas.
    + split; [done|]. injection Hmap as <-.
      unfold ABCM.fix_interface in H.
      cbn [ABCM.with_fc ABCM.bas] in H. rewrite Ebas in H.
      cbn in H. by injection H as <-.
    + exfalso. cbn [length seq mapM] in Hmap.
      apply bind_Ok_inv in Hmap as (T & HT & _). by apply sl_tensors_raises in HT.
  - intros ([a_dict ->] & [b_dict ->] & Ebas & ->).
    cbn [from_opt mbind result_bind]. rewrite Ebas. cbn [length seq mapM].
    cbn [mbind result_bind mret result_ret]. unfold ABCM.fix_interface.
    cbn [ABCM.with_fc ABCM.bas]. by rewrite Ebas.
Qed.

(** With a basis atom, what [set_sl_fc] raises is decided at the first
    atom.  When one of its lookups finds neither ordering of its key, the
    exception names a key that is missing in both orderings; when all of
    them are resolved, the exception is the [TypeError] of the call of
    [ConstructFC], whatever the dictionaries hold for the other atoms. *)
Theorem set_sl_fc_first_atom_decides (st : ABCM.state)
    (fc_dict : gmap string (gmap string R)) (a_dict b_dict : gmap string R) :
  fc_dict !! "alpha"%string = Some a_dict ->
  fc_dict !! "beta"%string = Some b_dict ->
  ABCM.bas st <> [] ->
  is_Some (ABCM.symbol st !! 0%nat) -> is_Some (ABCM.nnsymb st !! 0%nat) ->
  is_Some (ABCM.n1 st !! 0%nat) -> is_Some (ABCM.nn st !! 0%nat) ->
  (Exists (Lookups.missing a_dict b_dict) (Lookups.atom_lookups st 0) ->
   exists l, l ∈ Lookups.atom_lookups st 0 /\ Lookups.missing a_dict b_dict l /\
     ABCM.set_sl_fc st fc_dict = Raise (Lookups.MissingInteraction l.2.1)) /\
  (Forall (fun l => ~ Lookups.missing a_dict b_dict l) (Lookups.atom_lookups st 0) ->
   ABCM.set_sl_fc st fc_dict =
   Raise (TypeError "ConstructFC() takes exactly 6 arguments (4 given)")).
Proof.
  intros Ha Hb Hbas Hsym Hnnsymb Hn1 Hnn.
  assert (0 < length (ABCM.bas st))%nat as Hlen
    by (destruct (ABCM.bas st); [done|simpl; lia]).
  split.
  - intros Hex.
    destruct (sl_tensors_missing st a_dict b_dict 0 Hsym Hnnsymb Hn1 Hex)
      as (l & Hl & Hm & Hraise).
    exists l. split; [done|]. split; [done|].
    by apply (set_sl_fc_first_atom st fc_dict a_dict b_dict).
  - intros Hall. apply (set_sl_fc_first_atom st fc_dict a_dict b_dict); [done..|].
    apply sl_tensors_resolved; [done..| |done].
    by apply lookup_lt_is_Some_2.
Qed.

Lemma set_sl_fc_first_atom_decides_witness :
  (exists l, l ∈ Lookups.atom_lookups Examples.chain 0 /\ Lookups.missing ∅ ∅ l /\
     ABCM.set_sl_fc Examples.chain Examples.no_interaction =
     Raise (Lookups.MissingInteraction l.2.1)) /\
  ABCM.set_sl_fc Examples.abc (Examples.abc_fc_dict 3 5 7) =
  Raise (TypeError "ConstructFC() takes exactly 6 arguments (4 given)").
Proof.
  split.
  - apply (proj1 (set_sl_fc_first_atom_decides Examples.chain Examples.no_interaction
                    ∅ ∅ eq_refl eq_refl ltac:(discriminate)
                    ltac:(by eexists) ltac:(by eexists) ltac:(by eexists)
                    ltac:(by eexists))).
    apply Exists_cons_hd. split; apply lookup_empty.
  - apply (proj2 (set_sl_fc_first_atom_decides Examples.abc (Examples.abc_fc_dict 3 5 7)
                    (Examples.abc_dict 3 5 7) (Examples.abc_dict 0 0 0)
                    eq_refl eq_refl ltac:(discriminate)
                    ltac:(by eexists) ltac:(by eexists) ltac:(by eexists)
                    ltac:(by eexists))).
    apply abc_dict_atom_A.
Defined.

(** ** The objective of the fit is a distance *)

Lemma row_sq_nonneg (row : list R) : 0 <= fold_right Rplus 0 ((fun x => x ^ 2) <$> row).
Proof.
  induction row as [|x row IH]; cbn [fmap list_fmap fold_right]; [lra|].
  fold (@fmap list _ R R). pose proof (pow2_ge_0 x). lra.
Qed.

Lemma row_sq_zero (row : list R) :
  fold_right Rplus 0 ((fun x => x ^ 2) <$> row) = 0 <-> Forall (fun x => x = 0) row.
Proof.
  induction row as [|x row IH]; [by split; [constructor|]|].
  cbn [fmap list_fmap fold_right]. fold (@fmap list _ R R).
  pose proof (row_sq_nonneg row) as Hrow. pose proof (pow2_ge_0 x) as Hx.
  split.
  - intros H. assert (x ^ 2 = 0) as Hx0 by lra.
    constructor; [nra|]. apply IH. lra.
  - intros H. inversion H as [|? ? -> Hrest]; subst.
    apply IH in Hrest. rewrite Hrest. simpl. lra.
Qed.

Lemma sum_sq_nonneg (d : list (list R)) : 0 <= ABCM.sum_sq d.
Proof.
  unfold ABCM.sum_sq. induction d as [|row d IH]; cbn [fmap list_fmap fold_right]; [lra|].
  fold (@fmap list _ (list R) R). pose proof (row_sq_nonneg row). lra.
Qed.

Lemma sum_sq_zero (d : list (list R)) :
  ABCM.sum_sq d = 0 <-> Forall (Forall (fun x => x = 0)) d.
Proof.
  unfold ABCM.sum_sq. induction d as [|row d IH]; [by split; [constructor|]|].
  cbn [fmap list_fmap fold_right]. fold (@fmap list _ (list R) R).
  pose proof (row_sq_nonneg row) as Hrow. pose proof (sum_sq_nonneg d) as Hd.
  unfold ABCM.sum_sq in Hd. split.
  - intros H. constructor; [apply row_sq_zero; lra|]. apply IH. lra.
  - intros H. inversion H as [|? ? H1 H2]; subst.
    apply row_sq_zero in H1. apply IH in H2. lra.
Qed.

Lemma row_minus_zero (r1 r2 : list R) :
  length r1 = length r2 ->
  Forall (fun x => x = 0) (zip_with Rminus r1 r2) <-> r1 = r2.
Proof.
  revert r2. induction r1 as [|x r1 IH]; intros [|y r2] Hlen; try done.
  cbn [zip_with]. split.
  - intros H. inversion H as [|? ? Hxy Hrest]; subst.
    f_equal; [lra|]. apply IH; [simpl in Hlen; lia|done].
  - intros [= -> ->]. constructor; [lra|]. apply IH; [simpl in Hlen; lia|done].
Qed.

Lemma array_minus_zero (f s : list (list R)) :
  ABCM.same_shape f s = true ->
  Forall (Forall (fun x => x = 0)) (zip_with (zip_with Rminus) f s) <-> f = s.
Proof.
  unfold ABCM.same_shape. rewrite andb_true_iff, Nat.eqb_eq. intros [Hlen Hrows].
  revert s Hlen Hrows. induction f as [|r1 f IH]; intros [|r2 s] Hlen Hrows; try done.
  cbn [zip forallb zip_with fst snd] in *.
  apply andb_true_iff in Hrows as [Hr Hrows]. apply Nat.eqb_eq in Hr.
  split.
  - intros H. inversion H as [|? ? H1 H2]; subst.
    f_equal; [by apply row_minus_zero|]. apply IH; [simpl in Hlen; lia|done..].
  - intros [= -> ->]. constructor; [by apply row_minus_zero|].
    apply IH; [simpl in Hlen; lia|done..].
Qed.

(** The value the objective returns is never negative, and it is zero
    exactly when the predicted array equals the target. *)
Theorem objective_zero_iff (f s : list (list R)) (v : R) :
  f <> [] ->
  ABCM.objective f s = Ok v ->
  0 <= v /\ (v = 0 <-> f = s).
Proof.
  intros Hf. unfold ABCM.objective.
  destruct (ABCM.same_shape f s) eqn:Eshape; [|done]. intros [= <-].
  assert (0 < INR (length f)) as Hn.
  { apply lt_0_INR. destruct f; [done|simpl; lia]. }
  pose proof (sum_sq_nonneg (zip_with (zip_with Rminus) f s)) as Hsum.
  split.
  - apply Rmult_le_pos; [done|]. left. by apply Rinv_0_lt_compat.
  - rewrite <- (array_minus_zero f s Eshape), <- sum_sq_zero. split.
    + intros H. apply (Rmult_eq_compat_r (INR (length f))) in H.
      unfold Rdiv in H. rewrite Rmult_assoc, Rinv_l, Rmult_1_r, Rmult_0_l in H by lra.
      done.
    + intros ->. unfold Rdiv. ring.
Qed.

Lemma objective_zero_iff_witness :
  0 <= (1 - 0) ^ 2 + 0 + 0 /\
  ((1 - 0) ^ 2 + 0 + 0 = 0 <-> [[1]] = [[0]]).
Proof.
  apply (objective_zero_iff [[1]] [[0]]); [done|].
  unfold ABCM.objective. cbn. f_equal. field.
Defined.

(** ** The dispersion and the group velocity *)

Lemma get_ph_disp_Ok_inv (M_THZ : R) (EigenSolver : nat -> list cmat -> list (list R))
    (st st' : ABCM.state) (f : list (list R)) :
  ABCM.get_ph_disp M_THZ EigenSolver st = Ok (st', f) ->
  ABCM.fc st <> [] /\ ABCM.kpts st <> [] /\
  exists d, st' = ABCM.with_freq (ABCM.with_dyn st d) f.
Proof.
  unfold ABCM.get_ph_disp, ABCM.set_dyn.
  destruct (ABCM.fc st) as [|T fcs] eqn:Efc; [done|].
  destruct (ABCM.kpts st) as [|k ks] eqn:Ek; [done|].
  destruct (DynBuild _ _ _ _ _ _ _ _ _) as [d|e]; [|done].
  cbn [mbind result_bind]. intros H. injection H as <- <-.
  split; [done|]. split; [done|].
  destruct (ABCM.ecalc _); eexists; reflexivity.
Qed.

Lemma set_kpts_array (st st' : ABCM.state) (k : kpts_arg) (crys : bool) :
  ABCM.set_kpts st k crys = Ok st' ->
  kpts_array k <> [] /\
  st' = ABCM.with_kpts st (kpts_array k) crys (length (kpts_array k)).
Proof.
  unfold ABCM.set_kpts. destruct k as [k|[|k0 ks]]; [|done|]; by intros [= <-].
Qed.

Lemma k_conv_cart_Ok_inv (st st' : ABCM.state) :
  ABCM.k_conv st (Some "cart"%string) = Ok st' ->
  st' = ABCM.with_kpts st (mat_vec (ABCM.bvec st) <$> ABCM.kpts st) false (ABCM.nkpt st).
Proof.
  destruct (ABCM.kpts st) as [|k ks] eqn:Ek.
  - unfold ABCM.k_conv. by rewrite Ek.
  - rewrite (k_conv_cart st k ks Ek). by intros [= <-].
Qed.

(** When [get_group_v] returns, the model is left with the k-points it was
    given multiplied by [bvec], flagged Cartesian, whether they were
    passed as crystal coordinates or as Cartesian ones; the frequencies
    were computed at those points and at those points plus [dk]. *)
Theorem get_group_v_kpoints (M_THZ : R)
    (EigenSolver : nat -> list cmat -> list (list R))
    (st st' : ABCM.state) (k : kpts_arg) (direction : string) (crys : bool)
    (dk : option (list R)) (v : list (list R)) :
  GroupVelocity.get_group_v M_THZ EigenSolver st k direction crys dk = Ok (st', v) ->
  ABCM.kpts st' = mat_vec (ABCM.bvec st) <$> kpts_array k /\
  ABCM.iskcrys st' = false /\
  ABCM.fc st' = ABCM.fc st.
Proof.
  unfold GroupVelocity.get_group_v. intros H.
  apply bind_Ok_inv in H as (dk0 & _ & H).
  apply bind_Ok_inv in H as (st1 & H1 & H). apply set_kpts_array in H1 as [_ ->].
  apply bind_Ok_inv in H as (st2 & H2 & H). apply k_conv_cart_Ok_inv in H2 as ->.
  cbv zeta in H.
  apply bind_Ok_inv in H as (st3 & H3 & H). apply set_kpts_array in H3 as [_ ->].
  apply bind_Ok_inv in H as ([st4 f1] & H4 & H).
  apply get_ph_disp_Ok_inv in H4 as (_ & _ & d1 & ->).
  apply bind_Ok_inv in H as (st5 & H5 & H). apply set_kpts_array in H5 as [_ ->].
  apply bind_Ok_inv in H as ([st6 f0] & H6 & H).
  apply get_ph_disp_Ok_inv in H6 as (_ & _ & d0 & ->).
  destruct (ABCM.same_shape _ _); [|done].
  injection H as <- _. done.
Qed.

Lemma fmap_const_replicate {A B : Type} (c : B) (l : list A) :
  (fun _ => c) <$> l = replicate (length l) c.
Proof. induction l as [|x l IH]; [done|]. cbn. by f_equal. Qed.

Lemma get_ph_disp_zero_solver (M_THZ : R) (st : ABCM.state) :
  DynSpec.well_formed (ABCM.bas st) (ABCM.mass st) (ABCM.fc st) (ABCM.nn st)
                      (ABCM.label st) ->
  ABCM.fc st <> [] -> ABCM.kpts st <> [] -> ABCM.ecalc st = None ->
  exists d,
    ABCM.get_ph_disp M_THZ Examples.zero_solver st =
    Ok (ABCM.with_freq (ABCM.with_dyn st d)
          (replicate (length (ABCM.kpts st)) (replicate (3 * length (ABCM.mass st)) 0)),
        replicate (length (ABCM.kpts st)) (replicate (3 * length (ABCM.mass st)) 0)).
Proof.
  intros WF Hfc Hk Hecalc.
  destruct (DynBuild_closed M_THZ _ _ (ABCM.bvec st) _ _ _ WF (ManyK (ABCM.kpts st))
              (ABCM.iskcrys st)) as (dyn & Hdyn & HF).
  exists dyn. unfold ABCM.get_ph_disp, ABCM.set_dyn.
  destruct (ABCM.fc st) as [|T fcs] eqn:Efc; [done|].
  destruct (ABCM.kpts st) as [|k ks] eqn:Ek; [done|].
  rewrite Hdyn. cbn [mbind result_bind].
  replace (ABCM.ecalc (ABCM.with_dyn st dyn)) with (@None ABCM.ewald_get_dyn)
    by (by rewrite <- Hecalc).
  unfold Examples.zero_solver. rewrite fmap_const_replicate.
  cbn [ABCM.with_dyn ABCM.dyn ABCM.mass].
  by rewrite <- (Forall2_length _ _ _ HF).
Qed.

Lemma get_group_v_kpoints_witness :
  exists st' v,
    GroupVelocity.get_group_v 1 Examples.zero_solver
      (ABCM.with_fc Examples.lone [[Examples.identity]])
      (OneK Examples.unit_x) "x" false None = Ok (st', v) /\
    ABCM.kpts st' = mat_vec (ABCM.bvec Examples.lone) <$> [Examples.unit_x] /\
    ABCM.iskcrys st' = false /\
    ABCM.fc st' = [[Examples.identity]].
Proof.
  assert (exists r,
            GroupVelocity.get_group_v 1 Examples.zero_solver
              (ABCM.with_fc Examples.lone [[Examples.identity]])
              (OneK Examples.unit_x) "x" false None = Ok r) as [[st' v] H].
  { unfold GroupVelocity.get_group_v.
    change (GroupVelocity.offset "x" None) with (Ok (V3 1e-2 0 0)).
    cbn [ABCM.set_kpts mbind result_bind].
    rewrite (k_conv_cart _ Examples.unit_x []) by reflexivity.
    cbn [mbind result_bind]. cbv zeta.
    cbn [ABCM.kpts ABCM.with_kpts fmap list_fmap ABCM.set_kpts mbind result_bind length].
    match goal with
    | |- context [ABCM.get_ph_disp 1 Examples.zero_solver ?s] =>
        destruct (get_ph_disp_zero_solver 1 s) as [d1 ->];
          [apply self_bonded_well_formed|done..|]
    end.
    cbn [mbind result_bind ABCM.set_kpts length].
    match goal with
    | |- context [ABCM.get_ph_disp 1 Examples.zero_solver ?s] =>
        destruct (get_ph_disp_zero_solver 1 s) as [d0 ->];
          [apply self_bonded_well_formed|done..|]
    end.
    cbn [mbind result_bind ABCM.kpts ABCM.mass ABCM.with_kpts ABCM.with_freq
         ABCM.with_dyn ABCM.with_fc Examples.lone length Nat.mul Nat.add replicate
         fmap list_fmap].
    rewrite sort_zeros. cbn. by eexists. }
  exists st', v. split; [exact H|].
  exact (get_group_v_kpoints 1 Examples.zero_solver _ st' (OneK Examples.unit_x)
           "x" false None v H).
Defined.

(** ** The target of the fit *)

Lemma sort_permutation_eq (l1 l2 : list R) : Permutation l1 l2 -> sort l1 = sort l2.
Proof.
  intros H. apply (Sorted_unique Rle); [apply sort_Sorted..|].
  by rewrite !sort_perm.
Qed.

(** [fit_freq] accepts its target exactly when k-points are given and the
    target has one row for each of them.  It stores every row sorted in
    ascending order, so the order in which the bands of a k-point are
    listed does not matter. *)
Theorem fit_freq_setup_accepts (st : ABCM.state) (src : list (list R)) (k : kpts_arg)
    (crys : bool) :
  ((exists st', ABCM.fit_freq_setup st src k crys = Ok st') <->
   kpts_array k <> [] /\ length src = length (kpts_array k)) /\
  (forall st', ABCM.fit_freq_setup st src k crys = Ok st' ->
     ABCM.src_freq st' = sort <$> src /\ Forall (Sorted Rle) (ABCM.src_freq st')) /\
  (forall src', Forall2 Permutation src src' ->
     ABCM.fit_freq_setup st src' k crys = ABCM.fit_freq_setup st src k crys).
Proof.
  assert (kpts_array k = [] ->
          forall src0 st', ABCM.fit_freq_setup st src0 k crys <> Ok st') as Hnil.
  { intros Ek src0 st'. unfold ABCM.fit_freq_setup, ABCM.set_kpts.
    by destruct k as [k0|[|k0 ks]]. }
  assert (forall k0 ks src0, kpts_array k = k0 :: ks ->
            ABCM.fit_freq_setup st src0 k crys =
            if (length src0 =? length (k0 :: ks))%nat
            then Ok (ABCM.with_src_freq
                       (ABCM.with_kpts st (k0 :: ks) crys (length (k0 :: ks)))
                       (sort <$> src0))
            else Raise AssertionError) as Hcons.
  { intros k0 ks src0 Ek. unfold ABCM.fit_freq_setup, ABCM.set_kpts.
    destruct k as [k1|[|k1 ks1]]; cbn [kpts_array] in Ek; [|done|];
      injection Ek as <- <-;
      cbn [mbind result_bind ABCM.with_src_freq ABCM.src_freq ABCM.nkpt
           ABCM.with_kpts];
      by rewrite length_fmap. }
  destruct (kpts_array k) as [|k0 ks] eqn:Ek.
  { split; [|split].
    - split; [|by intros [? _]]. intros [st' H]. by apply Hnil in H.
    - intros st' H. by apply Hnil in H.
    - intros src' Hperm.
      destruct (ABCM.fit_freq_setup st src' k crys) as [s1|e1] eqn:E1;
        [by apply Hnil in E1|].
      destruct (ABCM.fit_freq_setup st src k crys) as [s2|e2] eqn:E2;
        [by apply Hnil in E2|].
      unfold ABCM.fit_freq_setup, ABCM.set_kpts in E1, E2.
      destruct k as [k1|[|k1 ks1]]; [done| |done].
      cbn in E1, E2. congruence. }
  split; [|split].
  - rewrite (Hcons k0 ks) by done. destruct (_ =? _)%nat eqn:E.
    + apply Nat.eqb_eq in E. split; [done|]. intros _. by eexists.
    + apply Nat.eqb_neq in E. split; [by intros [st' H]|]. by intros [_ H].
  - rewrite (Hcons k0 ks) by done. intros st' H.
    destruct (_ =? _)%nat; [|done]. injection H as <-.
    cbn [ABCM.with_src_freq ABCM.src_freq]. split; [done|].
    apply Forall_fmap, Forall_forall. intros row _. apply sort_Sorted.
  - intros src' Hperm. rewrite !(Hcons k0 ks) by done.
    rewrite <- (Forall2_length _ _ _ Hperm).
    assert (sort <$> src' = sort <$> src) as ->; [|done].
    induction Hperm as [|r r' src src' Hr _ IH]; [done|].
    cbn [fmap list_fmap]. f_equal; [symmetry; by apply sort_permutation_eq|].
    apply IH.
Qed.

Lemma fit_freq_setup_accepts_witness :
  ABCM.src_freq
    (ABCM.with_src_freq (ABCM.with_kpts Examples.lone [Examples.origin] true 1)
       (sort <$> [[0; 0; 0]]))
  = sort <$> [[0; 0; 0]] /\
  Forall (Sorted Rle)
    (ABCM.src_freq
       (ABCM.with_src_freq (ABCM.with_kpts Examples.lone [Examples.origin] true 1)
          (sort <$> [[0; 0; 0]]))).
Proof.
  apply (proj1 (proj2 (fit_freq_setup_accepts Examples.lone [[0; 0; 0]]
                         (OneK Examples.origin) true))).
  reflexivity.
Defined.

(** ** The distances of the neighbour shell *)

(** The distance stored for a neighbour is the length of its bond.  With
    [dist2] given no stored distance exceeds it; without, the distances
    of one shell agree within twice the tolerance [1e-4]. *)
Theorem set_nn_distances (argsort : list R -> list nat) (st st' : ABCM.state)
    (scope : nat * nat * nat) (nmax : nat) (dist2 : option R) :
  argsort_spec argsort ->
  ABCM.set_nn argsort st scope nmax dist2 = Ok st' ->
  forall i j d, ABCM.nndist st' !! i ≫= (.!! j) = Some d ->
    (exists b p, ABCM.bas st !! i = Some b /\
                 ABCM.nn st' !! i ≫= (.!! j) = Some p /\
                 d = norm (vsub b p)) /\
    (forall d2, dist2 = Some d2 -> d <= d2) /\
    (dist2 = None ->
     forall j' d', ABCM.nndist st' !! i ≫= (.!! j') = Some d' ->
                   Rabs (d - d') < 2e-4).
Proof.
  intros SPEC H. apply set_nn_Ok_inv in H as (_ & Hnn & _ & Hdist).
  cbv zeta in Hnn, Hdist. rewrite Hnn, Hdist. clear Hnn Hdist.
  intros i j d Hd.
  rewrite <- list_fmap_compose, list_lookup_fmap in Hd.
  rewrite <- !list_fmap_compose, !list_lookup_fmap.
  destruct (ABCM.bas st !! i) as [b|]; [|cbn in Hd; done].
  cbn [fmap option_fmap option_map mbind option_bind compose] in Hd.
  cbn [fmap option_fmap option_map mbind option_bind compose].
  pose proof (shell_indices argsort SPEC st scope nmax dist2 b) as Hidx.
  rewrite Forall_forall in Hidx.
  unfold ABCM.first_nn_ind in *. cbv zeta in *. cbn [fst snd] in *.
  set (all := ABCM.allatoms st scope) in *.
  set (dist := (fun item => norm (vsub b item)) <$> all) in *.
  set (nn_ind := take (nmax - 1) (drop 1 (argsort dist))) in *.
  set (first := match dist2 with
                | Some d2 => filter (fun item => Rleb (dist !!! item) d2 = true) nn_ind
                | None =>
                    filter (fun item =>
                              Rltb (Rabs (dist !!! item - dist !!! (nn_ind !!! 0%nat)))
                                   1e-4 = true) nn_ind
                end) in *.
  fold (@fmap list _ nat R) in Hd. fold (@fmap list _ nat vec3).
  fold (@fmap list _ nat R).
  rewrite list_lookup_fmap in Hd.
  destruct (first !! j) as [ind|] eqn:Eind; [|cbn in Hd; done].
  cbn [fmap option_fmap option_map] in Hd. injection Hd as <-.
  assert (ind ∈ first) as Hin by (by eapply list_elem_of_lookup_2).
  assert (forall ind0, ind0 ∈ first ->
            dist !!! ind0 = norm (vsub b (all !!! ind0))) as Hnorm.
  { intros ind0 H0. unfold dist.
    apply (lookup_total_fmap_lt (fun item => norm (vsub b item)) all ind0).
    unfold all. rewrite length_allatoms. by apply Hidx. }
  split; [|split].
  - exists b, (all !!! ind). split; [done|]. split; [|by apply Hnorm].
    rewrite list_lookup_fmap, Eind. done.
  - intros d2 ->. subst first. apply list_elem_of_filter in Hin as [Hle _].
    by apply Rleb_true in Hle.
  - intros -> j' d' Hd'. rewrite list_lookup_fmap in Hd'.
    destruct (first !! j') as [ind'|] eqn:Eind'; [|cbn in Hd'; done].
    cbn [fmap option_fmap option_map] in Hd'. injection Hd' as <-.
    assert (ind' ∈ first) as Hin' by (by eapply list_elem_of_lookup_2).
    subst first. apply list_elem_of_filter in Hin as [Hlt _].
    apply list_elem_of_filter in Hin' as [Hlt' _].
    apply Rltb_true in Hlt, Hlt'.
    apply Rabs_def2 in Hlt as [? ?], Hlt' as [? ?].
    apply Rabs_def1; lra.
Qed.

Lemma set_nn_distances_witness :
  exists st',
    ABCM.set_nn stable_argsort Examples.cubic (1, 1, 1)%nat 20 None = Ok st' /\
    forall i j d, ABCM.nndist st' !! i ≫= (.!! j) = Some d ->
      (exists b p, ABCM.bas Examples.cubic !! i = Some b /\
                   ABCM.nn st' !! i ≫= (.!! j) = Some p /\
                   d = norm (vsub b p)) /\
      (forall d2, @None R = Some d2 -> d <= d2) /\
      (@None R = None ->
       forall j' d', ABCM.nndist st' !! i ≫= (.!! j') = Some d' ->
                     Rabs (d - d') < 2e-4).
Proof.
  destruct (set_nn_defined stable_argsort Examples.cubic (1, 1, 1)%nat 20 None
              stable_argsort_spec eq_refl) as [st' H].
  - intros [d Hd]. discriminate Hd.
  - exists st'. split; [exact H|].
    exact (set_nn_distances stable_argsort Examples.cubic st' (1, 1, 1)%nat 20 None
             stable_argsort_spec H).
Defined.

(** ** ConstructFC without bond charges *)

Lemma msum_zeros {A : Type} (f : A -> mat3) (l : list A) :
  (forall x, x ∈ l -> f x = mzero) -> msum (f <$> l) = mzero.
Proof.
  induction l as [|x l IH]; intros H; [done|].
  rewrite fmap_cons, msum_cons, H, IH, madd_zero_l; [done| |by left].
  intros y Hy. apply H. by right.
Qed.

(** Where neither the atom nor any of its neighbours is a bond charge,
    the bending constants have no effect: every tensor is the stretching
    term alone, eight times [- alpha_n x x^T / d_n^2], and is
    symmetric. *)
Theorem ConstructFC_without_bond_charges
    (alpha : list R) (beta : list (list R)) (nn : list vec3) (atom : vec3)
    (nnlab : list string) :
  FCSpec.well_formed alpha beta nn nnlab false ->
  Forall (fun l => is_bc l = false) nnlab ->
  exists T,
    FC.ConstructFC alpha beta nn atom nnlab false = Ok T /\
    T = (fun n => mscale (FCSpec.stretching_term alpha nn atom n) 8)
          <$> seq 0 (length nn) /\
    Forall (fun m => mtranspose m = m) T.
Proof.
  intros WF Hlab. pose proof WF as (_ & _ & _ & _ & Hlen & _).
  eexists. split; [by apply ConstructFC_closed|].
  assert (forall n, (n < length nn)%nat ->
            FCSpec.tensor alpha beta nn atom nnlab false n =
            mscale (FCSpec.stretching_term alpha nn atom n) 8) as Htensor.
  { intros n Hn. unfold FCSpec.tensor. cbn [FCSpec.bc_to_bc andb].
    unfold FCSpec.bending_term. rewrite msum_zeros.
    - rewrite mscale_zero. apply madd_zero_r.
    - intros n2 _. unfold FCSpec.contribution, FCSpec.pair_included.
      assert (is_bc (nnlab !!! n) = false) as ->; [|by rewrite andb_false_r].
      rewrite Forall_forall in Hlab. apply Hlab.
      apply list_elem_of_lookup_total_2. lia. }
  split.
  - apply list_fmap_ext. intros i n Hn. apply lookup_seq in Hn as [-> Hn].
    by apply Htensor.
  - apply Forall_fmap, Forall_forall. intros n Hn. apply elem_of_seq in Hn.
    simpl. rewrite Htensor by lia. unfold FCSpec.stretching_term.
    mat3_entries. rewrite ?mget_mat3_of by assumption. ring.
Qed.

Lemma ConstructFC_without_bond_charges_witness :
  exists T,
    FC.ConstructFC [1; 2] [[0; 5]; [7; 0]] [Examples.unit_x; Examples.corner]
      Examples.origin ["Si"; "Ge"]%string false = Ok T /\
    T = (fun n => mscale (FCSpec.stretching_term [1; 2]
                            [Examples.unit_x; Examples.corner] Examples.origin n) 8)
          <$> seq 0 (length [Examples.unit_x; Examples.corner]) /\
    Forall (fun m => mtranspose m = m) T.
Proof.
  apply (ConstructFC_without_bond_charges [1; 2] [[0; 5]; [7; 0]]
           [Examples.unit_x; Examples.corner] Examples.origin ["Si"; "Ge"]%string).
  - by apply pair_shell_well_formed.
  - by repeat constructor.
Defined.

(** ** The averaging on collinear bonds *)

(** On the chain of three species every bond lies on one axis, so the
    test of line 354 matches each bond with both bonds of the neighbour.
    From a stack that holds one tensor at both ends of each bond,
    [u e_x e_x^T] on A-B, [v e_x e_x^T] on A-C and [w e_x e_x^T] on B-C,
    [__fix_interface] leaves [(7u/16 + v/4 + 5w/16) e_x e_x^T] at the end
    of the bond A-B at atom A and [(5u/16 + 5v/16 + 3w/8) e_x e_x^T] at
    its end at atom B. *)
Theorem fix_interface_collinear_bonds (u v w : R) :
  (ABCM.label Examples.abc !!! 0%nat) !!! 0%nat = 1%nat /\
  (ABCM.label Examples.abc !!! 1%nat) !!! 0%nat = 0%nat /\
  exists st',
    ABCM.fix_interface (ABCM.with_fc Examples.abc (Examples.abc_fc u v w)) = Ok st' /\
    (ABCM.fc st' !!! 0%nat) !!! 0%nat =
      Examples.along_x (7/16 * u + 1/4 * v + 5/16 * w) /\
    (ABCM.fc st' !!! 1%nat) !!! 0%nat =
      Examples.along_x (5/16 * u + 5/16 * v + 3/8 * w).
Proof.
  split; [done|]. split; [done|].
  destruct (abc_fix_interface u v w)
    as (d00 & d01 & d10 & d11 & d20 & d21 & Hfix & -> & ->).
  eexists. split; [exact Hfix|]. split; reflexivity.
Qed.

(** ** The dynamical matrix under a rigid shift of the positions *)

Lemma mapM_ext {A B : Type} (f g : A -> result B) (l : list A) :
  (forall x, x ∈ l -> f x = g x) -> mapM f l = mapM g l.
Proof.
  induction l as [|x l IH]; intros H; [done|].
  cbn [mapM]. rewrite H by (by left). rewrite IH; [done|].
  intros y Hy. apply H. by right.
Qed.

Lemma lookup2_fmap {A B : Type} (f : A -> B) (l : list (list A)) (i j : nat) :
  (fmap (M := list) (fmap (M := list) f) l !! i) ≫= (fun row : list B => row !! j) =
  fmap (M := option) f (l !! i ≫= (fun row : list A => row !! j)).
Proof.
  rewrite list_lookup_fmap. destruct (l !! i) as [row|]; [|done].
  cbn. by rewrite list_lookup_fmap.
Qed.

(** The matrices depend on the positions through the bond vectors only:
    moving every basis atom and every neighbour by one vector [t] changes
    neither the matrices [DynBuild] returns nor the exception it
    raises. *)
Theorem DynBuild_translation_invariant (M_THZ : R)
    (basis : list vec3) (mass : list R) (bvec : mat3) (fc : list (list mat3))
    (nn : list (list vec3)) (label : list (list nat)) (t : vec3)
    (kpts : kpts_arg) (crys : bool) :
  DynBuild M_THZ ((fun p => vadd p t) <$> basis) mass bvec fc
           (fmap (M := list) (fmap (M := list) (fun p => vadd p t)) nn) label kpts crys =
  DynBuild M_THZ basis mass bvec fc nn label kpts crys.
Proof.
  unfold DynBuild. cbv zeta. rewrite length_fmap.
  destruct (negb _); [done|].
  rewrite (mapM_ext _ (fun k => dyn_at basis mass fc nn label (to_cartesian bvec crys k)));
    [done|].
  intros k _. unfold dyn_at. apply for_each_ext. intros i D _.
  unfold atom_step. rewrite list_lookup_fmap.
  destruct (nn !! i) as [nni|]; [|done].
  cbn [fmap option_fmap option_map from_opt mbind result_bind].
  rewrite length_fmap. apply for_each_ext. intros j D' _.
  unfold bond_step. rewrite lookup2_fmap, list_lookup_fmap.
  destruct (basis !! i) as [bi|]; [|done].
  cbn [fmap option_fmap option_map from_opt mbind result_bind].
  destruct (nn !! i) as [row|]; [|done]. cbn [mbind option_bind].
  destruct (row !! j) as [p|]; [|done].
  cbn [fmap option_fmap option_map from_opt mbind result_bind].
  by rewrite vsub_shift.
Qed.

(** ** One averaging step *)

Lemma set_tensor_lookup_eq (i j : nat) (v : mat3) (fc : list (list mat3)) (T : mat3) :
  fc !! i ≫= (.!! j) = Some T ->
  ABCM.set_tensor i j v fc !! i ≫= (.!! j) = Some v.
Proof.
  unfold ABCM.set_tensor. intros H. rewrite list_lookup_alter_eq.
  destruct (fc !! i) as [row|]; [|done]. cbn in *.
  apply list_lookup_insert_eq. by eapply lookup_lt_Some.
Qed.

Lemma set_tensor_lookup_ne (i j i' j' : nat) (v : mat3) (fc : list (list mat3)) :
  (i, j) <> (i', j') ->
  ABCM.set_tensor i j v fc !! i' ≫= (.!! j') = fc !! i' ≫= (.!! j').
Proof.
  unfold ABCM.set_tensor. intros Hne.
  destruct (decide (i = i')) as [<-|Hi].
  - rewrite list_lookup_alter_eq. destruct (fc !! i) as [row|]; [|done]. cbn.
    apply list_lookup_insert_ne. congruence.
  - by rewrite list_lookup_alter_ne.
Qed.

(** An averaging step whose parallel test passes leaves the two tensors
    it writes mutually transposed: the tensor of bond [(i,j)] is the
    transpose of the tensor of bond [(o,k)]. *)
Theorem average_step_transposes (st : ABCM.state) (i j o k : nat)
    (bond0 bo q : vec3) (fc fc' : list (list mat3)) :
  ABCM.bas st !! o = Some bo ->
  ABCM.nn st !! o ≫= (.!! k) = Some q ->
  norm (cross bond0 (vsub bo q)) < 1e-3 ->
  ABCM.average_step st i j o bond0 k fc = Ok fc' ->
  exists T, fc' !! i ≫= (.!! j) = Some T /\
            fc' !! o ≫= (.!! k) = Some (mtranspose T).
Proof.
  intros Hbo Hq Htest. unfold ABCM.average_step. rewrite Hbo, Hq.
  cbn [from_opt mbind result_bind].
  rewrite (proj2 (Rltb_true _ _) Htest). intros H.
  apply bind_Ok_inv in H as (Tij & Hij & H). apply from_opt_Ok_inv in Hij.
  apply bind_Ok_inv in H as (Tok & Hok & H). apply from_opt_Ok_inv in Hok.
  injection H as <-.
  set (tmp := mscale (madd Tij (mtranspose Tok)) 0.5).
  assert (exists T', ABCM.set_tensor i j tmp fc !! o ≫= (.!! k) = Some T') as [T' HT'].
  { destruct (decide ((i, j) = (o, k))) as [[= <- <-]|Hne].
    - exists tmp. by eapply set_tensor_lookup_eq.
    - exists Tok. by rewrite set_tensor_lookup_ne. }
  destruct (decide ((o, k) = (i, j))) as [[= -> ->]|Hne].
  - exists (mtranspose tmp). split; [by eapply set_tensor_lookup_eq|].
    rewrite (set_tensor_lookup_eq _ _ _ _ T') by done. f_equal.
    assert (Tok = Tij) as -> by congruence.
    unfold tmp. mat3_entries. rewrite ?mget_mat3_of by assumption. lra.
  - exists tmp. split.
    + rewrite set_tensor_lookup_ne by done. by eapply set_tensor_lookup_eq.
    + by eapply set_tensor_lookup_eq.
Qed.

Lemma average_step_transposes_witness :
  exists T,
    ABCM.set_tensor 1 0
      (mtranspose (mscale (madd (Examples.along_x 1)
                             (mtranspose (Examples.along_x 3))) 0.5))
      (ABCM.set_tensor 0 0
         (mscale (madd (Examples.along_x 1) (mtranspose (Examples.along_x 3))) 0.5)
         [[Examples.along_x 1; Examples.along_x 2];
          [Examples.along_x 3; Examples.along_x 4]])
      !! 0%nat ≫= (.!! 0%nat) = Some T /\
    ABCM.set_tensor 1 0
      (mtranspose (mscale (madd (Examples.along_x 1)
                             (mtranspose (Examples.along_x 3))) 0.5))
      (ABCM.set_tensor 0 0
         (mscale (madd (Examples.along_x 1) (mtranspose (Examples.along_x 3))) 0.5)
         [[Examples.along_x 1; Examples.along_x 2];
          [Examples.along_x 3; Examples.along_x 4]])
      !! 1%nat ≫= (.!! 0%nat) = Some (mtranspose T).
Proof.
  apply (average_step_transposes Examples.chain 0 0 1 0
           (vsub (V3 0 0 0) (V3 (1/2) 0 0)) (V3 (1/2) 0 0) (V3 0 0 0)
           [[Examples.along_x 1; Examples.along_x 2];
            [Examples.along_x 3; Examples.along_x 4]]).
  - reflexivity.
  - reflexivity.
  - apply Rltb_true, cross_on_axis; simpl; lra.
  - unfold ABCM.average_step.
    change (ABCM.bas Examples.chain !! 1%nat) with (Some (V3 (1/2) 0 0)).
    change (ABCM.nn Examples.chain !! 1%nat ≫= (.!! 0%nat)) with (Some (V3 0 0 0)).
    cbn [from_opt mbind result_bind].
    rewrite cross_on_axis by (simpl; lra). reflexivity.
Defined.

(** ** Atoms without a common bond *)

(** The matrix couples bonded atoms only: the block of two different
    atoms [i] and [k] is zero when no neighbour of [i] is labelled [k]. *)
Theorem DynBuild_unbonded_block_zero (M_THZ : R)
    (basis : list vec3) (mass : list R) (bvec : mat3) (fc : list (list mat3))
    (nn : list (list vec3)) (label : list (list nat))
    (kpts : kpts_arg) (crys : bool) (i k : nat) :
  DynSpec.well_formed basis mass fc nn label ->
  (i < length mass)%nat -> i <> k ->
  (forall j, j ∈ DynSpec.shell nn i -> DynSpec.owner label i j <> k) ->
  exists dyn, DynBuild M_THZ basis mass bvec fc nn label kpts crys = Ok dyn /\
    Forall (fun D : cmat =>
              forall a b, (a < 3)%nat -> (b < 3)%nat ->
                D (i * 3 + a)%nat (k * 3 + b)%nat = C0) dyn.
Proof.
  intros WF Hi Hne Hown.
  destruct (DynBuild_closed M_THZ basis mass bvec fc nn label WF kpts crys)
    as (dyn & Hdyn & HF).
  exists dyn. split; [done|].
  apply Forall_forall. intros D HD.
  apply list_elem_of_lookup in HD as [n HD].
  destruct (Forall2_lookup_r _ _ _ n D HF HD) as (kq & _ & E).
  intros a b Ha Hb. rewrite E, dyn_entry_block by done.
  unfold DynSpec.block_entry.
  rewrite (proj2 (Nat.eqb_neq i k)) by done. rewrite Cadd_0_l.
  rewrite Csum_zero; [apply Cscale_0_l|].
  intros j Hj. by rewrite (proj2 (Nat.eqb_neq _ _) (Hown j Hj)).
Qed.

Lemma DynBuild_unbonded_block_zero_witness :
  exists dyn,
    DynBuild 1 [Examples.origin; Examples.unit_x] [1; 1] Examples.identity
      [[Examples.identity]; [Examples.identity]]
      [[Examples.unit_x]; [Examples.origin]] [[0]; [1]]%nat
      (OneK Examples.unit_x) true = Ok dyn /\
    Forall (fun D : cmat =>
              forall a b, (a < 3)%nat -> (b < 3)%nat ->
                D (0 * 3 + a)%nat (1 * 3 + b)%nat = C0) dyn.
Proof.
  apply (DynBuild_unbonded_block_zero 1 [Examples.origin; Examples.unit_x] [1; 1]
           Examples.identity [[Examples.identity]; [Examples.identity]]
           [[Examples.unit_x]; [Examples.origin]] [[0]; [1]]%nat
           (OneK Examples.unit_x) true 0 1).
  - split; [done|]. intros i Hi. simpl in Hi.
    destruct i as [|[|i]]; [| |lia].
    + exists [Examples.unit_x], [0%nat], [Examples.identity]. repeat split.
      intros j Hj. simpl in Hj. assert (j = 0%nat) as -> by lia.
      exists 0%nat, Examples.identity. repeat split. simpl. lia.
    + exists [Examples.origin], [1%nat], [Examples.identity]. repeat split.
      intros j Hj. simpl in Hj. assert (j = 0%nat) as -> by lia.
      exists 1%nat, Examples.identity. repeat split. simpl. lia.
  - simpl. lia.
  - lia.
  - intros j Hj. apply elem_of_seq in Hj. simpl in Hj.
    assert (j = 0%nat) as -> by lia. cbn. lia.
Defined.
